(** * Filename-keyword classifier of the server model service

    A shallow embedding of [src/server/modelService.ts]
    (class [ServerModelService]): [normalizeName], [debugAnalyze],
    [scoreToConfidence] and [predictFromImageName], together with the
    configuration tables they read, and the properties the specification
    states about them.

    JavaScript strings are sequences of UTF-16 code units and JavaScript
    numbers are IEEE-754 binary64 values; the embedding keeps both:
    strings are lists of code units ([N]) and numbers are Rocq's primitive
    floats.

    Two older classifiers on the file name follow, with their own
    properties: [fallbackPrediction] of
    [src/client/src/services/modelService.ts] and the earlier
    [predictFromImageName] of [src/unnamed/part_000].  Both call
    [Math.random()]; the values it returns are an explicit input. *)

From Stdlib Require Import List Bool Arith NArith ZArith Lia.
From Stdlib Require Import Ascii String.
From Stdlib Require Import Floats.
From Stdlib Require Import Sorted Permutation.
Import ListNotations.

Set Implicit Arguments.
#[local] Set Warnings "-inexact-float".

(* ================================================================== *)
(** * JavaScript strings *)
(* ================================================================== *)

Module JsString.

Local Open Scope N_scope.

(** A UTF-16 code unit. *)
Definition unit16 := N.

(** A JavaScript string value. *)
Definition jsstring := list unit16.

(** The string written by an ASCII literal. *)
Definition lit (s : string) : jsstring :=
  map N_of_ascii (list_ascii_of_string s).

Definition eqStr (a b : jsstring) : bool :=
  if list_eq_dec N.eq_dec a b then true else false.

(** ** Character classes of the regular expressions in the source *)

Definition inRange (lo hi c : N) : bool := (lo <=? c) && (c <=? hi).

(** [[a-z0-9]] *)
Definition isAlnum (c : unit16) : bool :=
  inRange 97 122 c || inRange 48 57 c.

(** [\s] of ECMAScript: WhiteSpace and LineTerminator code points.  The
    same set is what [String.prototype.trim] strips. *)
Definition isSpace (c : unit16) : bool :=
  inRange 9 13 c || (c =? 32) || (c =? 160) || (c =? 5760)
  || inRange 8192 8202 c || (c =? 8232) || (c =? 8233) || (c =? 8239)
  || (c =? 8287) || (c =? 12288) || (c =? 65279).

(** [[_\-\.]] *)
Definition isSep (c : unit16) : bool :=
  (c =? 95) || (c =? 45) || (c =? 46).

(** [[^a-z0-9\s]] *)
Definition notAlnumSpace (c : unit16) : bool := negb (isAlnum c || isSpace c).

(** [[^a-z0-9]] *)
Definition notAlnum (c : unit16) : bool := negb (isAlnum c).

(** ** String methods *)

(** [s.replace(/[class]+/g, by)]: every maximal run of characters of the
    class is replaced by [by].  [inrun] tells that the previous character
    belonged to the run being replaced. *)
Fixpoint replaceRuns (cls : unit16 -> bool) (by_ : jsstring) (inrun : bool)
    (s : jsstring) : jsstring :=
  match s with
  | [] => []
  | c :: s' =>
      if cls c
      then (if inrun then [] else by_) ++ replaceRuns cls by_ true s'
      else c :: replaceRuns cls by_ false s'
  end.

Definition replaceAll (cls : unit16 -> bool) (by_ : jsstring) (s : jsstring) :=
  replaceRuns cls by_ false s.

Fixpoint dropWhile (p : unit16 -> bool) (s : jsstring) : jsstring :=
  match s with
  | [] => []
  | c :: s' => if p c then dropWhile p s' else s
  end.

Fixpoint takeWhile (p : unit16 -> bool) (s : jsstring) : jsstring :=
  match s with
  | [] => []
  | c :: s' => if p c then c :: takeWhile p s' else []
  end.

(** [s.trim()] *)
Definition trim (s : jsstring) : jsstring :=
  rev (dropWhile isSpace (rev (dropWhile isSpace s))).

(** [s.split(/[class]+/)]: the pieces between maximal runs of the class,
    empty pieces at either end included; the empty string gives one empty
    piece. *)
Fixpoint splitRuns (cls : unit16 -> bool) (inrun : bool) (s : jsstring)
    : list jsstring :=
  match s with
  | [] => [[]]
  | c :: s' =>
      if cls c
      then (if inrun then splitRuns cls true s'
            else [] :: splitRuns cls true s')
      else match splitRuns cls false s' with
           | piece :: rest => (c :: piece) :: rest
           | [] => [[c]]
           end
  end.

Definition splitOn (cls : unit16 -> bool) (s : jsstring) : list jsstring :=
  splitRuns cls false s.

(** [Boolean(s)] for a string: non-empty. *)
Definition truthy (s : jsstring) : bool :=
  match s with [] => false | _ => true end.

(** [s.split(ch)[0]] for a one-character separator: the text before its
    first occurrence, the whole string when there is none. *)
Definition beforeFirst (ch : unit16) (s : jsstring) : jsstring :=
  takeWhile (fun c => negb (c =? ch)) s.

Fixpoint isPrefix (p s : jsstring) : bool :=
  match p, s with
  | [], _ => true
  | _ :: _, [] => false
  | a :: p', b :: s' => (a =? b) && isPrefix p' s'
  end.

(** [s.includes(sub)] on strings. *)
Fixpoint includes (s sub : jsstring) : bool :=
  isPrefix sub s ||
  match s with
  | [] => false
  | _ :: s' => includes s' sub
  end.

(** [arr.includes(x)] on an array of strings. *)
Definition arrIncludes (arr : list jsstring) (x : jsstring) : bool :=
  existsb (eqStr x) arr.

(** [s.toLowerCase()].  Besides [A-Z], exactly two code points lower-case
    into ASCII: U+0130 (to [i] followed by U+0307) and U+212A, the Kelvin
    sign (to [k]).  Every other code unit is mapped by Unicode to code
    units that are neither ASCII nor white space; they are left in place
    here, and the cleaning regular expressions delete them either way. *)
Definition lowerUnit (c : unit16) : jsstring :=
  if inRange 65 90 c then [c + 32]
  else if c =? 304 then [105; 775]
  else if c =? 8490 then [107]
  else [c].

Definition toLowerCase (s : jsstring) : jsstring := flat_map lowerUnit s.

(** ** [path.basename] (POSIX flavour of Node's [path] module): trailing
    slashes are dropped, then the text after the last slash is kept. *)
Definition isSlash (c : unit16) : bool := c =? 47.

Definition basename (p : jsstring) : jsstring :=
  rev (takeWhile (fun c => negb (isSlash c)) (dropWhile isSlash (rev p))).

(** ** [decodeURIComponent]: ECMAScript's Decode with an empty set of
    preserved escapes.  [None] stands for the URIError it throws. *)

Definition hexDigit (c : unit16) : option N :=
  if inRange 48 57 c then Some (c - 48)
  else if inRange 65 70 c then Some (c - 55)
  else if inRange 97 102 c then Some (c - 87)
  else None.

(** Reads one escape [%XX] at the head of [s]. *)
Definition readOctet (s : jsstring) : option (N * jsstring) :=
  match s with
  | 37 :: h :: l :: rest =>
      match hexDigit h, hexDigit l with
      | Some a, Some b => Some (16 * a + b, rest)
      | _, _ => None
      end
  | _ => None
  end.

(** Reads [n] further escapes. *)
Fixpoint readOctets (n : nat) (s : jsstring) : option (list N * jsstring) :=
  match n with
  | O => Some ([], s)
  | S n' =>
      match readOctet s with
      | Some (b, rest) =>
          match readOctets n' rest with
          | Some (bs, rest') => Some (b :: bs, rest')
          | None => None
          end
      | None => None
      end
  end.

Definition isCont (b : N) : bool := inRange 128 191 b.

(** The code point of a well-formed UTF-8 sequence whose first octet is
    [b0] (at least 128) and whose other octets are [bs]. *)
Definition utf8CodePoint (b0 : N) (bs : list N) : option N :=
  match bs with
  | [b1] =>
      if inRange 194 223 b0 && isCont b1
      then Some ((b0 - 192) * 64 + (b1 - 128))
      else None
  | [b1; b2] =>
      if inRange 224 239 b0 && isCont b1 && isCont b2 then
        let cp := (b0 - 224) * 4096 + (b1 - 128) * 64 + (b2 - 128) in
        if (2048 <=? cp) && negb (inRange 55296 57343 cp) then Some cp else None
      else None
  | [b1; b2; b3] =>
      if inRange 240 247 b0 && isCont b1 && isCont b2 && isCont b3 then
        let cp := (b0 - 240) * 262144 + (b1 - 128) * 4096
                  + (b2 - 128) * 64 + (b3 - 128) in
        if inRange 65536 1114111 cp then Some cp else None
      else None
  | _ => None
  end.

(** Number of octets announced by the first octet of a sequence. *)
Definition utf8Length (b0 : N) : option nat :=
  if inRange 192 223 b0 then Some 2%nat
  else if inRange 224 239 b0 then Some 3%nat
  else if inRange 240 247 b0 then Some 4%nat
  else None.

Definition utf16Encode (cp : N) : jsstring :=
  if cp <? 65536 then [cp]
  else [55296 + (cp - 65536) / 1024; 56320 + (cp - 65536) mod 1024].

Fixpoint decodeLoop (fuel : nat) (s : jsstring) : option jsstring :=
  match s with
  | [] => Some []
  | c :: s' =>
      match fuel with
      | O => None
      | S fuel' =>
          if c =? 37 then
            match readOctet s with
            | None => None
            | Some (b0, rest) =>
                if b0 <? 128 then option_map (cons b0) (decodeLoop fuel' rest)
                else
                  match utf8Length b0 with
                  | None => None
                  | Some n =>
                      match readOctets (pred n) rest with
                      | None => None
                      | Some (bs, rest') =>
                          match utf8CodePoint b0 bs with
                          | None => None
                          | Some cp =>
                              option_map (app (utf16Encode cp))
                                         (decodeLoop fuel' rest')
                          end
                      end
                  end
            end
          else option_map (cons c) (decodeLoop fuel' s')
      end
  end.

(** Every step consumes a character, so the length of the string is fuel
    enough. *)
Definition decodeURIComponent (s : jsstring) : option jsstring :=
  decodeLoop (List.length s) s.

End JsString.

(* ================================================================== *)
(** * JavaScript numbers *)
(* ================================================================== *)

Module JsNumber.

Local Open Scope float_scope.

(** The float of an integer of magnitude below [2^53] (exact there). *)
Definition ofZ (n : Z) : float :=
  if (n <? 0)%Z then - of_uint63 (Uint63.of_Z (- n))
  else of_uint63 (Uint63.of_Z n).

(** [floor (v + 1/2)] for [v = (-1)^s * m * 2^e] with [e < 0], computed on
    integers. *)
Definition roundHalfUp (s : bool) (m : positive) (e : Z) : Z :=
  let k := (- e)%Z in
  let num := (if s then Z.neg m else Z.pos m) in
  ((2 * num + 2 ^ k) / 2 ^ (k + 1))%Z.

(** [Math.round]: the integer nearest to [x], ties towards +infinity;
    zeros, infinities, NaN and integral values are returned unchanged, and
    a negative argument that rounds to zero gives -0. *)
Definition mathRound (x : float) : float :=
  match Prim2SF x with
  | S754_finite s m e =>
      if (0 <=? e)%Z then x
      else
        let n := roundHalfUp s m e in
        if (n =? 0)%Z then (if s then neg_zero else zero) else ofZ n
  | _ => x
  end.

(** [Math.min] of two numbers: NaN when either is NaN, and -0 below +0. *)
Definition mathMin (a b : float) : float :=
  if is_nan a || is_nan b then nan
  else if a <? b then a
  else if b <? a then b
  else if is_zero a && get_sign a then a
  else b.

End JsNumber.

(* ================================================================== *)
(** * The model service *)
(* ================================================================== *)

Module ModelService.

Import JsString JsNumber.
Local Open Scope string_scope.
Local Open Scope list_scope.

(** The keys of the configuration tables: the five string literals that
    [diseaseClasses], [diseaseInfo], [keywords] and [priority] use. *)
Inductive Disease := AloeRust | Healthy | Anthracnose | LeafSpot | Sunburn.

Definition diseaseName (d : Disease) : jsstring :=
  match d with
  | AloeRust => lit "Aloe Rust"
  | Healthy => lit "Healthy"
  | Anthracnose => lit "Anthracnose"
  | LeafSpot => lit "Leaf Spot"
  | Sunburn => lit "Sunburn"
  end.

Definition Disease_eq_dec (a b : Disease) : {a = b} + {a <> b}.
Proof. decide equality. Defined.

Definition eqDisease (a b : Disease) : bool :=
  if Disease_eq_dec a b then true else false.

Inductive Severity := low | moderate | high.

Module Info.
Record t := mk {
  description : string;
  treatment : string;
  severity : option Severity   (* [None] is [null] *)
}.
End Info.

Definition diseaseClasses : list Disease :=
  [AloeRust; Healthy; Anthracnose; LeafSpot; Sunburn].

Definition diseaseInfo (d : Disease) : Info.t :=
  match d with
  | Healthy => Info.mk
      "Your Aloe Vera plant appears healthy with no visible signs of disease."
      "Continue your current care routine. Maintain proper watering and lighting."
      None
  | LeafSpot => Info.mk
      "Fungal infection causing circular brown or black spots on leaves."
      "Remove affected leaves, improve air circulation, apply fungicide, reduce watering frequency."
      (Some moderate)
  | AloeRust => Info.mk
      "Fungal disease causing orange-brown pustules on leaf surfaces."
      "Remove infected parts, ensure good ventilation, apply copper-based fungicide."
      (Some high)
  | Anthracnose => Info.mk
      "Fungal disease causing dark, sunken lesions on leaves and stems."
      "Prune affected areas, improve drainage, apply systemic fungicide treatment."
      (Some high)
  | Sunburn => Info.mk
      "Damage from excessive direct sunlight causing brown or white patches."
      "Move to partial shade, gradually reintroduce to sunlight, remove damaged parts."
      (Some low)
  end.

Record KeywordSet := mkKeywords {
  strong : list jsstring;
  weak : list jsstring
}.

Definition keywords (d : Disease) : KeywordSet :=
  match d with
  | AloeRust => mkKeywords
      (map lit ["rust"; "aloerust"; "pustule"; "pustules"; "uredinia"; "rusty"])
      (map lit ["orange"; "brownpustule"; "orange-pustule"])
  | Anthracnose => mkKeywords
      (map lit ["anthracnose"; "colletotrichum"; "sunken-lesion";
                "sunkenlesion"; "sunken"; "lesion"])
      (map lit ["darklesion"; "blacklesion"; "blackspot"])
  | LeafSpot => mkKeywords
      (map lit ["leafspot"; "leaf-spot"; "leaf_spot"; "leaf spot"; "spot"; "spots"])
      (map lit ["speckle"; "speckles"; "freckle"; "freckles"])
  | Sunburn => mkKeywords
      (map lit ["sunburn"; "sunscald"; "sun-scald"; "scorch"; "scorched"; "sun scald"])
      (map lit ["heatdamage"; "heat-damage"; "scald"])
  | Healthy => mkKeywords
      (map lit ["healthy"; "normal"; "control"])
      (map lit ["green"; "ok"; "good"])
  end.

Definition priority : list Disease :=
  [AloeRust; Anthracnose; LeafSpot; Sunburn; Healthy].

(** ** [normalizeName] *)

Record NormalizedName := mkName {
  base : jsstring;
  normalized : jsstring;
  compact : jsstring;
  tokens : list jsstring
}.

(** The chain [.toLowerCase().replace(/[_\-\.]+/g, ' ')
    .replace(/[^a-z0-9\s]+/g, '').trim()] applied to [base]. *)
Definition cleanName (s : jsstring) : jsstring :=
  trim (replaceAll notAlnumSpace []
          (replaceAll isSep (lit " ") (toLowerCase s))).

(** [normalized.replace(/\s+/g, '')] *)
Definition compactOf (normalized : jsstring) : jsstring :=
  replaceAll isSpace [] normalized.

(** [normalized.split(/\s+/).filter(Boolean)] *)
Definition tokensOf (normalized : jsstring) : list jsstring :=
  filter truthy (splitOn isSpace normalized).

(** The argument is [None] for [null] or [undefined], which the guard
    [!raw] catches together with the empty string.  Neither [split] nor
    [path.basename] throws on a string, so the first [catch] is dead; the
    second keeps [base] when [decodeURIComponent] throws. *)
Definition normalizeName (raw : option jsstring) : NormalizedName :=
  match raw with
  | None | Some [] => mkName [] [] [] []
  | Some raw =>
      let base := basename (beforeFirst 35%N (beforeFirst 63%N raw)) in
      let base := match decodeURIComponent base with
                  | Some b => b
                  | None => base
                  end in
      let normalized := cleanName base in
      let compact := compactOf normalized in
      let tokens := tokensOf normalized in
      mkName base normalized compact tokens
  end.

(** ** [debugAnalyze] *)

Record DebugMatch := mkMatch {
  strongMatches : list jsstring;
  weakMatches : list jsstring;
  score : float
}.

Definition STRONG_WEIGHT : float := 1.0%float.
Definition WEAK_WEIGHT : float := 0.4%float.

(** [kw.toLowerCase().replace(/[^a-z0-9]+/g, '')], the local constant
    [kwNorm] of [check]. *)
Definition kwNorm (kw : jsstring) : jsstring :=
  replaceAll notAlnum [] (toLowerCase kw).

(** [kw.toLowerCase().replace(/[^a-z0-9\s]+/g, '').trim()], the argument
    of [tokens.includes]. *)
Definition kwToken (kw : jsstring) : jsstring :=
  trim (replaceAll notAlnumSpace [] (toLowerCase kw)).

(** The closure [check] of the loop body; [tokens] and [compact] are the
    variables it captures. *)
Definition check (tokens : list jsstring) (compact : jsstring)
    (kw : jsstring) : bool :=
  if negb (truthy (kwNorm kw)) then false
  else if arrIncludes tokens (kwToken kw) then true
  else if includes compact (kwNorm kw) then true
  else false.

(** [for (const k of kws) if (check(k)) { matches.push(k); score += weight; }]
    as a fold over the state [(matches, score)]. *)
Definition scan (chk : jsstring -> bool) (weight : float)
    (kws : list jsstring) (st : list jsstring * float)
    : list jsstring * float :=
  fold_left
    (fun st k =>
       if chk k then (fst st ++ [k], (snd st + weight)%float) else st)
    kws st.

(** One iteration of [for (const disease of this.diseaseClasses)]. *)
Definition analyzeDisease (n : NormalizedName) (d : Disease) : DebugMatch :=
  let kws := keywords d in
  let chk := check (tokens n) (compact n) in
  let st1 := scan chk STRONG_WEIGHT (strong kws) ([], 0%float) in
  let st2 := scan chk WEAK_WEIGHT (weak kws) ([], snd st1) in
  mkMatch (fst st1) (fst st2) (snd st2).

(** The [candidates] object: its keys in insertion order, which is the
    order [Object.entries] lists them in. *)
Definition Candidates := list (Disease * DebugMatch).

Fixpoint lookup (c : Candidates) (d : Disease) : option DebugMatch :=
  match c with
  | [] => None
  | (d', m) :: c' => if eqDisease d' d then Some m else lookup c' d
  end.

Module Cand.
Record t := mk { disease : Disease; score : float }.
End Cand.

(** [arr.sort(cmp)]: the sort is stable, and with a consistent comparator
    every stable sort returns the same array; insertion puts an element
    after those that [cmp] orders strictly before it. *)
Fixpoint insertBy (A : Type) (cmp : A -> A -> float) (x : A) (l : list A)
    : list A :=
  match l with
  | [] => [x]
  | y :: l' => if (0 <? cmp x y)%float then y :: insertBy cmp x l' else x :: l
  end.

Definition sortBy (A : Type) (cmp : A -> A -> float) (l : list A) : list A :=
  fold_right (insertBy cmp) [] l.

Definition diseaseCandidatesOf (c : Candidates) : list Cand.t :=
  map (fun dm => Cand.mk (fst dm) (score (snd dm)))
    (filter (fun dm => negb (eqDisease (fst dm) Healthy)
                       && (0 <? List.length (strongMatches (snd dm)))%nat) c).

(** The selection between [let chosen] and [if (!chosen)].  [None] is
    [undefined]: the loop over [priority] found nothing (the sorted array
    is never empty in the second branch, so its first element exists). *)
Definition choose (diseaseCandidates : list Cand.t) : option Disease :=
  match diseaseCandidates with
  | [] => Some Healthy
  | _ =>
      let sorted :=
        sortBy (fun a b => (Cand.score b - Cand.score a)%float)
               diseaseCandidates in
      match sorted with
      | [] => None
      | top :: _ =>
          let topScore := Cand.score top in
          let topDiseases :=
            map Cand.disease
                (filter (fun d => (Cand.score d =? topScore)%float) sorted) in
          find (fun p => existsb (eqDisease p) topDiseases) priority
      end
  end.

Record DebugResult := mkDebug {
  filename : jsstring;
  candidates : Candidates;
  chosen : Disease;
  topScore : float
}.

Definition scoreIn (c : Candidates) (d : Disease) : float :=
  match lookup c d with
  | Some m => score m
  | None => 0%float
  end.

Definition debugAnalyze (imageName : option jsstring) : DebugResult :=
  let n := normalizeName imageName in
  let candidates := map (fun d => (d, analyzeDisease n d)) diseaseClasses in
  let diseaseCandidates := diseaseCandidatesOf candidates in
  let chosen := match choose diseaseCandidates with
                | Some d => d
                | None => Healthy
                end in
  mkDebug (base n) candidates chosen (scoreIn candidates chosen).

(** ** [scoreToConfidence] *)

Definition scoreToConfidence (score : float) : float :=
  let MAX := 3.0%float in
  let normalized := mathMin (score / MAX) 1 in
  let confidence := (0.55 + normalized * (0.98 - 0.55))%float in
  (mathRound (confidence * 100) / 100)%float.

(** ** [predictFromImageName] *)

Record ModelPrediction := mkPrediction {
  diagnosis : Disease;
  confidence : float;
  severity : option Severity;
  isHealthy : bool;
  description : string;
  treatment : string
}.

(** The table [diseaseInfo] has an entry for each key, so the fall-back
    [?? this.diseaseInfo['Healthy']] is never taken. *)
Definition predictFromImageName (imageName : option jsstring)
    : ModelPrediction :=
  let debug := debugAnalyze imageName in
  let chosen := chosen debug in
  let diseaseData := diseaseInfo chosen in
  let chosenScore := scoreIn (candidates debug) chosen in
  let confidence := scoreToConfidence chosenScore in
  mkPrediction chosen confidence (Info.severity diseaseData)
    (eqDisease chosen Healthy)
    (Info.description diseaseData) (Info.treatment diseaseData).

(** [classify] of the specification, on a string given by a literal or by
    its code units. *)
Definition classify (rawFilename : jsstring) : ModelPrediction :=
  predictFromImageName (Some rawFilename).

End ModelService.

(* ================================================================== *)
(** * Notions used in the statements *)
(* ================================================================== *)

Module Notions.

Import JsString JsNumber ModelService.

(** [acc += weight], [k] times. *)
Fixpoint addTimes (k : nat) (weight acc : float) : float :=
  match k with
  | O => acc
  | S k' => addTimes k' weight (acc + weight)%float
  end.

(** The score the loops of [debugAnalyze] reach with [s] strong matches
    followed by [w] weak ones. *)
Definition scoreOf (s w : nat) : float :=
  addTimes w WEAK_WEIGHT (addTimes s STRONG_WEIGHT 0%float).

(** No keyword list is longer than six strong and four weak keywords. *)
Definition grid : list (nat * nat) := list_prod (seq 0 7) (seq 0 5).

Definition scoreAt (p : nat * nat) : float := scoreOf (fst p) (snd p).

(** The exact score, in fifths. *)
Definition fifths (p : nat * nat) : nat := 5 * fst p + 2 * snd p.

(** A score that [debugAnalyze] can compute. *)
Definition reachable (x : float) : Prop :=
  exists p, In p grid /\ x = scoreAt p.

(** Agreement of the float comparisons on two scores of the grid with
    the comparisons of their exact values. *)
Definition orderOk (p q : nat * nat) : bool :=
  Bool.eqb (0 <? scoreAt q - scoreAt p)%float (fifths p <? fifths q)%nat
  && Bool.eqb (scoreAt p =? scoreAt q)%float (fifths p =? fifths q)%nat
  && Bool.eqb (scoreAt p <=? scoreAt q)%float (fifths p <=? fifths q)%nat.

(** [x] is a score of the grid whose exact value is [i] fifths. *)
Definition ranked (x : float) (i : nat) : Prop :=
  exists p, In p grid /\ x = scoreAt p /\ i = fifths p.

(** The head of [l] dominates [l]. *)
Definition headMax (A : Type) (le : A -> A -> Prop) (l : list A) : Prop :=
  match l with
  | [] => True
  | t :: _ => forall x, In x l -> le x t
  end.

(** [a]'s score is at most [b]'s. *)
Definition leScore (a b : Cand.t) : Prop :=
  (Cand.score a <=? Cand.score b)%float = true.

Definition reachCand (a : Cand.t) : Prop := reachable (Cand.score a).

(** The comparator given to [sort]. *)
Definition byScoreDesc (a b : Cand.t) : float :=
  (Cand.score b - Cand.score a)%float.

(** The check as the specification's refinement reads it: the keyword's
    compact form is not empty and occurs in the compact string. *)
Definition checkCompact (compact kw : jsstring) : bool :=
  truthy (kwNorm kw) && includes compact (kwNorm kw).

(** The keywords configured for a category. *)
Definition configured (d : Disease) : list jsstring :=
  strong (keywords d) ++ weak (keywords d).

(** The integer a float with an integral value stands for. *)
Definition toZ (x : float) : Z :=
  match Prim2SF x with
  | S754_finite s m e =>
      let v := Z.shiftl (Z.pos m) e in if s then (- v)%Z else v
  | _ => 0%Z
  end.

(** The whole number of hundredths [scoreToConfidence] rounds to. *)
Definition hundredths (score : float) : Z :=
  toZ (mathRound ((0.55 + mathMin (score / 3) 1 * (0.98 - 0.55)) * 100)%float).

(** The base name read the other way round, as the specification words
    it: the last path segment first, query and fragment cut from it
    afterwards. *)
Definition segmentThenStrip (raw : jsstring) : jsstring :=
  beforeFirst 35%N (beforeFirst 63%N (basename raw)).

(** A character of a file name that is none of [/ ? # %]. *)
Definition plainChar (c : unit16) : bool :=
  negb (c =? 47)%N && negb (c =? 63)%N && negb (c =? 35)%N && negb (c =? 37)%N.

(** A character other than [?] and [#]. *)
Definition noQueryChar (c : unit16) : bool :=
  negb (c =? 63)%N && negb (c =? 35)%N.

(** A query string or fragment, or nothing. *)
Definition isSuffix (tail : jsstring) : Prop :=
  match tail with
  | [] => True
  | c :: _ => c = 63%N \/ c = 35%N
  end.

(** An absent, empty or white-space-only file name. *)
Definition blank (raw : option jsstring) : Prop :=
  match raw with
  | None => True
  | Some s => forallb isSpace s = true
  end.

(** Position of the first occurrence of [d] in [l]. *)
Fixpoint indexOf (d : Disease) (l : list Disease) : nat :=
  match l with
  | [] => O
  | d' :: l' => if eqDisease d' d then O else S (indexOf d l')
  end.

(** The match record of a category for an input. *)
Definition matchOf (raw : option jsstring) (d : Disease) : DebugMatch :=
  analyzeDisease (normalizeName raw) d.

(** Eligibility of a category as the comment in [debugAnalyze] words it:
    a disease with at least one strong match. *)
Definition eligible (raw : option jsstring) (d : Disease) : Prop :=
  d <> Healthy /\ strongMatches (matchOf raw d) <> [].

End Notions.

(* ================================================================== *)
(** * Binary64 rounding, for the properties of [scoreToConfidence] *)
(* ================================================================== *)

(** The arithmetic of the primitive floats is specified by the functions
    of [SpecFloat] ([SFdiv], [SFmul], [SFadd], all built on
    [binary_round_aux]).  The notions below describe what those functions
    compute on non-negative values, with integers only. *)

Module Binary64.

Import JsNumber.
Unset Implicit Arguments.
Local Open Scope Z_scope.

(** An exact non-negative value is written [p/q * 2^e].  Its key at that
    exponent is twice the integer part of [2p/q], plus one when [2p/q] is
    not an integer: the integer part of [p/q] followed by the round bit
    and the sticky bit. *)
Definition key (p q : Z) : Z :=
  2 * ((2 * p) / q) + (if (2 * p) mod q =? 0 then 0 else 1).

(** The key a record of [shr] stands for. *)
Definition recKey (r : shr_record) : Z :=
  4 * shr_m r + 2 * Z.b2z (shr_r r) + Z.b2z (shr_s r).

(** What one step [shr_1] does to a key. *)
Definition stickyHalf (K : Z) : Z :=
  2 * (K / 4) + (if K mod 4 =? 0 then 0 else 1).

(** [round_nearest_even] as a function of the key. *)
Definition rne (K : Z) : Z :=
  let m := K / 4 in
  let c := K mod 4 in
  if c <=? 1 then m
  else if c =? 2 then (if Z.even m then m else m + 1)
  else m + 1.

Definition fexp64 (e : Z) : Z := SpecFloat.fexp prec emax e.

(** The result of [binary_round_aux] from the rounded mantissa [M] and
    the exponent [E] reached by the first shift. *)
Definition finish (M E : Z) : spec_float :=
  if M =? 0 then S754_zero false
  else if M =? 2 ^ 53 then
    (if E + 1 <=? 971 then S754_finite false 4503599627370496%positive (E + 1)
     else S754_infinity false)
  else if E <=? 971 then S754_finite false (Z.to_pos M) E
  else S754_infinity false.

(** [p1/q1 * 2^e1 <= p2/q2 * 2^e2], for positive [q1] and [q2]. *)
Definition vle (p1 q1 e1 p2 q2 e2 : Z) : Prop :=
  p1 * q2 * 2 ^ (e1 - Z.min e1 e2) <= p2 * q1 * 2 ^ (e2 - Z.min e1 e2).

(** Zeros, positive finite numbers and +infinity. *)
Definition nonneg (x : spec_float) : Prop :=
  match x with
  | S754_zero _ => True
  | S754_finite false _ _ => True
  | S754_infinity false => True
  | _ => False
  end.

(** A bound above every finite value scaled by [2^1074]. *)
Definition top : Z := 2 ^ 2098.

(** The value of a non-negative number scaled by [2^1074], an integer;
    +infinity is sent above all of them. *)
Definition sval (x : spec_float) : Z :=
  match x with
  | S754_zero _ => 0
  | S754_finite _ m e => Z.pos m * 2 ^ (e + 1074)
  | S754_infinity _ => top
  | S754_nan => -1
  end.

Definition valid (x : spec_float) : Prop :=
  SpecFloat.valid_binary prec emax x = true.

(** The number 3, the constant [MAX]. *)
Definition m3 : Z := 6755399441055744.
Definition c3 : spec_float := S754_finite false 6755399441055744 (-51).

(** The rounding of the integer [p] times [2^e]. *)
Definition roundExact (p : positive) (e : Z) : spec_float :=
  binary_round_aux prec emax false (Z.pos p) e loc_Exact.

(** The exponent [e] is not above the one [p * 2^e] is rounded at. *)
Definition fits (p : positive) (e : Z) : Prop :=
  0 <= fexp64 (Zdigits2 (Z.pos p) + e) - e.

(** [x * c], [k + b] and [x / 3] on specifications. *)
Definition mulc (mc : positive) (ec : Z) (x : spec_float) : spec_float :=
  SFmul prec emax x (S754_finite false mc ec).

Definition addc (mk : positive) (ek : Z) (b : spec_float) : spec_float :=
  SFadd prec emax (S754_finite false mk ek) b.

Definition div3 (x : spec_float) : spec_float := SFdiv prec emax x c3.

(** The same notions on primitive floats. *)
Definition scaled (x : float) : Z := sval (Prim2SF x).
Definition nonNeg (x : float) : Prop := nonneg (Prim2SF x).

(** The constants of [scoreToConfidence]. *)
Definition c43 : float := Eval vm_compute in (0.98 - 0.55)%float.

Definition mant (x : spec_float) : positive :=
  match x with S754_finite _ m _ => m | _ => 1%positive end.
Definition expo (x : spec_float) : Z :=
  match x with S754_finite _ _ e => e | _ => 0 end.

Definition m43 : positive := Eval vm_compute in mant (Prim2SF c43).
Definition e43 : Z := Eval vm_compute in expo (Prim2SF c43).
Definition m055 : positive := Eval vm_compute in mant (Prim2SF 0.55).
Definition e055 : Z := Eval vm_compute in expo (Prim2SF 0.55).
Definition m100 : positive := Eval vm_compute in mant (Prim2SF 100).
Definition e100 : Z := Eval vm_compute in expo (Prim2SF 100).

(** The argument of [Math.round] as a function of the clamped ratio
    [Math.min(score / MAX, 1)]. *)
Definition hOf (t : float) : float := ((0.55 + t * c43) * 100)%float.

(** Its values at the ends of the range of the ratio. *)
Definition hLow : float := Eval vm_compute in hOf 0.
Definition hHigh : float := Eval vm_compute in hOf 1.

(** [floor (v / 2^1074 + 1/2)]: [Math.round] on a scaled value. *)
Definition nearestInt (v : Z) : Z := (2 * v + 2 ^ 1074) / 2 ^ 1075.

(** The integers [Math.round] can return, and the check that dividing
    them by 100 keeps their order. *)
Definition hundredthRange : list Z := map Z.of_nat (seq 55 44).

Definition quotients_sorted : bool :=
  forallb (fun a =>
    forallb (fun b => implb (a <=? b) (ofZ a / 100 <=? ofZ b / 100)%float)
            hundredthRange) hundredthRange.

End Binary64.

Set Implicit Arguments.

(* ================================================================== *)
(** * [Math.random] *)
(* ================================================================== *)

Module JsRandom.

(** The values that the successive calls of [Math.random()] return. *)
Definition source := nat -> float.

(** A computation that calls [Math.random()]: given the values and the
    number of calls made so far, it returns its result and the number of
    calls made when it ends. *)
Definition M (A : Type) : Type := source -> nat -> A * nat.

Definition ret (A : Type) (a : A) : M A := fun _ k => (a, k).

Definition bind (A B : Type) (c : M A) (f : A -> M B) : M B :=
  fun rnd k => let (a, k') := c rnd k in f a rnd k'.

(** [Math.random()] *)
Definition mathRandom : M float := fun rnd k => (rnd k, S k).

(** The result of a computation started after [k] calls. *)
Definition run (A : Type) (c : M A) (rnd : source) (k : nat) : A :=
  fst (c rnd k).

End JsRandom.

Declare Scope random_scope.
Delimit Scope random_scope with random.
Notation "x <- c ;; f" := (JsRandom.bind c (fun x => f))
  (at level 61, c at next level, right associativity) : random_scope.

(* ================================================================== *)
(** * The client's model service: the fall-back on the file name *)
(* ================================================================== *)

(** [fallbackPrediction] of [src/client/src/services/modelService.ts]
    (class [AloeModelService]), with the tables it reads.  The words it
    looks for are ASCII, and [toLowerCase] above is exact on what
    lower-cases into ASCII, so [lowerName.includes(word)] is computed
    exactly. *)

Module AloeModelService.

Import JsString JsNumber JsRandom.
Local Open Scope string_scope.
Local Open Scope list_scope.
Local Open Scope random_scope.

Inductive Class := Healthy | LeafSpotDisease | AloeRust | Anthracnose | Sunburn.

Definition className (c : Class) : jsstring :=
  match c with
  | Healthy => lit "Healthy"
  | LeafSpotDisease => lit "Leaf Spot Disease"
  | AloeRust => lit "Aloe Rust"
  | Anthracnose => lit "Anthracnose"
  | Sunburn => lit "Sunburn"
  end.

Definition Class_eq_dec (a b : Class) : {a = b} + {a <> b}.
Proof. decide equality. Defined.

Definition eqClass (a b : Class) : bool :=
  if Class_eq_dec a b then true else false.

Definition diseaseClasses : list Class :=
  [Healthy; LeafSpotDisease; AloeRust; Anthracnose; Sunburn].

Definition diseaseInfo (c : Class) : ModelService.Info.t :=
  match c with
  | Healthy => ModelService.Info.mk
      "Your Aloe Vera plant appears healthy with no visible signs of disease."
      "Continue your current care routine. Maintain proper watering and lighting."
      None
  | LeafSpotDisease => ModelService.Info.mk
      "Fungal infection causing circular brown or black spots on leaves."
      "Remove affected leaves, improve air circulation, apply fungicide, reduce watering frequency."
      (Some ModelService.moderate)
  | AloeRust => ModelService.Info.mk
      "Fungal disease causing orange-brown pustules on leaf surfaces."
      "Remove infected parts, ensure good ventilation, apply copper-based fungicide."
      (Some ModelService.high)
  | Anthracnose => ModelService.Info.mk
      "Fungal disease causing dark, sunken lesions on leaves and stems."
      "Prune affected areas, improve drainage, apply systemic fungicide treatment."
      (Some ModelService.high)
  | Sunburn => ModelService.Info.mk
      "Damage from excessive direct sunlight causing brown or white patches."
      "Move to partial shade, gradually reintroduce to sunlight, remove damaged parts."
      (Some ModelService.low)
  end.

Record PredictionResult := mkResult {
  disease : Class;
  confidence : float;
  severity : option ModelService.Severity;
  isHealthy : bool;
  description : string;
  treatment : string
}.

(** The two variables that the branches assign, [predictedClass] and
    [confidence], are carried as a pair. *)
Definition fallbackPrediction (filename : jsstring) : M PredictionResult :=
  let lowerName := toLowerCase filename in
  r <- mathRandom ;;
  let predictedClass := Healthy in
  let confidence := (0.75 + r * 0.24)%float in
  pc <- (if includes lowerName (lit "rust") then
           r <- mathRandom ;; ret (AloeRust, (0.85 + r * 0.14)%float)
         else if includes lowerName (lit "spot")
                 || includes lowerName (lit "leaf") then
           r <- mathRandom ;; ret (LeafSpotDisease, (0.80 + r * 0.19)%float)
         else if includes lowerName (lit "anthracnose") then
           r <- mathRandom ;; ret (Anthracnose, (0.82 + r * 0.17)%float)
         else if includes lowerName (lit "sunburn")
                 || includes lowerName (lit "burn") then
           r <- mathRandom ;; ret (Sunburn, (0.78 + r * 0.21)%float)
         else ret (predictedClass, confidence)) ;;
  let predictedClass := fst pc in
  let confidence := snd pc in
  let diseaseData := diseaseInfo predictedClass in
  ret (mkResult predictedClass
         (mathRound (confidence * 100) / 100)%float
         (ModelService.Info.severity diseaseData)
         (eqClass predictedClass Healthy)
         (ModelService.Info.description diseaseData)
         (ModelService.Info.treatment diseaseData)).

End AloeModelService.

(* ================================================================== *)
(** * The earlier version of the server's service *)
(* ================================================================== *)

(** [predictFromImageName] of [src/unnamed/part_000] (class
    [ServerModelService] as it was before the keyword tables), with the
    tables it reads.  The promise it awaits before returning only delays
    the result; the delay is drawn with one more call of
    [Math.random()]. *)

Module EarlierService.

Import JsString JsNumber JsRandom.
Local Open Scope string_scope.
Local Open Scope list_scope.
Local Open Scope random_scope.

Inductive Class := Healthy | LeafSpotDisease | AloeRust | Anthracnose | Sunburn.

Definition className (c : Class) : jsstring :=
  match c with
  | Healthy => lit "Healthy"
  | LeafSpotDisease => lit "Leaf Spot Disease"
  | AloeRust => lit "Aloe Rust"
  | Anthracnose => lit "Anthracnose"
  | Sunburn => lit "Sunburn"
  end.

Definition Class_eq_dec (a b : Class) : {a = b} + {a <> b}.
Proof. decide equality. Defined.

Definition eqClass (a b : Class) : bool :=
  if Class_eq_dec a b then true else false.

Definition diseaseClasses : list Class :=
  [Healthy; LeafSpotDisease; AloeRust; Anthracnose; Sunburn].

Definition diseaseInfo (c : Class) : ModelService.Info.t :=
  match c with
  | Healthy => ModelService.Info.mk
      "Your Aloe Vera plant appears healthy with no visible signs of disease."
      "Continue your current care routine. Maintain proper watering and lighting."
      None
  | LeafSpotDisease => ModelService.Info.mk
      "Fungal infection causing circular brown or black spots on leaves."
      "Remove affected leaves, improve air circulation, apply fungicide, reduce watering frequency."
      (Some ModelService.moderate)
  | AloeRust => ModelService.Info.mk
      "Fungal disease causing orange-brown pustules on leaf surfaces."
      "Remove infected parts, ensure good ventilation, apply copper-based fungicide."
      (Some ModelService.high)
  | Anthracnose => ModelService.Info.mk
      "Fungal disease causing dark, sunken lesions on leaves and stems."
      "Prune affected areas, improve drainage, apply systemic fungicide treatment."
      (Some ModelService.high)
  | Sunburn => ModelService.Info.mk
      "Damage from excessive direct sunlight causing brown or white patches."
      "Move to partial shade, gradually reintroduce to sunlight, remove damaged parts."
      (Some ModelService.low)
  end.

Record ModelPrediction := mkPrediction {
  diagnosis : Class;
  confidence : float;
  severity : option ModelService.Severity;
  isHealthy : bool;
  description : string;
  treatment : string
}.

Definition predictFromImageName (imageName : jsstring) : M ModelPrediction :=
  let lowerName := toLowerCase imageName in
  r <- mathRandom ;;
  let predictedClass := Healthy in
  let confidence := (0.75 + r * 0.20)%float in
  pc <- (if includes lowerName (lit "rust") || includes lowerName (lit "orange")
            || includes lowerName (lit "pustule") then
           r <- mathRandom ;; ret (AloeRust, (0.85 + r * 0.14)%float)
         else if includes lowerName (lit "spot") || includes lowerName (lit "leaf")
                 || includes lowerName (lit "brown") then
           r <- mathRandom ;; ret (LeafSpotDisease, (0.80 + r * 0.19)%float)
         else if includes lowerName (lit "anthracnose")
                 || includes lowerName (lit "lesion")
                 || includes lowerName (lit "sunken") then
           r <- mathRandom ;; ret (Anthracnose, (0.82 + r * 0.17)%float)
         else if includes lowerName (lit "sunburn") || includes lowerName (lit "burn")
                 || includes lowerName (lit "scorch") then
           r <- mathRandom ;; ret (Sunburn, (0.78 + r * 0.21)%float)
         else if includes lowerName (lit "healthy")
                 || includes lowerName (lit "normal")
                 || includes lowerName (lit "good") then
           r <- mathRandom ;; ret (Healthy, (0.88 + r * 0.11)%float)
         else ret (predictedClass, confidence)) ;;
  let predictedClass := fst pc in
  let confidence := snd pc in
  let diseaseData := diseaseInfo predictedClass in
  r <- mathRandom ;;
  let delay := (1000 + r * 2000)%float in
  ret (mkPrediction predictedClass
         (mathRound (confidence * 100) / 100)%float
         (ModelService.Info.severity diseaseData)
         (eqClass predictedClass Healthy)
         (ModelService.Info.description diseaseData)
         (ModelService.Info.treatment diseaseData)).

End EarlierService.

(* ================================================================== *)
(** * Notions used in the further properties *)
(* ================================================================== *)

Module Further.

Import JsString JsNumber ModelService Notions Binary64 JsRandom.
Local Open Scope list_scope.

(** [[a-z0-9\s]] *)
Definition isAlnumSpace (c : unit16) : bool := isAlnum c || isSpace c.

(** No white space at either end. *)
Definition trimmed (s : jsstring) : bool :=
  match s with [] => true | c :: _ => negb (isSpace c) end
  && match rev s with [] => true | c :: _ => negb (isSpace c) end.

(** The letters and digits of the lower-cased text, in order. *)
Definition lettersAndDigits (s : jsstring) : jsstring :=
  filter isAlnum (toLowerCase s).

(** A character other than [%]. *)
Definition noPercent (c : unit16) : bool := negb (c =? 37)%N.

(** Every keyword recorded for a category, strong ones first. *)
Definition allMatches (raw : option jsstring) (d : Disease) : list jsstring :=
  strongMatches (matchOf raw d) ++ weakMatches (matchOf raw d).

(** On the scores reached with at least one strong match, the score is
    at least 1 and the confidence at least 0.69. *)
Definition strongFloor : bool :=
  forallb (fun p =>
    implb (1 <=? fst p)%nat
      ((1 <=? scoreAt p)%float
       && (0.69 <=? scoreToConfidence (scoreAt p))%float)) grid.

(** On the grid, a score is zero only without matches, is at least 0.4
    otherwise, and is at least the number of strong matches. *)
Definition scoreFloor : bool :=
  forallb (fun p =>
    Bool.eqb (scoreAt p =? 0)%float ((fst p =? 0)%nat && (snd p =? 0)%nat)
    && ((scoreAt p =? 0) || (0.4 <=? scoreAt p))%float
    && (ofZ (Z.of_nat (fst p)) <=? scoreAt p)%float) grid.

(** The nearest whole number of hundredths to
    [0.55 + 0.43 * min(1, (s + 0.4 w) / 3)], computed on integers: with
    [f = 5 s + 2 w] fifths of score it is [55 + 43 * min(15, f) / 15]
    rounded, and that value is never half-way between two integers. *)
Definition exactHundredths (s w : nat) : Z :=
  ((1650 + 86 * Z.of_nat (Nat.min 15 (5 * s + 2 * w)) + 15) / 30)%Z.

(** Scores in non-increasing order. *)
Definition scoreGe (a b : Cand.t) : Prop := leScore b a.

(** The lower-cased name contains the word. *)
Definition mentions (name : jsstring) (word : string) : bool :=
  includes (toLowerCase name) (lit word).

(** Every value is in [[0, 1)], as [Math.random()] promises. *)
Definition unitValues (rnd : source) : Prop :=
  forall i, (0 <=? rnd i)%float = true /\ (rnd i <? 1)%float = true.

(** The constant that the branch of [fallbackPrediction] for a class
    starts from. *)
Definition fallbackFloor (c : AloeModelService.Class) : float :=
  match c with
  | AloeModelService.Healthy => 0.75
  | AloeModelService.AloeRust => 0.85
  | AloeModelService.LeafSpotDisease => 0.80
  | AloeModelService.Anthracnose => 0.82
  | AloeModelService.Sunburn => 0.78
  end.

(** The same for the earlier [predictFromImageName]; of the two branches
    that give Healthy, the lower one starts from 0.75. *)
Definition earlierFloor (c : EarlierService.Class) : float :=
  match c with
  | EarlierService.Healthy => 0.75
  | EarlierService.AloeRust => 0.85
  | EarlierService.LeafSpotDisease => 0.80
  | EarlierService.Anthracnose => 0.82
  | EarlierService.Sunburn => 0.78
  end.

(** [Math.round(confidence * 100) / 100] *)
Definition toHundredths (confidence : float) : float :=
  (mathRound (confidence * 100) / 100)%float.

(** [start + r * span], the confidence drawn in a branch. *)
Definition drawn (start span r : float) : float := (start + r * span)%float.

(** The integers from [lo] to [hi], and the check that dividing them by
    100 keeps them between the quotients of the two bounds. *)
Definition between (lo hi : Z) : list Z :=
  map (fun i => (lo + Z.of_nat i)%Z) (seq 0 (Z.to_nat (hi - lo + 1))).

Definition quotientsWithin (lo hi : Z) : bool :=
  forallb (fun n => ((ofZ lo / 100 <=? ofZ n / 100)
                     && (ofZ n / 100 <=? ofZ hi / 100))%float)
          (between lo hi).

(** What is computed once for a branch: its constants are positive, the
    span is a normal number, the values at the ends of the unit interval
    round to the hundredths [lo] and [hi], and nothing overflows. *)
Definition branchOk (start span : float) (lo hi : Z) : bool :=
  match Prim2SF start, Prim2SF span with
  | S754_finite false _ _, S754_finite false mc ec =>
      (2 ^ 52 <=? Z.pos mc)%Z && (-1074 <=? ec)%Z
      && (nearestInt (scaled (drawn start span 0 * 100)%float) =? lo)%Z
      && (nearestInt (scaled (drawn start span 1 * 100)%float) =? hi)%Z
      && (0 <? lo)%Z
      && (scaled (drawn start span 1 * 100)%float <? 2 ^ 52 * 2 ^ 1074)%Z
      && (scaled (1 * span)%float <? top)%Z
      && (scaled (drawn start span 1)%float <? top)%Z
      && quotientsWithin lo hi
  | _, _ => false
  end.

End Further.

(* ================================================================== *)
(** * Properties *)
(* ================================================================== *)

Import JsString JsNumber ModelService Notions.
Local Open Scope string_scope.
Local Open Scope list_scope.

(** ** Strings *)

Section StringFacts.

Local Open Scope N_scope.

Lemma eqStr_true (a b : jsstring) : eqStr a b = true <-> a = b.
Proof.
  unfold eqStr. destruct (list_eq_dec N.eq_dec a b); split; congruence.
Qed.

Lemma arrIncludes_In (arr : list jsstring) (x : jsstring) :
  arrIncludes arr x = true <-> In x arr.
Proof.
  unfold arrIncludes. rewrite existsb_exists. split.
  - intros (y & Hy & E). apply eqStr_true in E. now subst.
  - intros H. exists x. split; [exact H | now apply eqStr_true].
Qed.

(** Replacing the runs of a class by nothing deletes its characters. *)
Lemma replaceRuns_delete (cls : unit16 -> bool) (b : bool) (s : jsstring) :
  replaceRuns cls [] b s = filter (fun c => negb (cls c)) s.
Proof.
  revert b. induction s as [| c s IH]; intros b; simpl; [reflexivity |].
  destruct (cls c); simpl.
  - destruct b; simpl; apply IH.
  - f_equal. apply IH.
Qed.

Lemma replaceAll_delete (cls : unit16 -> bool) (s : jsstring) :
  replaceAll cls [] s = filter (fun c => negb (cls c)) s.
Proof. apply replaceRuns_delete. Qed.

(** The pieces of a split, put back together, are the string without the
    separating class. *)
Lemma splitRuns_concat (cls : unit16 -> bool) (b : bool) (s : jsstring) :
  List.concat (splitRuns cls b s) = filter (fun c => negb (cls c)) s.
Proof.
  revert b. induction s as [| c s IH]; intros b; simpl; [reflexivity |].
  destruct (cls c); simpl.
  - destruct b; simpl; apply IH.
  - specialize (IH false).
    destruct (splitRuns cls false s) as [| piece rest]; simpl in *.
    + now rewrite <- IH.
    + now rewrite <- IH.
Qed.

Lemma splitRuns_pieces (cls : unit16 -> bool) (b : bool) (s t : jsstring) :
  In t (splitRuns cls b s) -> forallb (fun c => negb (cls c)) t = true.
Proof.
  revert b t. induction s as [| c s IH]; intros b t; simpl.
  - intros [<- | []]. reflexivity.
  - destruct (cls c) eqn:Hc.
    + destruct b; simpl.
      * apply IH.
      * intros [<- | H]; [reflexivity | now apply IH with true].
    + specialize (IH false).
      destruct (splitRuns cls false s) as [| piece rest]; simpl.
      * intros [<- | []]. simpl. now rewrite Hc.
      * intros [<- | H].
        -- simpl. rewrite Hc. simpl. apply IH. now left.
        -- apply IH. now right.
Qed.

Lemma isPrefix_app (p s : jsstring) :
  isPrefix p s = true <-> exists post, s = p ++ post.
Proof.
  revert s. induction p as [| a p IH]; intros s; simpl.
  - split; [intros _; now exists s | reflexivity].
  - destruct s as [| b s].
    + split; [discriminate | intros (post & H); discriminate].
    + rewrite andb_true_iff, N.eqb_eq, IH. split.
      * intros (-> & post & ->). now exists post.
      * intros (post & H). injection H as -> ->. split; [reflexivity | now exists post].
Qed.

(** [includes] finds exactly the contiguous occurrences. *)
Lemma includes_app (s sub : jsstring) :
  includes s sub = true <-> exists pre post, s = pre ++ sub ++ post.
Proof.
  induction s as [| c s IH]; simpl.
  - rewrite orb_false_r, isPrefix_app. split.
    + intros (post & H). now exists [], post.
    + intros (pre & post & H). destruct pre; simpl in H.
      * now exists post.
      * discriminate.
  - rewrite orb_true_iff, isPrefix_app, IH. split.
    + intros [(post & H) | (pre & post & H)].
      * now exists [], post.
      * exists (c :: pre), post. simpl. now rewrite H.
    + intros (pre & post & H). destruct pre as [| c' pre]; simpl in H.
      * left. now exists post.
      * right. injection H as _ H. now exists pre, post.
Qed.

Lemma includes_concat (pieces : list jsstring) (t : jsstring) :
  In t pieces -> includes (List.concat pieces) t = true.
Proof.
  intros H. apply includes_app.
  apply in_split in H as (l1 & l2 & ->).
  exists (List.concat l1), (List.concat l2).
  now rewrite List.concat_app.
Qed.

Lemma filter_all (p : unit16 -> bool) (s : jsstring) :
  forallb p s = true -> filter p s = s.
Proof.
  induction s as [| c s IH]; simpl; [reflexivity |].
  intros H. apply andb_true_iff in H as (Hc & Hs). rewrite Hc. f_equal. auto.
Qed.

Lemma filter_none (p : unit16 -> bool) (s : jsstring) :
  forallb (fun c => negb (p c)) s = true -> filter p s = [].
Proof.
  induction s as [| c s IH]; simpl; [reflexivity |].
  intros H. apply andb_true_iff in H as (Hc & Hs).
  apply negb_true_iff in Hc. rewrite Hc. auto.
Qed.

Lemma dropWhile_filter (p : unit16 -> bool) (s : jsstring) :
  filter (fun c => negb (p c)) (dropWhile p s) = filter (fun c => negb (p c)) s.
Proof.
  induction s as [| c s IH]; simpl; [reflexivity |].
  destruct (p c) eqn:Hc; simpl; [exact IH | now rewrite Hc].
Qed.

Lemma filter_rev (p : unit16 -> bool) (s : jsstring) :
  filter p (rev s) = rev (filter p s).
Proof.
  induction s as [| c s IH]; simpl; [reflexivity |].
  rewrite filter_app, IH. simpl. destruct (p c); simpl; [reflexivity | now rewrite app_nil_r].
Qed.

(** [trim] removes white space only. *)
Lemma trim_filter (s : jsstring) :
  filter (fun c => negb (isSpace c)) (trim s) = filter (fun c => negb (isSpace c)) s.
Proof.
  unfold trim.
  rewrite filter_rev, dropWhile_filter, filter_rev, rev_involutive.
  apply dropWhile_filter.
Qed.

Lemma dropWhile_all (p : unit16 -> bool) (s : jsstring) :
  forallb p s = true -> dropWhile p s = [].
Proof.
  induction s as [| c s IH]; simpl; [reflexivity |].
  intros H. apply andb_true_iff in H as (Hc & Hs). rewrite Hc. auto.
Qed.

Lemma takeWhile_all (p : unit16 -> bool) (s : jsstring) :
  forallb p s = true -> takeWhile p s = s.
Proof.
  induction s as [| c s IH]; simpl; [reflexivity |].
  intros H. apply andb_true_iff in H as (Hc & Hs). rewrite Hc. f_equal. auto.
Qed.

Lemma dropWhile_none (p : unit16 -> bool) (s : jsstring) :
  forallb (fun c => negb (p c)) s = true -> dropWhile p s = s.
Proof.
  destruct s as [| c s]; simpl; [reflexivity |].
  intros H. apply andb_true_iff in H as (Hc & _).
  apply negb_true_iff in Hc. now rewrite Hc.
Qed.

Lemma forallb_rev (p : unit16 -> bool) (s : jsstring) :
  forallb p (rev s) = forallb p s.
Proof.
  induction s as [| c s IH]; simpl; [reflexivity |].
  rewrite forallb_app, IH. simpl. rewrite andb_true_r. apply andb_comm.
Qed.

Lemma forallb_impl (p q : unit16 -> bool) (s : jsstring) :
  (forall c, p c = true -> q c = true) ->
  forallb p s = true -> forallb q s = true.
Proof.
  intros Hpq. rewrite !forallb_forall. auto.
Qed.

End StringFacts.

(** ** Character classes *)

Ltac class_arith :=
  unfold notAlnumSpace, notAlnum, isAlnum, isSpace, isSep, isSlash, inRange in *;
  repeat rewrite ?orb_true_iff, ?andb_true_iff, ?negb_true_iff,
    ?orb_false_iff, ?andb_false_iff, ?negb_false_iff,
    ?N.eqb_eq, ?N.eqb_neq, ?N.leb_le, ?N.leb_gt in *;
  lia.

Lemma alnum_not_space (c : unit16) : isAlnum c = true -> isSpace c = false.
Proof. intros H. class_arith. Qed.

Lemma alnum_not_sep (c : unit16) : isAlnum c = true -> isSep c = false.
Proof. intros H. class_arith. Qed.

Lemma space_not_alnum (c : unit16) : isSpace c = true -> isAlnum c = false.
Proof. intros H. class_arith. Qed.

Lemma space_not_sep (c : unit16) : isSpace c = true -> isSep c = false.
Proof. intros H. class_arith. Qed.

Lemma space_lower (c : unit16) : isSpace c = true -> lowerUnit c = [c].
Proof.
  intros H. unfold lowerUnit.
  assert (inRange 65 90 c = false) as -> by class_arith.
  assert ((c =? 304)%N = false) as -> by class_arith.
  assert ((c =? 8490)%N = false) as -> by class_arith.
  reflexivity.
Qed.

Lemma filter_filter (p q : unit16 -> bool) (s : jsstring) :
  filter p (filter q s) = filter (fun c => q c && p c) s.
Proof.
  induction s as [| c s IH]; simpl; [reflexivity |].
  destruct (q c); simpl; [destruct (p c) |]; now rewrite IH.
Qed.

(** Deleting white space after deleting what is not alphanumeric or white
    space leaves the alphanumeric characters. *)
Lemma compact_of_clean (x : jsstring) :
  filter (fun c => negb (isSpace c)) (replaceAll notAlnumSpace [] x)
  = replaceAll notAlnum [] x.
Proof.
  rewrite !replaceAll_delete, filter_filter. apply filter_ext.
  intros c. unfold notAlnumSpace, notAlnum. rewrite !negb_involutive.
  destruct (isAlnum c) eqn:Ha; simpl.
  - now rewrite (alnum_not_space _ Ha).
  - now destruct (isSpace c).
Qed.

(** A cleaned and trimmed text without white space is the compact form. *)
Lemma spaceless_clean (x : jsstring) :
  forallb (fun c => negb (isSpace c))
          (trim (replaceAll notAlnumSpace [] x)) = true ->
  trim (replaceAll notAlnumSpace [] x) = replaceAll notAlnum [] x.
Proof.
  intros H. rewrite <- (filter_all _ _ H), trim_filter. apply compact_of_clean.
Qed.

Lemma replaceAll_keep_alnum (x : jsstring) :
  replaceAll notAlnum [] x = filter isAlnum x.
Proof.
  rewrite replaceAll_delete. apply filter_ext.
  intros c. unfold notAlnum. apply negb_involutive.
Qed.

(** Turning separators into spaces does not change the compact form. *)
Lemma compact_of_separated (b : bool) (x : jsstring) :
  filter isAlnum (replaceRuns isSep (lit " ") b x) = filter isAlnum x.
Proof.
  revert b. induction x as [| c x IH]; intros b; simpl; [reflexivity |].
  destruct (isSep c) eqn:Hs.
  - rewrite filter_app, IH.
    assert (isAlnum c = false) as ->
      by (destruct (isAlnum c) eqn:Ha; [apply alnum_not_sep in Ha; congruence | reflexivity]).
    now destruct b.
  - simpl. rewrite IH. reflexivity.
Qed.

(** ** Metadata *)

Lemma healthy_severity : Info.severity (diseaseInfo Healthy) = None.
Proof. reflexivity. Qed.

Lemma disease_severity (d : Disease) :
  d <> Healthy -> Info.severity (diseaseInfo d) <> None.
Proof. destruct d; simpl; congruence. Qed.

Lemma eqDisease_true (a b : Disease) : eqDisease a b = true <-> a = b.
Proof. unfold eqDisease; destruct (Disease_eq_dec a b); split; congruence. Qed.

Lemma prediction_fields (raw : option jsstring) :
  let r := predictFromImageName raw in
  diagnosis r = chosen (debugAnalyze raw) /\
  severity r = Info.severity (diseaseInfo (diagnosis r)) /\
  isHealthy r = eqDisease (diagnosis r) Healthy /\
  confidence r =
    scoreToConfidence (scoreIn (candidates (debugAnalyze raw)) (diagnosis r)).
Proof. cbv zeta. unfold predictFromImageName. cbn [diagnosis severity isHealthy confidence]. auto. Qed.

(** C9: the result is flagged healthy exactly when its severity is null,
    and the severity is the one configured for the chosen category: null
    for Healthy, not null for every other category. *)
Theorem severity_follows_diagnosis (raw : option jsstring) :
  let r := predictFromImageName raw in
  (isHealthy r = true <-> severity r = None) /\
  severity r = Info.severity (diseaseInfo (diagnosis r)) /\
  Info.severity (diseaseInfo Healthy) = None /\
  (forall d, d <> Healthy -> Info.severity (diseaseInfo d) <> None).
Proof.
  cbv zeta.
  destruct (prediction_fields raw) as (_ & Hs & Hh & _).
  rewrite Hs, Hh.
  repeat split; auto using disease_severity.
  - intros H. apply eqDisease_true in H. now rewrite H.
  - intros H. apply eqDisease_true.
    destruct (Disease_eq_dec (diagnosis (predictFromImageName raw)) Healthy) as [e | n];
      [exact e | now apply disease_severity in n].
Qed.

(** ** The keyword check *)

Lemma normalizeName_shape (raw : option jsstring) :
  let n := normalizeName raw in
  compact n = compactOf (normalized n) /\ tokens n = tokensOf (normalized n).
Proof.
  destruct raw as [[| c raw] |]; split; reflexivity.
Qed.

Section Check.

Variable nz : jsstring.

Lemma token_spaceless (t : jsstring) :
  In t (tokensOf nz) -> forallb (fun c => negb (isSpace c)) t = true.
Proof.
  unfold tokensOf, splitOn. rewrite filter_In. intros (H & _).
  now apply splitRuns_pieces in H.
Qed.

(** Every token occurs in the compact string. *)
Lemma token_in_compact (t : jsstring) :
  In t (tokensOf nz) -> includes (compactOf nz) t = true.
Proof.
  unfold tokensOf, splitOn, compactOf. rewrite filter_In. intros (H & _).
  rewrite replaceAll_delete, <- (splitRuns_concat isSpace false nz).
  now apply includes_concat.
Qed.

(** When the cleaned keyword is a token, it is the keyword's compact form. *)
Lemma kwToken_compact (kw : jsstring) :
  In (kwToken kw) (tokensOf nz) -> kwToken kw = kwNorm kw.
Proof.
  intros H. apply token_spaceless in H. now apply spaceless_clean.
Qed.

Lemma cleanName_compact (kw : jsstring) :
  In (cleanName kw) (tokensOf nz) -> cleanName kw = kwNorm kw.
Proof.
  intros H. apply token_spaceless in H. unfold cleanName in *.
  rewrite (spaceless_clean _ H). unfold kwNorm.
  rewrite !replaceAll_keep_alnum. apply compact_of_separated.
Qed.

(** The result of [check] is decided by the compact string alone. *)
Lemma check_compact (kw : jsstring) :
  check (tokensOf nz) (compactOf nz) kw
  = truthy (kwNorm kw) && includes (compactOf nz) (kwNorm kw).
Proof.
  unfold check. destruct (truthy (kwNorm kw)); simpl; [| reflexivity].
  destruct (arrIncludes (tokensOf nz) (kwToken kw)) eqn:Ht.
  - apply arrIncludes_In in Ht.
    rewrite <- (kwToken_compact _ Ht). symmetry. now apply token_in_compact.
  - now destruct (includes (compactOf nz) (kwNorm kw)).
Qed.

End Check.

(** ** Scores *)

Lemma scan_spec (chk : jsstring -> bool) (weight : float)
    (kws ms : list jsstring) (sc : float) :
  scan chk weight kws (ms, sc)
  = (ms ++ filter chk kws, addTimes (List.length (filter chk kws)) weight sc).
Proof.
  unfold scan. revert ms sc.
  induction kws as [| k kws IH]; intros ms sc; simpl.
  - now rewrite app_nil_r.
  - destruct (chk k); simpl.
    + rewrite IH, <- app_assoc. reflexivity.
    + apply IH.
Qed.

Lemma analyzeDisease_spec (n : NormalizedName) (d : Disease) :
  let chk := check (tokens n) (compact n) in
  let m := analyzeDisease n d in
  strongMatches m = filter chk (strong (keywords d)) /\
  weakMatches m = filter chk (weak (keywords d)) /\
  score m = scoreOf (List.length (strongMatches m)) (List.length (weakMatches m)).
Proof.
  cbv zeta. unfold analyzeDisease, scoreOf.
  rewrite !scan_spec. simpl. auto.
Qed.

Lemma filter_length_le (A : Type) (f : A -> bool) (l : list A) :
  (List.length (filter f l) <= List.length l)%nat.
Proof.
  induction l as [| a l IH]; simpl; [lia |]. destruct (f a); simpl; lia.
Qed.

Lemma in_grid (s w : nat) : (s <= 6)%nat -> (w <= 4)%nat -> In (s, w) grid.
Proof.
  intros Hs Hw. unfold grid. apply in_prod; apply in_seq; lia.
Qed.

(** Every score of a match record is one of the grid. *)
Lemma score_reachable (n : NormalizedName) (d : Disease) :
  reachable (score (analyzeDisease n d)).
Proof.
  destruct (analyzeDisease_spec n d) as (Hs & Hw & Hsc).
  exists (List.length (strongMatches (analyzeDisease n d)),
          List.length (weakMatches (analyzeDisease n d))).
  split; [| exact Hsc].
  apply in_grid.
  - rewrite Hs. etransitivity; [apply filter_length_le |].
    destruct d; simpl; lia.
  - rewrite Hw. etransitivity; [apply filter_length_le |].
    destruct d; simpl; lia.
Qed.

(** On the scores the analysis can reach, the float comparisons are those
    of the exact values. *)
Lemma grid_order : forallb (fun p => forallb (orderOk p) grid) grid = true.
Proof. vm_compute. reflexivity. Qed.

Lemma ranked_cmp (x y : float) (i j : nat) :
  ranked x i -> ranked y j ->
  (0 <? y - x)%float = (i <? j)%nat /\
  (x =? y)%float = (i =? j)%nat /\
  (x <=? y)%float = (i <=? j)%nat.
Proof.
  intros (p & Hp & -> & ->) (q & Hq & -> & ->).
  pose proof grid_order as H.
  rewrite forallb_forall in H. specialize (H p Hp).
  rewrite forallb_forall in H. specialize (H q Hq).
  unfold orderOk in H.
  apply andb_true_iff in H as (H & H3). apply andb_true_iff in H as (H1 & H2).
  apply eqb_prop in H1, H2, H3. auto.
Qed.

Lemma reachable_ranked (x : float) : reachable x <-> exists i, ranked x i.
Proof.
  split.
  - intros (p & Hp & E). exists (fifths p), p. auto.
  - intros (i & p & Hp & E & _). exists p. auto.
Qed.

(** ** Sorting *)

Section Sorting.

Variables (A : Type) (cmp : A -> A -> float).
Variables (P : A -> Prop) (le : A -> A -> Prop).

Hypothesis after_le :
  forall a b, P a -> P b -> (0 <? cmp a b)%float = true -> le a b.
Hypothesis before_le :
  forall a b, P a -> P b -> (0 <? cmp a b)%float = false -> le b a.
Hypothesis le_refl : forall a, P a -> le a a.
Hypothesis le_trans :
  forall a b c, P a -> P b -> P c -> le a b -> le b c -> le a c.

Lemma insertBy_In (x y : A) (l : list A) :
  In y (insertBy cmp x l) <-> y = x \/ In y l.
Proof.
  induction l as [| z l IH]; simpl.
  - intuition.
  - destruct (0 <? cmp x z)%float; simpl; rewrite ?IH; intuition.
Qed.

Lemma sortBy_In (y : A) (l : list A) : In y (sortBy cmp l) <-> In y l.
Proof.
  unfold sortBy. induction l as [| x l IH]; simpl.
  - tauto.
  - rewrite insertBy_In, IH. intuition.
Qed.

Lemma insertBy_headMax (x : A) (l : list A) :
  P x -> Forall P l -> headMax le l -> headMax le (insertBy cmp x l).
Proof.
  intros Px Pl Hl. destruct l as [| z l]; simpl.
  - intros y [<- | []]. now apply le_refl.
  - inversion Pl as [| ? ? Pz Pl']; subst.
    destruct (0 <? cmp x z)%float eqn:E; simpl.
    + intros y [<- | Hy]; [now apply le_refl |].
      apply insertBy_In in Hy as [-> | Hy].
      * now apply after_le.
      * apply Hl. now right.
    + intros y [<- | Hy]; [now apply le_refl |].
      assert (P y) as Py
        by (destruct Hy as [<- | Hy]; [exact Pz | rewrite Forall_forall in Pl'; auto]).
      apply le_trans with z; [exact Py | exact Pz | exact Px | | ].
      * apply Hl. exact Hy.
      * now apply before_le.
Qed.

(** The first element of the sorted array dominates the array. *)
Lemma sortBy_headMax (l : list A) : Forall P l -> headMax le (sortBy cmp l).
Proof.
  induction l as [| x l IH]; intros Pl; [exact I |].
  inversion Pl as [| ? ? Px Pl']; subst.
  change (sortBy cmp (x :: l)) with (insertBy cmp x (sortBy cmp l)).
  apply insertBy_headMax; auto.
  rewrite Forall_forall in *. intros y Hy. apply Pl'. now apply sortBy_In.
Qed.

Lemma sortBy_nonempty (l : list A) : l <> [] -> sortBy cmp l <> [].
Proof.
  destruct l as [| x l]; [congruence |]. intros _ E.
  assert (In x (sortBy cmp (x :: l))) as H by (apply sortBy_In; now left).
  rewrite E in H. exact H.
Qed.

End Sorting.

(** ** Selection *)

Lemma cand_after_le (a b : Cand.t) :
  reachCand a -> reachCand b ->
  (0 <? byScoreDesc a b)%float = true -> leScore a b.
Proof.
  intros Ha Hb. apply reachable_ranked in Ha as (i & Hi), Hb as (j & Hj).
  destruct (ranked_cmp Hi Hj) as (E1 & _ & E3).
  unfold leScore, byScoreDesc. rewrite E1, E3.
  rewrite Nat.ltb_lt, Nat.leb_le. lia.
Qed.

Lemma cand_before_le (a b : Cand.t) :
  reachCand a -> reachCand b ->
  (0 <? byScoreDesc a b)%float = false -> leScore b a.
Proof.
  intros Ha Hb. apply reachable_ranked in Ha as (i & Hi), Hb as (j & Hj).
  destruct (ranked_cmp Hi Hj) as (E1 & _ & _).
  destruct (ranked_cmp Hj Hi) as (_ & _ & E3).
  unfold leScore, byScoreDesc. rewrite E1, E3.
  rewrite Nat.ltb_ge, Nat.leb_le. lia.
Qed.

Lemma cand_le_refl (a : Cand.t) : reachCand a -> leScore a a.
Proof.
  intros Ha. apply reachable_ranked in Ha as (i & Hi).
  destruct (ranked_cmp Hi Hi) as (_ & _ & E3).
  unfold leScore. rewrite E3. apply Nat.leb_refl.
Qed.

Lemma cand_le_trans (a b c : Cand.t) :
  reachCand a -> reachCand b -> reachCand c ->
  leScore a b -> leScore b c -> leScore a c.
Proof.
  intros Ha Hb Hc.
  apply reachable_ranked in Ha as (i & Hi), Hb as (j & Hj), Hc as (k & Hk).
  unfold leScore.
  rewrite (proj2 (proj2 (ranked_cmp Hi Hj))), (proj2 (proj2 (ranked_cmp Hj Hk))),
    (proj2 (proj2 (ranked_cmp Hi Hk))), !Nat.leb_le. lia.
Qed.

Lemma cand_eq_refl (a : Cand.t) :
  reachCand a -> (Cand.score a =? Cand.score a)%float = true.
Proof.
  intros Ha. apply reachable_ranked in Ha as (i & Hi).
  destruct (ranked_cmp Hi Hi) as (_ & E2 & _).
  rewrite E2. apply Nat.eqb_refl.
Qed.

(** Equal scores can replace each other in comparisons. *)
Lemma cand_eq_le (a b c : Cand.t) :
  reachCand a -> reachCand b -> reachCand c ->
  (Cand.score b =? Cand.score c)%float = true ->
  (leScore a c -> leScore a b) /\
  ((Cand.score a =? Cand.score b)%float = true ->
   (Cand.score a =? Cand.score c)%float = true).
Proof.
  intros Ha Hb Hc.
  apply reachable_ranked in Ha as (i & Hi), Hb as (j & Hj), Hc as (k & Hk).
  unfold leScore.
  destruct (ranked_cmp Hj Hk) as (_ & -> & _).
  destruct (ranked_cmp Hi Hk) as (_ & -> & ->).
  destruct (ranked_cmp Hi Hj) as (_ & -> & ->).
  rewrite !Nat.eqb_eq, !Nat.leb_le. lia.
Qed.

Lemma find_first (f : Disease -> bool) (l : list Disease) (x y : Disease) :
  find f l = Some x -> f y = true -> In y l ->
  (indexOf x l <= indexOf y l)%nat.
Proof.
  induction l as [| a l IH]; simpl; [discriminate |].
  intros Hf Hy Hin. destruct (f a) eqn:Fa.
  - injection Hf as ->.
    assert (eqDisease x x = true) as -> by now apply eqDisease_true.
    lia.
  - destruct (eqDisease a y) eqn:Eay.
    + apply eqDisease_true in Eay. congruence.
    + destruct Hin as [-> | Hin]; [congruence |].
      destruct (eqDisease a x); [lia |].
      apply le_n_S. now apply IH.
Qed.

Lemma in_priority (d : Disease) : In d priority.
Proof. destruct d; simpl; tauto. Qed.

Lemma indexOf_priority_inj (a b : Disease) :
  indexOf a priority = indexOf b priority -> a = b.
Proof. destruct a, b; simpl; congruence. Qed.

(** What the selection returns on a non-empty array of candidates. *)
Lemma choose_spec (l : list Cand.t) :
  l <> [] -> Forall reachCand l ->
  exists top,
    In top l /\ choose l = Some (Cand.disease top) /\
    (forall x, In x l -> leScore x top) /\
    (forall x, In x l ->
       (Cand.score x =? Cand.score top)%float = true ->
       (indexOf (Cand.disease top) priority
        <= indexOf (Cand.disease x) priority)%nat).
Proof.
  intros Hne Hl.
  assert (forall x, In x (sortBy byScoreDesc l) -> reachCand x) as Hs.
  { intros x Hx. apply sortBy_In in Hx. rewrite Forall_forall in Hl. auto. }
  pose proof (@sortBy_headMax _ byScoreDesc reachCand leScore
                cand_after_le cand_before_le cand_le_refl cand_le_trans l Hl) as Hmax.
  pose proof (@sortBy_nonempty _ byScoreDesc l Hne) as Hsne.
  unfold choose. destruct l as [| a0 l0]; [congruence |].
  fold byScoreDesc.
  remember (a0 :: l0) as l eqn:El. clear El a0 l0.
  destruct (sortBy byScoreDesc l) as [| top0 rest] eqn:Es; [congruence |].
  simpl in Hmax.
  set (tops := map Cand.disease
                   (filter (fun d => (Cand.score d =? Cand.score top0)%float)
                           (top0 :: rest))).
  assert (forall d, existsb (eqDisease d) tops = true <->
            exists c, In c (top0 :: rest) /\
                      (Cand.score c =? Cand.score top0)%float = true /\
                      Cand.disease c = d) as Htops.
  { intros d. rewrite existsb_exists. split.
    - intros (d' & Hd' & E). apply eqDisease_true in E. subst d'.
      apply in_map_iff in Hd' as (c & Ec & Hc).
      apply filter_In in Hc as (Hc & Hsc). now exists c.
    - intros (c & Hc & Hsc & Ec). exists d. split; [| now apply eqDisease_true].
      apply in_map_iff. exists c. split; [exact Ec |].
      apply filter_In. auto. }
  assert (reachCand top0) as Rtop0 by (apply Hs; now left).
  destruct (find (fun p => existsb (eqDisease p) tops) priority) as [p |] eqn:Ef.
  - pose proof (find_some _ _ Ef) as (_ & Hp).
    apply Htops in Hp as (c & Hc & Hsc & Ec).
    assert (reachCand c) as Rc by auto.
    exists c. repeat split.
    + apply (sortBy_In byScoreDesc). now rewrite Es.
    + now rewrite Ec.
    + intros x Hx.
      assert (In x (top0 :: rest)) as Hx'
        by (rewrite <- Es; now apply sortBy_In).
      apply (cand_eq_le (Hs x Hx') Rc Rtop0 Hsc). auto.
    + intros x Hx Hxc.
      assert (In x (top0 :: rest)) as Hx'
        by (rewrite <- Es; now apply sortBy_In).
      rewrite Ec. apply (find_first _ _ _ Ef); [| apply in_priority].
      apply Htops. exists x. repeat split; auto.
      apply (cand_eq_le (Hs x Hx') Rc Rtop0 Hsc). exact Hxc.
  - exfalso.
    pose proof (find_none _ _ Ef (Cand.disease top0) (in_priority _)) as Hn.
    simpl in Hn.
    assert (existsb (eqDisease (Cand.disease top0)) tops = true) as Ht.
    { apply Htops. exists top0. repeat split; [now left |].
      now apply cand_eq_refl. }
    congruence.
Qed.

(** ** The candidates of an input *)

Lemma candidates_eq (raw : option jsstring) :
  candidates (debugAnalyze raw)
  = map (fun d => (d, matchOf raw d)) diseaseClasses.
Proof. reflexivity. Qed.

Lemma chosen_eq (raw : option jsstring) :
  chosen (debugAnalyze raw)
  = match choose (diseaseCandidatesOf (candidates (debugAnalyze raw))) with
    | Some d => d
    | None => Healthy
    end.
Proof. reflexivity. Qed.

Lemma lookup_candidates (raw : option jsstring) (d : Disease) :
  lookup (candidates (debugAnalyze raw)) d = Some (matchOf raw d).
Proof. rewrite candidates_eq. destruct d; reflexivity. Qed.

Lemma scoreIn_candidates (raw : option jsstring) (d : Disease) :
  scoreIn (candidates (debugAnalyze raw)) d = score (matchOf raw d).
Proof. unfold scoreIn. now rewrite lookup_candidates. Qed.

Lemma topScore_eq (raw : option jsstring) :
  topScore (debugAnalyze raw)
  = score (matchOf raw (chosen (debugAnalyze raw))).
Proof. rewrite <- scoreIn_candidates. reflexivity. Qed.

Lemma in_diseaseClasses (d : Disease) : In d diseaseClasses.
Proof. destruct d; simpl; tauto. Qed.

Lemma eligible_test (raw : option jsstring) (d : Disease) :
  negb (eqDisease d Healthy)
  && (0 <? List.length (strongMatches (matchOf raw d)))%nat = true
  <-> eligible raw d.
Proof.
  unfold eligible. rewrite andb_true_iff, negb_true_iff, Nat.ltb_lt.
  destruct (strongMatches (matchOf raw d)) as [| k ks]; simpl.
  - split; [lia | intros (_ & H); congruence].
  - split; intros (H & _); (split; [| first [lia | discriminate]]).
    + intros E. apply eqDisease_true in E. congruence.
    + destruct (eqDisease d Healthy) eqn:E; [| reflexivity].
      apply eqDisease_true in E. contradiction.
Qed.

Lemma in_diseaseCandidates (raw : option jsstring) (x : Cand.t) :
  In x (diseaseCandidatesOf (candidates (debugAnalyze raw)))
  <-> exists d, x = Cand.mk d (score (matchOf raw d)) /\ eligible raw d.
Proof.
  unfold diseaseCandidatesOf. rewrite candidates_eq, in_map_iff. split.
  - intros ((d & m) & <- & H). apply filter_In in H as (H & Ht).
    apply in_map_iff in H as (d' & E & _). injection E as -> <-.
    exists d. split; [reflexivity |]. now apply eligible_test.
  - intros (d & -> & He). exists (d, matchOf raw d). split; [reflexivity |].
    apply filter_In. split.
    + apply in_map_iff. exists d. split; [reflexivity | apply in_diseaseClasses].
    + now apply eligible_test.
Qed.

Lemma diseaseCandidates_reachable (raw : option jsstring) :
  Forall reachCand (diseaseCandidatesOf (candidates (debugAnalyze raw))).
Proof.
  apply Forall_forall. intros x Hx.
  apply in_diseaseCandidates in Hx as (d & -> & _).
  apply score_reachable.
Qed.

(** C3: the categories the selector considers are the non-Healthy ones
    with a strong match; when there is one, the chosen category is
    eligible, no eligible category has a higher score, among the eligible
    categories of the same score none comes earlier in
    [priority = Aloe Rust, Anthracnose, Leaf Spot, Sunburn, Healthy], and
    it is the only category with these properties; when there is none, the
    chosen category is Healthy. *)
Theorem selector_picks_first_of_best (raw : option jsstring) :
  let r := debugAnalyze raw in
  let best d :=
    eligible raw d /\
    (forall d', eligible raw d' ->
       (score (matchOf raw d') <=? score (matchOf raw d))%float = true) /\
    (forall d', eligible raw d' ->
       (score (matchOf raw d') =? score (matchOf raw d))%float = true ->
       (indexOf d priority <= indexOf d' priority)%nat) in
  priority = [AloeRust; Anthracnose; LeafSpot; Sunburn; Healthy] /\
  (forall d, In d (map Cand.disease (diseaseCandidatesOf (candidates r)))
             <-> d <> Healthy /\ strongMatches (matchOf raw d) <> []) /\
  ((exists d, eligible raw d) ->
     best (chosen r) /\ forall d, best d -> d = chosen r) /\
  ((forall d, ~ eligible raw d) -> chosen r = Healthy).
Proof.
  cbv zeta. split; [reflexivity |].
  assert (forall d, In d (map Cand.disease
                           (diseaseCandidatesOf (candidates (debugAnalyze raw))))
                    <-> eligible raw d) as Hin.
  { intros d. rewrite in_map_iff. split.
    - intros (x & <- & Hx). apply in_diseaseCandidates in Hx as (d' & -> & He).
      exact He.
    - intros He. exists (Cand.mk d (score (matchOf raw d))).
      split; [reflexivity |]. apply in_diseaseCandidates. now exists d. }
  split; [exact Hin |]. split.
  - intros (d0 & He0).
    assert (diseaseCandidatesOf (candidates (debugAnalyze raw)) <> []) as Hne.
    { intros E. apply Hin in He0. rewrite E in He0. exact He0. }
    destruct (choose_spec Hne (diseaseCandidates_reachable raw))
      as (top & Htop & Hch & Hmax & Htie).
    apply in_diseaseCandidates in Htop as (dt & -> & Het).
    cbn [Cand.disease Cand.score] in Hch, Hmax, Htie.
    assert (chosen (debugAnalyze raw) = dt) as Ec by (rewrite chosen_eq; now rewrite Hch).
    rewrite Ec.
    assert (forall d', eligible raw d' ->
              In (Cand.mk d' (score (matchOf raw d')))
                 (diseaseCandidatesOf (candidates (debugAnalyze raw)))) as Hel.
    { intros d' He'. apply in_diseaseCandidates. now exists d'. }
    assert (forall d', eligible raw d' ->
              (score (matchOf raw d') <=? score (matchOf raw dt))%float = true) as Hm.
    { intros d' He'. exact (Hmax _ (Hel d' He')). }
    assert (forall d', eligible raw d' ->
              (score (matchOf raw d') =? score (matchOf raw dt))%float = true ->
              (indexOf dt priority <= indexOf d' priority)%nat) as Ht.
    { intros d' He' E. exact (Htie _ (Hel d' He') E). }
    split; [auto |].
    intros d (He & Hmd & Htd).
    apply indexOf_priority_inj. apply Nat.le_antisymm.
    + apply Htd; [exact Het |].
      pose proof (score_reachable (normalizeName raw) d) as Rd.
      pose proof (score_reachable (normalizeName raw) dt) as Rt.
      apply reachable_ranked in Rd as (i & Hi), Rt as (j & Hj).
      fold (matchOf raw d) in Hi. fold (matchOf raw dt) in Hj.
      specialize (Hm d He). specialize (Hmd dt Het).
      rewrite (proj2 (proj2 (ranked_cmp Hi Hj))) in Hm.
      rewrite (proj2 (proj2 (ranked_cmp Hj Hi))) in Hmd.
      rewrite (proj1 (proj2 (ranked_cmp Hj Hi))).
      apply Nat.leb_le in Hm, Hmd. apply Nat.eqb_eq. lia.
    + apply Ht; [exact He |].
      pose proof (score_reachable (normalizeName raw) d) as Rd.
      pose proof (score_reachable (normalizeName raw) dt) as Rt.
      apply reachable_ranked in Rd as (i & Hi), Rt as (j & Hj).
      fold (matchOf raw d) in Hi. fold (matchOf raw dt) in Hj.
      specialize (Hm d He). specialize (Hmd dt Het).
      rewrite (proj2 (proj2 (ranked_cmp Hi Hj))) in Hm.
      rewrite (proj2 (proj2 (ranked_cmp Hj Hi))) in Hmd.
      rewrite (proj1 (proj2 (ranked_cmp Hi Hj))).
      apply Nat.leb_le in Hm, Hmd. apply Nat.eqb_eq. lia.
  - intros Hnone. rewrite chosen_eq.
    destruct (diseaseCandidatesOf (candidates (debugAnalyze raw))) as [| x l] eqn:E.
    + reflexivity.
    + exfalso. apply (Hnone (Cand.disease x)). apply Hin. simpl. now left.
Qed.

(** ** Matching *)

Lemma truthy_true (x : jsstring) : truthy x = true <-> x <> [].
Proof. destruct x; simpl; split; congruence. Qed.

Lemma check_checkCompact (raw : option jsstring) (kw : jsstring) :
  let n := normalizeName raw in
  check (tokens n) (compact n) kw = checkCompact (compact n) kw.
Proof.
  cbv zeta. destruct (normalizeName_shape raw) as (Ec & Et).
  rewrite Et, Ec. apply check_compact.
Qed.

Lemma configured_nonempty (d : Disease) (k : jsstring) :
  In k (configured d) -> kwNorm k <> [].
Proof.
  destruct d; unfold configured; simpl; intros H;
    repeat (destruct H as [<- | H]; [vm_compute; discriminate |]);
    destruct H.
Qed.

Lemma matches_configured (raw : option jsstring) (d : Disease) (k : jsstring) :
  let n := normalizeName raw in
  In k (strongMatches (matchOf raw d) ++ weakMatches (matchOf raw d))
  <-> In k (configured d) /\ check (tokens n) (compact n) k = true.
Proof.
  cbv zeta. unfold matchOf, configured.
  destruct (analyzeDisease_spec (normalizeName raw) d) as (-> & -> & _).
  rewrite <- filter_app. apply filter_In.
Qed.

(** C4: a keyword with a non-empty compact form passes the check exactly
    when the token list contains the keyword cleaned by the rule of
    [normalized], or the compact string contains the keyword's compact
    form; the same holds with the cleaning the check itself applies, which
    does not turn separators into spaces; so a configured keyword is
    recorded as matched exactly then.  "img_rust_01.jpg" and
    "imgrust01.jpg" are both diagnosed Aloe Rust with a strong match. *)
Theorem matched_by_token_or_substring :
  (forall (raw : option jsstring) (k : jsstring),
     let n := normalizeName raw in
     kwNorm k <> [] ->
     (check (tokens n) (compact n) k = true
      <-> In (cleanName k) (tokens n) \/ includes (compact n) (kwNorm k) = true)
     /\
     (check (tokens n) (compact n) k = true
      <-> In (kwToken k) (tokens n) \/ includes (compact n) (kwNorm k) = true))
  /\
  (forall (raw : option jsstring) (d : Disease) (k : jsstring),
     let n := normalizeName raw in
     In k (configured d) ->
     (In k (strongMatches (matchOf raw d) ++ weakMatches (matchOf raw d))
      <-> In (cleanName k) (tokens n) \/ includes (compact n) (kwNorm k) = true))
  /\
  (diagnosis (classify (lit "img_rust_01.jpg")) = AloeRust /\
   strongMatches (matchOf (Some (lit "img_rust_01.jpg")) AloeRust) = [lit "rust"] /\
   In (lit "rust") (tokens (normalizeName (Some (lit "img_rust_01.jpg")))))
  /\
  (diagnosis (classify (lit "imgrust01.jpg")) = AloeRust /\
   strongMatches (matchOf (Some (lit "imgrust01.jpg")) AloeRust) = [lit "rust"] /\
   tokens (normalizeName (Some (lit "imgrust01.jpg"))) = [lit "imgrust01"; lit "jpg"] /\
   includes (compact (normalizeName (Some (lit "imgrust01.jpg")))) (lit "rust") = true).
Proof.
  assert (forall (raw : option jsstring) (k : jsstring),
     let n := normalizeName raw in
     kwNorm k <> [] ->
     (check (tokens n) (compact n) k = true
      <-> In (cleanName k) (tokens n) \/ includes (compact n) (kwNorm k) = true)
     /\
     (check (tokens n) (compact n) k = true
      <-> In (kwToken k) (tokens n) \/ includes (compact n) (kwNorm k) = true))
    as Hgen.
  { intros raw k n Hk. subst n.
    rewrite check_checkCompact. unfold checkCompact.
    apply truthy_true in Hk. rewrite Hk. simpl.
    destruct (normalizeName_shape raw) as (Ec & Et). rewrite Ec, Et.
    split; (split; [now right |]); (intros [H | H]; [| exact H]).
    - rewrite <- (cleanName_compact _ _ H). now apply token_in_compact.
    - rewrite <- (kwToken_compact _ _ H). now apply token_in_compact. }
  split; [exact Hgen |]. split.
  - intros raw d k n Hk. subst n. rewrite matches_configured.
    rewrite <- (proj1 (Hgen raw k (configured_nonempty _ _ Hk))). tauto.
  - split; repeat split; vm_compute; auto.
Qed.

(** ** Dependence on the compact string *)

Lemma analyzeDisease_filter (n : NormalizedName) (d : Disease) :
  let chk := check (tokens n) (compact n) in
  analyzeDisease n d
  = mkMatch (filter chk (strong (keywords d)))
            (filter chk (weak (keywords d)))
            (scoreOf (List.length (filter chk (strong (keywords d))))
                     (List.length (filter chk (weak (keywords d))))).
Proof.
  cbv zeta. unfold analyzeDisease, scoreOf. rewrite !scan_spec. reflexivity.
Qed.

Lemma matchOf_compact (raw1 raw2 : option jsstring) (d : Disease) :
  compact (normalizeName raw1) = compact (normalizeName raw2) ->
  matchOf raw1 d = matchOf raw2 d.
Proof.
  intros E. unfold matchOf. rewrite !analyzeDisease_filter.
  assert (forall k,
            check (tokens (normalizeName raw1)) (compact (normalizeName raw1)) k
            = check (tokens (normalizeName raw2)) (compact (normalizeName raw2)) k)
    as Hchk by (intros k; rewrite !check_checkCompact; now rewrite E).
  now rewrite !(filter_ext _ _ Hchk).
Qed.

(** C10: the token branch of the check adds nothing: a keyword with a
    non-empty compact form, as every configured keyword has, passes the
    check exactly when the compact string contains that form; hence two
    inputs with the same compact string get the same match records, the
    same chosen category, the same score and the same confidence. *)
Theorem token_branch_redundant :
  (forall (raw : option jsstring) (k : jsstring),
     let n := normalizeName raw in
     kwNorm k <> [] ->
     (check (tokens n) (compact n) k = true
      <-> includes (compact n) (kwNorm k) = true)) /\
  (forall (raw : option jsstring) (k : jsstring),
     let n := normalizeName raw in
     In (kwToken k) (tokens n) -> includes (compact n) (kwNorm k) = true) /\
  (forall d k, In k (configured d) -> kwNorm k <> []) /\
  (forall raw1 raw2 : option jsstring,
     compact (normalizeName raw1) = compact (normalizeName raw2) ->
     candidates (debugAnalyze raw1) = candidates (debugAnalyze raw2) /\
     chosen (debugAnalyze raw1) = chosen (debugAnalyze raw2) /\
     topScore (debugAnalyze raw1) = topScore (debugAnalyze raw2) /\
     diagnosis (predictFromImageName raw1) = diagnosis (predictFromImageName raw2) /\
     confidence (predictFromImageName raw1) = confidence (predictFromImageName raw2)).
Proof.
  split; [| split; [| split]].
  - intros raw k n Hk. subst n. rewrite check_checkCompact. unfold checkCompact.
    apply truthy_true in Hk. now rewrite Hk.
  - intros raw k n H. subst n.
    destruct (normalizeName_shape raw) as (Ec & Et). rewrite Ec, Et in *.
    rewrite <- (kwToken_compact _ _ H). now apply token_in_compact.
  - exact configured_nonempty.
  - intros raw1 raw2 E.
    assert (candidates (debugAnalyze raw1) = candidates (debugAnalyze raw2)) as Hc.
    { rewrite !candidates_eq. apply map_ext. intros d.
      now rewrite (matchOf_compact raw1 raw2 d E). }
    assert (chosen (debugAnalyze raw1) = chosen (debugAnalyze raw2)) as Hch
      by (rewrite !chosen_eq; now rewrite Hc).
    destruct (prediction_fields raw1) as (Hd1 & _ & _ & Hf1).
    destruct (prediction_fields raw2) as (Hd2 & _ & _ & Hf2).
    repeat split.
    + exact Hc.
    + exact Hch.
    + rewrite !topScore_eq, Hch. now rewrite (matchOf_compact raw1 raw2 _ E).
    + congruence.
    + rewrite Hf1, Hf2, Hd1, Hd2, Hc, Hch. reflexivity.
Qed.

(** ** Confidence *)

Ltac grid_cases H :=
  unfold grid in H; simpl in H;
  repeat (destruct H as [<- | H]; [| try contradiction]).

(** On every reachable score the confidence is a whole number of
    hundredths between 55 and 98. *)
Lemma grid_confidence (p : nat * nat) :
  In p grid ->
  exists n : Z,
    (55 <= n <= 98)%Z /\
    scoreToConfidence (scoreAt p) = (ofZ n / 100)%float /\
    (0.55 <=? scoreToConfidence (scoreAt p))%float = true /\
    (scoreToConfidence (scoreAt p) <=? 0.98)%float = true.
Proof.
  intros H. exists (hundredths (scoreAt p)).
  grid_cases H;
    (split; [vm_compute; split; discriminate |]);
    (split; [vm_compute; reflexivity |]);
    split; vm_compute; reflexivity.
Qed.

(** C5: the confidence of every result is a whole number of hundredths,
    between 0.55 and 0.98. *)
Theorem confidence_in_range (raw : option jsstring) :
  let c := confidence (predictFromImageName raw) in
  (0.55 <=? c)%float = true /\ (c <=? 0.98)%float = true /\
  exists n : Z, (55 <= n <= 98)%Z /\ c = (ofZ n / 100)%float.
Proof.
  cbv zeta. destruct (prediction_fields raw) as (_ & _ & _ & ->).
  rewrite scoreIn_candidates.
  destruct (score_reachable (normalizeName raw)
              (diagnosis (predictFromImageName raw))) as (p & Hp & E).
  fold (matchOf raw (diagnosis (predictFromImageName raw))) in E. rewrite E.
  destruct (grid_confidence Hp) as (n & Hn & Ec & Hlo & Hhi).
  repeat split; auto. now exists n.
Qed.

(** ** The Healthy fall-back *)

Lemma chosen_without_candidates (raw : option jsstring) :
  (forall d, d <> Healthy -> strongMatches (matchOf raw d) = []) ->
  chosen (debugAnalyze raw) = Healthy.
Proof.
  intros Hnone. rewrite chosen_eq.
  destruct (diseaseCandidatesOf (candidates (debugAnalyze raw))) as [| x l] eqn:E;
    [reflexivity | exfalso].
  assert (In x (diseaseCandidatesOf (candidates (debugAnalyze raw)))) as Hx
    by (rewrite E; now left).
  apply in_diseaseCandidates in Hx as (d & _ & Hd & Hs).
  apply Hs, Hnone, Hd.
Qed.

Lemma score_without_matches (raw : option jsstring) (d : Disease) :
  strongMatches (matchOf raw d) = [] -> weakMatches (matchOf raw d) = [] ->
  score (matchOf raw d) = 0%float.
Proof.
  intros Hs Hw. unfold matchOf in *.
  destruct (analyzeDisease_spec (normalizeName raw) d) as (_ & _ & ->).
  rewrite Hs, Hw. reflexivity.
Qed.

(** C1, as the code has it: when no category other than Healthy has a
    strong match, the diagnosis is Healthy and the confidence is the one of
    Healthy's own score; it is 0.55 when no Healthy keyword matches
    either. *)
Theorem healthy_fallback (raw : option jsstring) :
  (forall d, d <> Healthy -> strongMatches (matchOf raw d) = []) ->
  let r := predictFromImageName raw in
  diagnosis r = Healthy /\
  confidence r = scoreToConfidence (score (matchOf raw Healthy)) /\
  (strongMatches (matchOf raw Healthy) = [] ->
   weakMatches (matchOf raw Healthy) = [] ->
   confidence r = 0.55%float).
Proof.
  intros Hnone. cbv zeta.
  destruct (prediction_fields raw) as (Hd & _ & _ & Hc).
  assert (diagnosis (predictFromImageName raw) = Healthy) as Ed
    by (rewrite Hd; now apply chosen_without_candidates).
  rewrite Hc, Ed, scoreIn_candidates. repeat split.
  intros Hs Hw. now rewrite (score_without_matches _ _ Hs Hw).
Qed.

(** C1 as stated fails: "healthy.jpg" has no strong match outside Healthy
    and is diagnosed Healthy, with confidence 0.69. *)
Lemma healthy_fallback_not_always_055 :
  ~ (forall raw : option jsstring,
       (forall d, d <> Healthy -> strongMatches (matchOf raw d) = []) ->
       diagnosis (predictFromImageName raw) = Healthy /\
       confidence (predictFromImageName raw) = 0.55%float).
Proof.
  intros H. destruct (H (Some (lit "healthy.jpg"))) as (_ & Hc).
  - intros d Hd. destruct d; try reflexivity. congruence.
  - apply (f_equal (fun x => (x =? 0.55)%float)) in Hc.
    vm_compute in Hc. discriminate.
Qed.

(** ** Scenario A *)

(** C2, as the code has it: for "leaf_spot_01.png" five strong keywords of
    Leaf Spot match, the diagnosis is Leaf Spot with score 5, and the
    confidence is 0.98; a score of exactly 1 maps to 0.69. *)
Theorem leaf_spot_scenario :
  let raw := Some (lit "leaf_spot_01.png") in
  let r := classify (lit "leaf_spot_01.png") in
  tokens (normalizeName raw) = map lit ["leaf"; "spot"; "01"; "png"] /\
  compact (normalizeName raw) = lit "leafspot01png" /\
  strongMatches (matchOf raw LeafSpot)
    = map lit ["leafspot"; "leaf-spot"; "leaf_spot"; "leaf spot"; "spot"] /\
  diagnosis r = LeafSpot /\
  score (matchOf raw LeafSpot) = 5%float /\
  (1 <=? score (matchOf raw LeafSpot))%float = true /\
  confidence r = 0.98%float /\
  scoreToConfidence 1 = 0.69%float.
Proof. cbv zeta. repeat split; vm_compute; reflexivity. Qed.

(** C2 as stated fails: the confidence returned for "leaf_spot_01.png" is
    not within 0.05 of 0.70. *)
Lemma leaf_spot_confidence_not_070 :
  ~ (abs (confidence (classify (lit "leaf_spot_01.png")) - 0.70)
     <=? 0.05)%float = true.
Proof. vm_compute. discriminate. Qed.

(** ** The base name *)

Lemma takeWhile_app (p : unit16 -> bool) (a b : jsstring) :
  forallb p a = true -> takeWhile p (a ++ b) = a ++ takeWhile p b.
Proof.
  induction a as [| c a IH]; simpl; [reflexivity |].
  intros H. apply andb_true_iff in H as (-> & H). f_equal. auto.
Qed.

Lemma decodeLoop_plain (fuel : nat) (s : jsstring) :
  (List.length s <= fuel)%nat ->
  forallb (fun c => negb (c =? 37)%N) s = true ->
  decodeLoop fuel s = Some s.
Proof.
  revert fuel. induction s as [| c s IH]; intros fuel Hf Hs.
  - destruct fuel; reflexivity.
  - simpl in Hs. apply andb_true_iff in Hs as (Hc & Hs).
    apply negb_true_iff in Hc.
    destruct fuel as [| fuel]; simpl in Hf; [lia |].
    cbn [decodeLoop]. rewrite Hc, IH by (auto; lia). reflexivity.
Qed.

Lemma decode_plain (s : jsstring) :
  forallb (fun c => negb (c =? 37)%N) s = true ->
  decodeURIComponent s = Some s.
Proof. intros H. apply decodeLoop_plain; auto. Qed.

(** The last segment of a path that ends with a file name. *)
Lemma basename_file (dir file : jsstring) :
  file <> [] -> forallb (fun c => negb (isSlash c)) file = true ->
  basename (dir ++ 47%N :: file) = file /\ basename file = file.
Proof.
  intros Hne Hf. unfold basename.
  assert (dropWhile isSlash (rev file ++ 47%N :: rev dir) = rev file ++ 47%N :: rev dir
          /\ dropWhile isSlash (rev file) = rev file) as (E1 & E2).
  { rewrite <- forallb_rev in Hf.
    destruct (rev file) as [| c r] eqn:Er.
    - apply (f_equal (@rev _)) in Er. rewrite rev_involutive in Er. now subst.
    - simpl in Hf. apply andb_true_iff in Hf as (Hc & _).
      apply negb_true_iff in Hc. simpl. now rewrite Hc. }
  rewrite <- forallb_rev in Hf. split.
  - replace (rev (dir ++ 47%N :: file)) with (rev file ++ 47%N :: rev dir)
      by (rewrite rev_app_distr; simpl; now rewrite <- app_assoc).
    rewrite E1, (takeWhile_app _ _ _ Hf). simpl.
    now rewrite app_nil_r, rev_involutive.
  - rewrite E2, (takeWhile_all _ _ Hf). apply rev_involutive.
Qed.

(** Cutting at the first [?] and then at the first [#] removes a query
    string or fragment that follows text free of both. *)
Lemma strip_suffix (body tail : jsstring) :
  forallb noQueryChar body = true -> isSuffix tail ->
  beforeFirst 35%N (beforeFirst 63%N (body ++ tail)) = body.
Proof.
  intros Hb Ht. unfold beforeFirst.
  assert (forallb (fun c => negb (c =? 63)%N) body = true) as H63
    by (eapply forallb_impl; [| exact Hb]; intros c H;
        unfold noQueryChar in H; now apply andb_true_iff in H).
  assert (forallb (fun c => negb (c =? 35)%N) body = true) as H35
    by (eapply forallb_impl; [| exact Hb]; intros c H;
        unfold noQueryChar in H; now apply andb_true_iff in H).
  rewrite (takeWhile_app _ _ _ H63), (takeWhile_app _ _ _ H35).
  destruct tail as [| c t]; simpl; [now rewrite app_nil_r |].
  destruct Ht as [-> | ->]; simpl; now rewrite app_nil_r.
Qed.

Lemma base_eq (raw : jsstring) :
  raw <> [] ->
  base (normalizeName (Some raw))
  = match decodeURIComponent (basename (beforeFirst 35%N (beforeFirst 63%N raw))) with
    | Some b => b
    | None => basename (beforeFirst 35%N (beforeFirst 63%N raw))
    end.
Proof. destruct raw; [congruence | reflexivity]. Qed.

(** C7, as the code has it: the text from the first [?] and from the first
    [#] on is cut before the last path segment is taken.  The base of
    "a/b/leaf_spot.png?x=1#y" is "leaf_spot.png", and the base is the file
    name whenever neither character occurs in the directory part; when one
    does, as in "weird?dir/leaf_spot.png", the base is the last segment of
    what precedes it. *)
Theorem base_strips_then_segments :
  base (normalizeName (Some (lit "a/b/leaf_spot.png?x=1#y"))) = lit "leaf_spot.png" /\
  base (normalizeName (Some (lit "weird?dir/leaf_spot.png"))) = lit "weird" /\
  (forall dir file tail : jsstring,
     forallb noQueryChar dir = true ->
     file <> [] -> forallb plainChar file = true ->
     isSuffix tail ->
     base (normalizeName (Some (dir ++ 47%N :: file ++ tail))) = file /\
     base (normalizeName (Some (file ++ tail))) = file).
Proof.
  split; [reflexivity |]. split; [reflexivity |].
  intros dir file tail Hdir Hne Hfile Htail.
  assert (forallb noQueryChar file = true) as Hq.
  { eapply forallb_impl; [| exact Hfile]. intros c H.
    unfold plainChar, noQueryChar in *.
    repeat rewrite ?andb_true_iff in *. tauto. }
  assert (forallb (fun c => negb (isSlash c)) file = true) as Hs.
  { eapply forallb_impl; [| exact Hfile]. intros c H.
    unfold plainChar, isSlash in *.
    repeat rewrite ?andb_true_iff in *. tauto. }
  assert (forallb (fun c => negb (c =? 37)%N) file = true) as Hp.
  { eapply forallb_impl; [| exact Hfile]. intros c H.
    unfold plainChar in *.
    repeat rewrite ?andb_true_iff in *. tauto. }
  destruct (basename_file dir Hne Hs) as (B1 & B2).
  split.
  - rewrite base_eq by (destruct dir; discriminate).
    replace (dir ++ 47%N :: file ++ tail) with ((dir ++ 47%N :: file) ++ tail)
      by (now rewrite <- app_assoc).
    rewrite strip_suffix; [| | exact Htail].
    + now rewrite B1, (decode_plain _ Hp).
    + rewrite forallb_app. simpl. now rewrite Hdir, Hq.
  - rewrite base_eq by (destruct file; [congruence | discriminate]).
    rewrite (strip_suffix _ _ Hq Htail).
    now rewrite B2, (decode_plain _ Hp).
Qed.

(** C7 as stated fails: with a [?] in a directory component the base is
    not the file's name, which taking the segment first would give. *)
Lemma base_with_query_in_directory :
  segmentThenStrip (lit "weird?dir/leaf_spot.png") = lit "leaf_spot.png" /\
  base (normalizeName (Some (lit "weird?dir/leaf_spot.png")))
  <> lit "leaf_spot.png".
Proof. split; [reflexivity | vm_compute; discriminate]. Qed.

(** ** Blank names *)

Lemma replaceRuns_none (cls : unit16 -> bool) (by_ : jsstring) (b : bool)
    (s : jsstring) :
  forallb (fun c => negb (cls c)) s = true -> replaceRuns cls by_ b s = s.
Proof.
  revert b. induction s as [| c s IH]; intros b; simpl; [reflexivity |].
  intros H. apply andb_true_iff in H as (Hc & Hs).
  apply negb_true_iff in Hc. rewrite Hc. f_equal. auto.
Qed.

Lemma toLowerCase_spaces (s : jsstring) :
  forallb isSpace s = true -> toLowerCase s = s.
Proof.
  unfold toLowerCase. induction s as [| c s IH]; simpl; [reflexivity |].
  intros H. apply andb_true_iff in H as (Hc & Hs).
  rewrite (space_lower _ Hc), IH by exact Hs. reflexivity.
Qed.

Lemma cleanName_spaces (s : jsstring) :
  forallb isSpace s = true -> cleanName s = [].
Proof.
  intros H. unfold cleanName, replaceAll.
  rewrite (toLowerCase_spaces _ H).
  rewrite (replaceRuns_none isSep).
  - rewrite (replaceRuns_none notAlnumSpace).
    + unfold trim. now rewrite (dropWhile_all _ _ H).
    + eapply forallb_impl; [| exact H]. intros c Hc.
      unfold notAlnumSpace. now rewrite Hc, orb_true_r.
  - eapply forallb_impl; [| exact H]. intros c Hc.
    now rewrite (space_not_sep _ Hc).
Qed.

Lemma spaces_base (s : jsstring) :
  forallb isSpace s = true -> base (normalizeName (Some s)) = s.
Proof.
  intros H. destruct (list_eq_dec N.eq_dec s []) as [-> | Hne]; [reflexivity |].
  assert (forallb plainChar s = true) as Hp.
  { eapply forallb_impl; [| exact H]. intros c Hc.
    unfold plainChar.
    repeat rewrite ?andb_true_iff, ?negb_true_iff, ?N.eqb_neq. class_arith. }
  assert (forallb noQueryChar s = true) as Hq.
  { eapply forallb_impl; [| exact Hp]. intros c Hc.
    unfold plainChar, noQueryChar in *.
    repeat rewrite ?andb_true_iff in *. tauto. }
  assert (forallb (fun c => negb (isSlash c)) s = true) as Hs.
  { eapply forallb_impl; [| exact Hp]. intros c Hc.
    unfold plainChar, isSlash in *.
    repeat rewrite ?andb_true_iff in *. tauto. }
  assert (forallb (fun c => negb (c =? 37)%N) s = true) as H37.
  { eapply forallb_impl; [| exact Hp]. intros c Hc.
    unfold plainChar in *.
    repeat rewrite ?andb_true_iff in *. tauto. }
  rewrite (base_eq Hne).
  pose proof (strip_suffix s [] Hq I) as E. rewrite app_nil_r in E. rewrite E.
  destruct (basename_file [] Hne Hs) as (_ & ->).
  now rewrite (decode_plain _ H37).
Qed.

Lemma normalized_eq (raw : option jsstring) :
  normalized (normalizeName raw) = cleanName (base (normalizeName raw)).
Proof. destruct raw as [[| c s] |]; reflexivity. Qed.

Lemma blank_fields (raw : option jsstring) :
  blank raw ->
  let n := normalizeName raw in
  normalized n = [] /\ compact n = [] /\ tokens n = [].
Proof.
  intros H. cbv zeta.
  assert (normalized (normalizeName raw) = []) as En.
  { rewrite normalized_eq. destruct raw as [s |]; [| reflexivity].
    rewrite (spaces_base _ H). now apply cleanName_spaces. }
  destruct (normalizeName_shape raw) as (-> & ->). rewrite En.
  repeat split.
Qed.

Lemma no_match_without_text (n : NormalizedName) (d : Disease) :
  compact n = [] -> tokens n = [] ->
  analyzeDisease n d = mkMatch [] [] 0%float.
Proof.
  intros Ec Et. unfold analyzeDisease. rewrite Ec, Et.
  destruct d; vm_compute; reflexivity.
Qed.

(** C8, as the code has it: a null, empty or white-space-only name
    normalizes to empty [normalized], [compact] and [tokens]; [base] is
    empty for a null or empty name and is the name itself when it is made
    of white space; no keyword matches in any category, and the diagnosis
    is Healthy. *)
Theorem blank_name_is_healthy (raw : option jsstring) :
  blank raw ->
  let n := normalizeName raw in
  base n = match raw with Some s => s | None => [] end /\
  normalized n = [] /\ compact n = [] /\ tokens n = [] /\
  (forall d, matchOf raw d = mkMatch [] [] 0%float) /\
  diagnosis (predictFromImageName raw) = Healthy.
Proof.
  intros H. cbv zeta.
  destruct (blank_fields raw H) as (En & Ec & Et).
  assert (forall d, matchOf raw d = mkMatch [] [] 0%float) as Hm
    by (intros d; now apply no_match_without_text).
  repeat split; auto.
  - destruct raw as [s |]; [now apply spaces_base | reflexivity].
  - destruct (prediction_fields raw) as (-> & _).
    apply chosen_without_candidates. intros d _. now rewrite Hm.
Qed.

(** C8 as stated fails: the base of a white-space-only name is the name. *)
Lemma blank_base_not_empty :
  ~ (forall raw : option jsstring, blank raw -> base (normalizeName raw) = []).
Proof.
  intros H. specialize (H (Some (lit "   ")) eq_refl). discriminate H.
Qed.

(** ** The theorems at concrete inputs *)

Lemma healthy_fallback_witness :
  let raw := Some (lit "plant_healthy_control.jpg") in
  (forall d, d <> Healthy -> strongMatches (matchOf raw d) = []) /\
  diagnosis (predictFromImageName raw) = Healthy /\
  confidence (predictFromImageName raw) = 0.84%float.
Proof.
  cbv zeta.
  assert (forall d, d <> Healthy ->
            strongMatches (matchOf (Some (lit "plant_healthy_control.jpg")) d) = [])
    as H by (intros d Hd; destruct d; try reflexivity; congruence).
  split; [exact H |].
  destruct (healthy_fallback (Some (lit "plant_healthy_control.jpg")) H)
    as (Hd & Hc & _).
  split; [exact Hd |]. rewrite Hc. vm_compute. reflexivity.
Defined.

Lemma selector_picks_first_of_best_witness :
  let raw := Some (lit "rust_spot.png") in
  eligible raw AloeRust /\ eligible raw LeafSpot /\
  (score (matchOf raw LeafSpot) =? score (matchOf raw AloeRust))%float = true /\
  chosen (debugAnalyze raw) = AloeRust.
Proof.
  cbv zeta.
  assert (eligible (Some (lit "rust_spot.png")) AloeRust) as Ha
    by (split; [discriminate | vm_compute; discriminate]).
  assert (eligible (Some (lit "rust_spot.png")) LeafSpot) as Hl
    by (split; [discriminate | vm_compute; discriminate]).
  split; [exact Ha |]. split; [exact Hl |].
  split; [vm_compute; reflexivity |].
  destruct (selector_picks_first_of_best (Some (lit "rust_spot.png")))
    as (_ & _ & H & _).
  destruct (H (ex_intro _ AloeRust Ha)) as (_ & Huniq).
  symmetry. apply Huniq. split; [exact Ha |]. split.
  - intros d _. destruct d; vm_compute; reflexivity.
  - intros d (Hd & _) _. destruct d; simpl; lia.
Defined.

Lemma matched_by_token_or_substring_witness :
  let n := normalizeName (Some (lit "photo_leafrust.jpg")) in
  kwNorm (lit "rust") <> [] /\
  In (lit "rust") (configured AloeRust) /\
  ~ In (cleanName (lit "rust")) (tokens n) /\
  check (tokens n) (compact n) (lit "rust") = true /\
  In (lit "rust")
     (strongMatches (matchOf (Some (lit "photo_leafrust.jpg")) AloeRust)
      ++ weakMatches (matchOf (Some (lit "photo_leafrust.jpg")) AloeRust)).
Proof.
  cbv zeta.
  assert (kwNorm (lit "rust") <> []) as Hk by (vm_compute; discriminate).
  assert (In (lit "rust") (configured AloeRust)) as Hc by (vm_compute; auto).
  destruct matched_by_token_or_substring as (Hgen & Hconf & _).
  split; [exact Hk |]. split; [exact Hc |].
  split; [vm_compute; intuition discriminate |]. split.
  - apply (proj1 (Hgen (Some (lit "photo_leafrust.jpg")) (lit "rust") Hk)).
    right. vm_compute. reflexivity.
  - apply (Hconf (Some (lit "photo_leafrust.jpg")) AloeRust (lit "rust") Hc).
    right. vm_compute. reflexivity.
Defined.

Lemma base_strips_then_segments_witness :
  forallb noQueryChar (lit "a/b") = true /\
  lit "leaf_spot.png" <> [] /\
  forallb plainChar (lit "leaf_spot.png") = true /\
  isSuffix (lit "?x=1#y") /\
  base (normalizeName
          (Some (lit "a/b" ++ 47%N :: lit "leaf_spot.png" ++ lit "?x=1#y")))
  = lit "leaf_spot.png".
Proof.
  assert (lit "leaf_spot.png" <> []) as Hne by (vm_compute; discriminate).
  assert (isSuffix (lit "?x=1#y")) as Ht by (vm_compute; auto).
  destruct base_strips_then_segments as (_ & _ & H).
  split; [reflexivity |]. split; [exact Hne |].
  split; [reflexivity |]. split; [exact Ht |].
  apply (H (lit "a/b") (lit "leaf_spot.png") (lit "?x=1#y")
           eq_refl Hne eq_refl Ht).
Defined.

Lemma blank_name_is_healthy_witness :
  blank (Some (lit "   ")) /\
  base (normalizeName (Some (lit "   "))) = lit "   " /\
  tokens (normalizeName (Some (lit "   "))) = [] /\
  diagnosis (predictFromImageName (Some (lit "   "))) = Healthy.
Proof.
  assert (blank (Some (lit "   "))) as Hb by reflexivity.
  destruct (blank_name_is_healthy (Some (lit "   ")) Hb)
    as (H1 & _ & _ & H4 & _ & H6).
  repeat split; assumption.
Defined.

Lemma severity_follows_diagnosis_witness :
  diagnosis (predictFromImageName (Some (lit "sunburn.png"))) = Sunburn /\
  isHealthy (predictFromImageName (Some (lit "sunburn.png"))) = false /\
  severity (predictFromImageName (Some (lit "sunburn.png"))) = Some low /\
  Info.severity (diseaseInfo Sunburn) <> None.
Proof.
  destruct (severity_follows_diagnosis (Some (lit "sunburn.png")))
    as (_ & Hs & _ & Hd).
  split; [reflexivity |]. split; [reflexivity |]. split; [reflexivity |].
  apply Hd. discriminate.
Defined.

Lemma token_branch_redundant_witness :
  let raw1 := Some (lit "leaf_spot.png") in
  let raw2 := Some (lit "LEAF-SPOT.PNG") in
  tokens (normalizeName raw1) = map lit ["leaf"; "spot"; "png"] /\
  compact (normalizeName raw1) = compact (normalizeName raw2) /\
  diagnosis (predictFromImageName raw1) = diagnosis (predictFromImageName raw2) /\
  confidence (predictFromImageName raw1) = confidence (predictFromImageName raw2) /\
  kwNorm (lit "spot") <> [] /\
  check (tokens (normalizeName raw1)) (compact (normalizeName raw1)) (lit "spot") = true.
Proof.
  cbv zeta.
  assert (compact (normalizeName (Some (lit "leaf_spot.png")))
          = compact (normalizeName (Some (lit "LEAF-SPOT.PNG")))) as E
    by (vm_compute; reflexivity).
  assert (kwNorm (lit "spot") <> []) as Hk by (vm_compute; discriminate).
  destruct token_branch_redundant as (Hchk & _ & _ & Hsame).
  destruct (Hsame _ _ E) as (_ & _ & _ & Hd & Hc).
  split; [reflexivity |]. split; [exact E |]. split; [exact Hd |].
  split; [exact Hc |]. split; [exact Hk |].
  apply (Hchk (Some (lit "leaf_spot.png")) (lit "spot") Hk).
  vm_compute. reflexivity.
Defined.

(* ================================================================== *)
(** * Further properties of the classifier *)
(* ================================================================== *)

Import Further.

(** ** White space and pieces *)

Lemma dropWhile_suffix (p : unit16 -> bool) (s : jsstring) :
  exists pre, s = pre ++ dropWhile p s /\ forallb p pre = true.
Proof.
  induction s as [| c s IH]; simpl.
  - now exists [].
  - destruct (p c) eqn:E.
    + destruct IH as (pre & Hs & Hp). exists (c :: pre). simpl.
      rewrite E, Hp. split; [now f_equal | reflexivity].
    + now exists [].
Qed.

Lemma dropWhile_head (p : unit16 -> bool) (s : jsstring) :
  match dropWhile p s with [] => True | c :: _ => p c = false end.
Proof.
  induction s as [| c s IH]; simpl; [exact I |].
  destruct (p c) eqn:E; [exact IH | exact E].
Qed.

Lemma dropWhile_fix (p : unit16 -> bool) (s : jsstring) :
  match s with [] => True | c :: _ => p c = false end -> dropWhile p s = s.
Proof. destruct s as [| c s]; simpl; [reflexivity |]. now intros ->. Qed.

Lemma forallb_dropWhile (q p : unit16 -> bool) (s : jsstring) :
  forallb q s = true -> forallb q (dropWhile p s) = true.
Proof.
  induction s as [| c s IH]; simpl; [reflexivity |].
  intros H. apply andb_true_iff in H as [Hc Hs].
  destruct (p c); [auto | simpl; now rewrite Hc, Hs].
Qed.

Lemma forallb_trim (q : unit16 -> bool) (s : jsstring) :
  forallb q s = true -> forallb q (trim s) = true.
Proof.
  intros H. unfold trim. rewrite forallb_rev. apply forallb_dropWhile.
  rewrite forallb_rev. now apply forallb_dropWhile.
Qed.

Lemma trim_trimmed (s : jsstring) : trimmed (trim s) = true.
Proof.
  unfold trim, trimmed. rewrite rev_involutive.
  set (a := dropWhile isSpace s).
  pose proof (dropWhile_head isSpace s) as Ha. fold a in Ha.
  pose proof (dropWhile_head isSpace (rev a)) as Hb.
  destruct (dropWhile_suffix isSpace (rev a)) as (pre & Hs & _).
  set (b := dropWhile isSpace (rev a)) in *.
  apply andb_true_iff. split.
  - destruct b as [| y b']; [reflexivity |].
    assert (a = rev (y :: b') ++ rev pre) as Ea
      by (rewrite <- rev_app_distr, <- Hs; now rewrite rev_involutive).
    destruct (rev (y :: b')) as [| z r] eqn:Er.
    + apply (f_equal (@rev _)) in Er. rewrite rev_involutive in Er. discriminate.
    + rewrite Ea in Ha. simpl in Ha. now rewrite Ha.
  - destruct b as [| y b']; [reflexivity |]. now rewrite Hb.
Qed.

Lemma trimmed_trim (s : jsstring) : trimmed s = true -> trim s = s.
Proof.
  unfold trimmed, trim. intros H. apply andb_true_iff in H as [H1 H2].
  rewrite (dropWhile_fix isSpace s).
  - rewrite (dropWhile_fix isSpace (rev s)); [apply rev_involutive |].
    destruct (rev s); [exact I | now apply negb_true_iff].
  - destruct s; [exact I | now apply negb_true_iff].
Qed.

Lemma splitRuns_forallb (q cls : unit16 -> bool) (b : bool) (s t : jsstring) :
  forallb q s = true -> In t (splitRuns cls b s) -> forallb q t = true.
Proof.
  revert b t. induction s as [| c s IH]; intros b t H Hin; simpl in *.
  - destruct Hin as [<- | []]. reflexivity.
  - apply andb_true_iff in H as [Hc Hs].
    destruct (cls c).
    + destruct b; [now apply (IH true) |].
      destruct Hin as [<- | Hin]; [reflexivity | now apply (IH true)].
    + destruct (splitRuns cls false s) as [| piece rest] eqn:E.
      * destruct Hin as [<- | []]. simpl. now rewrite Hc.
      * destruct Hin as [<- | Hin].
        -- simpl. rewrite Hc. apply (IH false); [exact Hs |]. rewrite E. now left.
        -- apply (IH false); [exact Hs |]. rewrite E. now right.
Qed.

Lemma concat_truthy (l : list jsstring) :
  List.concat (filter truthy l) = List.concat l.
Proof.
  induction l as [| t l IH]; simpl; [reflexivity |].
  destruct t as [| c t]; simpl; [exact IH | now rewrite IH].
Qed.

Lemma cleanName_chars (s : jsstring) :
  forallb isAlnumSpace (cleanName s) = true.
Proof.
  unfold cleanName. apply forallb_trim. rewrite replaceAll_delete.
  apply forallb_forall. intros c Hc. apply filter_In in Hc as [_ Hc].
  unfold notAlnumSpace in Hc. now rewrite negb_involutive in Hc.
Qed.

Lemma compactOf_chars (nz : jsstring) :
  forallb isAlnumSpace nz = true -> forallb isAlnum (compactOf nz) = true.
Proof.
  intros H. unfold compactOf. rewrite replaceAll_delete.
  apply forallb_forall. intros c Hc. apply filter_In in Hc as [Hin Hc].
  rewrite forallb_forall in H. specialize (H c Hin). unfold isAlnumSpace in H.
  apply negb_true_iff in Hc. rewrite Hc, orb_false_r in H. exact H.
Qed.

Lemma tokensOf_concat (nz : jsstring) :
  List.concat (tokensOf nz) = compactOf nz.
Proof.
  unfold tokensOf, compactOf, splitOn. rewrite concat_truthy, splitRuns_concat.
  now rewrite replaceAll_delete.
Qed.

Lemma token_alnum (nz t : jsstring) :
  forallb isAlnumSpace nz = true -> In t (tokensOf nz) ->
  t <> [] /\ forallb isAlnum t = true.
Proof.
  intros H Hin. pose proof (token_spaceless nz t Hin) as Hs.
  unfold tokensOf in Hin. apply filter_In in Hin as [Hin Ht].
  split; [now apply truthy_true |].
  pose proof (splitRuns_forallb isAlnumSpace isSpace false nz t H Hin) as Ha.
  apply forallb_forall. intros c Hc.
  rewrite forallb_forall in Ha, Hs. specialize (Ha c Hc). specialize (Hs c Hc).
  unfold isAlnumSpace in Ha. apply negb_true_iff in Hs.
  now rewrite Hs, orb_false_r in Ha.
Qed.

(** X1: whatever the input, [normalized] holds only lower-case letters,
    digits and white space, with no white space at either end; [compact]
    holds only lower-case letters and digits; every token is non-empty and
    made of lower-case letters and digits; the tokens concatenated are the
    compact string, so there is no token exactly when it is empty. *)
Theorem normalized_fields_wellformed (raw : option jsstring) :
  let n := normalizeName raw in
  forallb isAlnumSpace (normalized n) = true /\
  trimmed (normalized n) = true /\
  forallb isAlnum (compact n) = true /\
  (forall t, In t (tokens n) -> t <> [] /\ forallb isAlnum t = true) /\
  List.concat (tokens n) = compact n /\
  (tokens n = [] <-> compact n = []).
Proof.
  intros n. subst n.
  destruct (normalizeName_shape raw) as (Ec & Et).
  pose proof (normalized_eq raw) as En.
  assert (forallb isAlnumSpace (normalized (normalizeName raw)) = true) as Hc
    by (rewrite En; apply cleanName_chars).
  assert (List.concat (tokens (normalizeName raw)) = compact (normalizeName raw)) as Hcat
    by (rewrite Ec, Et; apply tokensOf_concat).
  assert (forall t, In t (tokens (normalizeName raw)) -> t <> [] /\ forallb isAlnum t = true) as Htok
    by (intros t; rewrite Et; now apply token_alnum).
  split; [exact Hc |]. split.
  { rewrite En. unfold cleanName. apply trim_trimmed. }
  split; [rewrite Ec; now apply compactOf_chars |].
  split; [exact Htok |]. split; [exact Hcat |].
  split.
  - intros E. rewrite <- Hcat, E. reflexivity.
  - intros E. destruct (tokens (normalizeName raw)) as [| t ts] eqn:Ets; [reflexivity |].
    destruct (Htok t (or_introl eq_refl)) as (Hne & _).
    rewrite <- Hcat in E. simpl in E. apply app_eq_nil in E as [E _]. contradiction.
Qed.

(** ** The compact string *)

Lemma compact_letters (raw : option jsstring) :
  compact (normalizeName raw) = lettersAndDigits (base (normalizeName raw)).
Proof.
  destruct (normalizeName_shape raw) as (Ec & _).
  rewrite Ec, normalized_eq. unfold compactOf, cleanName, lettersAndDigits.
  rewrite replaceAll_delete, trim_filter, compact_of_clean, replaceAll_keep_alnum.
  unfold replaceAll. apply compact_of_separated.
Qed.

Lemma plain_parts (s : jsstring) :
  forallb plainChar s = true ->
  forallb noQueryChar s = true /\
  forallb (fun c => negb (isSlash c)) s = true /\
  forallb (fun c => negb (c =? 37)%N) s = true.
Proof.
  intros Hp. repeat split; (eapply forallb_impl; [| exact Hp]); intros c Hc;
    unfold plainChar, noQueryChar, isSlash in *;
    repeat rewrite ?andb_true_iff in *; tauto.
Qed.

Lemma plain_base (s : jsstring) :
  forallb plainChar s = true -> base (normalizeName (Some s)) = s.
Proof.
  intros Hp. destruct (list_eq_dec N.eq_dec s []) as [-> | Hne]; [reflexivity |].
  destruct (plain_parts s Hp) as (Hq & Hs & H37).
  rewrite (base_eq Hne).
  pose proof (strip_suffix s [] Hq I) as E. rewrite app_nil_r in E. rewrite E.
  destruct (basename_file [] Hne Hs) as (_ & ->).
  now rewrite (decode_plain _ H37).
Qed.

Lemma candidates_compact (raw1 raw2 : option jsstring) :
  compact (normalizeName raw1) = compact (normalizeName raw2) ->
  candidates (debugAnalyze raw1) = candidates (debugAnalyze raw2).
Proof.
  intros E. rewrite !candidates_eq. apply map_ext. intros d.
  now rewrite (matchOf_compact raw1 raw2 d E).
Qed.

Lemma prediction_compact (raw1 raw2 : option jsstring) :
  compact (normalizeName raw1) = compact (normalizeName raw2) ->
  predictFromImageName raw1 = predictFromImageName raw2.
Proof.
  intros E. pose proof (candidates_compact raw1 raw2 E) as Hc.
  assert (chosen (debugAnalyze raw1) = chosen (debugAnalyze raw2)) as Hch
    by (rewrite !chosen_eq; now rewrite Hc).
  unfold predictFromImageName. cbv zeta. now rewrite Hc, Hch.
Qed.

Lemma spaceless_letters (s : jsstring) :
  forallb isAlnumSpace s = true ->
  filter (fun c => negb (isSpace c)) s = filter isAlnum s.
Proof.
  induction s as [| c s IH]; [reflexivity |]. simpl. intros H.
  apply andb_true_iff in H as [Hc Hs]. unfold isAlnumSpace in Hc.
  destruct (isSpace c) eqn:Es.
  - rewrite (space_not_alnum _ Es). cbn [negb]. auto.
  - rewrite orb_false_r in Hc. rewrite Hc. cbn [negb]. now rewrite IH.
Qed.

(** X2: the compact string is the sequence of ASCII letters and digits
    of the lower-cased base, in order: separators, punctuation, white
    space and every other character disappear; it is also what is left of
    [normalized] without its white space. *)
Theorem compact_is_letters_and_digits (raw : option jsstring) :
  let n := normalizeName raw in
  compact n = filter isAlnum (toLowerCase (base n)) /\
  compact n = filter isAlnum (normalized n).
Proof.
  intros n. subst n. split; [apply compact_letters |].
  destruct (normalizeName_shape raw) as (Ec & _). rewrite Ec.
  unfold compactOf. rewrite replaceAll_delete.
  apply spaceless_letters. rewrite normalized_eq. apply cleanName_chars.
Qed.

(** X3: two file names without [/], [?], [#] and [%] that have the same
    letters and digits once lower-cased get the same match records and the
    same prediction, whatever separators, punctuation, spaces or letter
    case they are written with. *)
Theorem same_letters_same_prediction (a b : jsstring) :
  forallb plainChar a = true -> forallb plainChar b = true ->
  lettersAndDigits a = lettersAndDigits b ->
  candidates (debugAnalyze (Some a)) = candidates (debugAnalyze (Some b)) /\
  predictFromImageName (Some a) = predictFromImageName (Some b).
Proof.
  intros Ha Hb E.
  assert (compact (normalizeName (Some a)) = compact (normalizeName (Some b))) as Ec
    by (rewrite !compact_letters, (plain_base a Ha), (plain_base b Hb); exact E).
  split; [now apply candidates_compact | now apply prediction_compact].
Qed.

Lemma same_letters_same_prediction_witness :
  forallb plainChar (lit "Leaf Spot (1).PNG") = true /\
  forallb plainChar (lit "leafspot1png") = true /\
  lettersAndDigits (lit "Leaf Spot (1).PNG") = lettersAndDigits (lit "leafspot1png") /\
  predictFromImageName (Some (lit "Leaf Spot (1).PNG"))
  = predictFromImageName (Some (lit "leafspot1png")).
Proof.
  split; [reflexivity |]. split; [reflexivity |]. split; [reflexivity |].
  apply (same_letters_same_prediction (lit "Leaf Spot (1).PNG") (lit "leafspot1png"));
    reflexivity.
Defined.

(** ** Idempotence *)

Lemma toLowerCase_fix (s : jsstring) :
  forallb isAlnumSpace s = true -> toLowerCase s = s.
Proof.
  induction s as [| c s IH]; [reflexivity |]. simpl. intros H.
  apply andb_true_iff in H as [Hc Hs]. unfold toLowerCase in *. simpl.
  rewrite (IH Hs).
  assert (lowerUnit c = [c]) as ->; [| reflexivity].
  unfold isAlnumSpace in Hc. apply orb_true_iff in Hc as [Hc | Hc];
    [| now apply space_lower].
  unfold lowerUnit.
  assert (inRange 65 90 c = false) as -> by class_arith.
  assert ((c =? 304)%N = false) as -> by class_arith.
  assert ((c =? 8490)%N = false) as -> by class_arith.
  reflexivity.
Qed.

Lemma cleanName_fix (s : jsstring) :
  forallb isAlnumSpace s = true -> trimmed s = true -> cleanName s = s.
Proof.
  intros Hc Ht. unfold cleanName. rewrite (toLowerCase_fix s Hc).
  unfold replaceAll. rewrite (replaceRuns_none isSep).
  - rewrite (replaceRuns_none notAlnumSpace); [now apply trimmed_trim |].
    eapply forallb_impl; [| exact Hc]. intros c H.
    unfold notAlnumSpace. now rewrite negb_involutive.
  - eapply forallb_impl; [| exact Hc]. intros c H. unfold isAlnumSpace in H.
    apply negb_true_iff. apply orb_true_iff in H as [H | H];
      [now apply alnum_not_sep | now apply space_not_sep].
Qed.

Lemma alnumSpace_plain (s : jsstring) :
  forallb isAlnumSpace s = true -> forallb plainChar s = true.
Proof.
  apply forallb_impl. intros c H. unfold isAlnumSpace, plainChar in *.
  repeat rewrite ?andb_true_iff, ?negb_true_iff, ?N.eqb_neq. class_arith.
Qed.

(** X4: normalizing an already normalized name changes nothing: given
    [normalized] as a file name, [normalizeName] returns it as the base
    and as the normalized form, with the same compact string and the same
    tokens. *)
Theorem normalizeName_idempotent (raw : option jsstring) :
  let n := normalizeName raw in
  let n' := normalizeName (Some (normalized n)) in
  base n' = normalized n /\ normalized n' = normalized n /\
  compact n' = compact n /\ tokens n' = tokens n.
Proof.
  intros n n'. subst n n'.
  assert (forallb isAlnumSpace (normalized (normalizeName raw)) = true) as Hc
    by (rewrite normalized_eq; apply cleanName_chars).
  assert (trimmed (normalized (normalizeName raw)) = true) as Ht
    by (rewrite normalized_eq; unfold cleanName; apply trim_trimmed).
  set (nz := normalized (normalizeName raw)) in *.
  pose proof (plain_base nz (alnumSpace_plain nz Hc)) as Eb.
  assert (normalized (normalizeName (Some nz)) = nz) as En
    by (rewrite normalized_eq, Eb; now apply cleanName_fix).
  destruct (normalizeName_shape (Some nz)) as (Ec' & Et').
  destruct (normalizeName_shape raw) as (Ec & Et). fold nz in Ec, Et.
  repeat split; [exact Eb | exact En | |]; congruence.
Qed.

(** ** Percent escapes *)

Lemma decodeLoop_skip (a s : jsstring) (fuel : nat) :
  forallb noPercent a = true ->
  decodeLoop (List.length a + fuel) (a ++ s) = option_map (app a) (decodeLoop fuel s).
Proof.
  induction a as [| c a IH]; intros H.
  - simpl. destruct (decodeLoop fuel s); reflexivity.
  - simpl in H. apply andb_true_iff in H as [Hc Ha].
    unfold noPercent in Hc. apply negb_true_iff in Hc.
    cbn [List.length Nat.add app decodeLoop]. rewrite Hc, (IH Ha).
    destruct (decodeLoop fuel s); reflexivity.
Qed.

Lemma decode_skip (a s : jsstring) :
  forallb noPercent a = true ->
  decodeURIComponent (a ++ s)
  = option_map (app a) (decodeLoop (List.length s) s).
Proof.
  intros H. unfold decodeURIComponent. rewrite length_app.
  now apply decodeLoop_skip.
Qed.

Lemma decodeLoop_ascii (fuel : nat) (s rest : jsstring) (b0 : N) :
  readOctet (37%N :: s) = Some (b0, rest) -> (b0 <? 128)%N = true ->
  decodeLoop (S fuel) (37%N :: s) = option_map (cons b0) (decodeLoop fuel rest).
Proof.
  intros Hr Hb. cbn [decodeLoop]. rewrite N.eqb_refl, Hr, Hb. reflexivity.
Qed.


Lemma decode_ascii (a b : jsstring) (h l : unit16) (x y : N) :
  forallb noPercent a = true -> forallb noPercent b = true ->
  hexDigit h = Some x -> hexDigit l = Some y -> (16 * x + y < 128)%N ->
  decodeURIComponent (a ++ 37%N :: h :: l :: b) = Some (a ++ (16 * x + y)%N :: b).
Proof.
  intros Ha Hb Hh Hl Hlt. rewrite (decode_skip _ _ Ha).
  cbn [List.length].
  rewrite (@decodeLoop_ascii _ (h :: l :: b) b (16 * x + y)%N).
  - rewrite decodeLoop_plain; [reflexivity | lia | exact Hb].
  - unfold readOctet. now rewrite Hh, Hl.
  - now apply N.ltb_lt.
Qed.

Lemma segment_whole (s : jsstring) :
  s <> [] -> forallb noQueryChar s = true ->
  forallb (fun c => negb (isSlash c)) s = true ->
  basename (beforeFirst 35%N (beforeFirst 63%N s)) = s.
Proof.
  intros Hne Hq Hs.
  pose proof (strip_suffix s [] Hq I) as E. rewrite app_nil_r in E. rewrite E.
  now destruct (basename_file [] Hne Hs) as (_ & ->).
Qed.

Lemma hexDigit_plain (h : unit16) (x : N) :
  hexDigit h = Some x -> noQueryChar h = true /\ isSlash h = false.
Proof.
  unfold hexDigit, noQueryChar, isSlash. intros H.
  destruct (inRange 48 57 h) eqn:E1; [| destruct (inRange 65 70 h) eqn:E2;
    [| destruct (inRange 97 102 h) eqn:E3; [| discriminate]]];
  unfold inRange in *;
  repeat rewrite ?andb_true_iff, ?negb_true_iff, ?N.eqb_neq, ?N.leb_le in *; lia.
Qed.



(** X6: an escape [%XX] of an ASCII character in a name without [/],
    [?], [#] and other [%] is decoded in the base; this is how the base
    can come to contain a [/], from [%2F]. *)
Theorem ascii_escape_decoded (a b : jsstring) (h l : unit16) (x y : N) :
  forallb plainChar a = true -> forallb plainChar b = true ->
  hexDigit h = Some x -> hexDigit l = Some y -> (16 * x + y < 128)%N ->
  base (normalizeName (Some (a ++ 37%N :: h :: l :: b)))
  = a ++ (16 * x + y)%N :: b.
Proof.
  intros Ha Hb Hh Hl Hlt.
  destruct (plain_parts a Ha) as (Haq & Has & Ha37).
  destruct (plain_parts b Hb) as (Hbq & Hbs & Hb37).
  destruct (hexDigit_plain _ Hh) as (Hhq & Hhs).
  destruct (hexDigit_plain _ Hl) as (Hlq & Hls).
  rewrite base_eq by (destruct a; discriminate).
  rewrite segment_whole.
  - now rewrite (@decode_ascii a b h l x y Ha37 Hb37 Hh Hl Hlt).
  - destruct a; discriminate.
  - rewrite forallb_app. simpl. now rewrite Haq, Hhq, Hlq, Hbq.
  - rewrite forallb_app. simpl. now rewrite Has, Hhs, Hls, Hbs.
Qed.

Lemma ascii_escape_decoded_witness :
  hexDigit 50%N = Some 2%N /\ hexDigit 70%N = Some 15%N /\
  base (normalizeName (Some (lit "img%2Frust.png"))) = lit "img/rust.png".
Proof.
  split; [reflexivity |]. split; [reflexivity |].
  apply (@ascii_escape_decoded (lit "img") (lit "rust.png") 50%N 70%N 2%N 15%N);
    reflexivity.
Defined.

(** ** The selection is always defined *)

Lemma choose_defined (raw : option jsstring) :
  choose (diseaseCandidatesOf (candidates (debugAnalyze raw)))
  = Some (chosen (debugAnalyze raw)).
Proof.
  rewrite (chosen_eq raw).
  destruct (diseaseCandidatesOf (candidates (debugAnalyze raw))) as [| x l] eqn:E;
    [reflexivity |].
  pose proof (diseaseCandidates_reachable raw) as Hr. rewrite E in Hr.
  destruct (@choose_spec (x :: l) ltac:(discriminate) Hr) as (top & _ & -> & _).
  reflexivity.
Qed.

(** X7: the defensive fall-backs [if (!chosen) chosen = 'Healthy'] and
    [candidates[chosen]?.score ?? 0] are never taken: the selection always
    yields a category (the loop over [priority] always finds one), and the
    chosen category, like every category, has a record in [candidates]. *)
Theorem fallbacks_never_taken (raw : option jsstring) :
  let r := debugAnalyze raw in
  choose (diseaseCandidatesOf (candidates r)) = Some (chosen r) /\
  lookup (candidates r) (chosen r) = Some (matchOf raw (chosen r)) /\
  forall d, lookup (candidates r) d <> None.
Proof.
  cbv zeta. split; [apply choose_defined |]. split.
  - apply lookup_candidates.
  - intros d. now rewrite lookup_candidates.
Qed.

(** ** Disease diagnoses *)

Lemma chosen_eligible (raw : option jsstring) :
  chosen (debugAnalyze raw) <> Healthy -> eligible raw (chosen (debugAnalyze raw)).
Proof.
  intros Hne. pose proof (choose_defined raw) as Hc.
  destruct (diseaseCandidatesOf (candidates (debugAnalyze raw))) as [| x l] eqn:E.
  - change (choose []) with (Some Healthy) in Hc. congruence.
  - pose proof (diseaseCandidates_reachable raw) as Hr. rewrite E in Hr.
    destruct (@choose_spec (x :: l) ltac:(discriminate) Hr) as (top & Hin & Ht & _).
    rewrite <- E in Hin. apply in_diseaseCandidates in Hin as (d & -> & He).
    cbn [Cand.disease] in Ht. congruence.
Qed.

Lemma match_counts (raw : option jsstring) (d : Disease) :
  let m := matchOf raw d in
  In (List.length (strongMatches m), List.length (weakMatches m)) grid /\
  score m = scoreAt (List.length (strongMatches m), List.length (weakMatches m)).
Proof.
  cbv zeta. unfold matchOf.
  destruct (analyzeDisease_spec (normalizeName raw) d) as (Hs & Hw & Hsc).
  split; [| exact Hsc].
  apply in_grid.
  - rewrite Hs. etransitivity; [apply filter_length_le |].
    destruct d; simpl; lia.
  - rewrite Hw. etransitivity; [apply filter_length_le |].
    destruct d; simpl; lia.
Qed.

Lemma strongFloor_true : strongFloor = true.
Proof. vm_compute. reflexivity. Qed.

Lemma scoreFloor_true : scoreFloor = true.
Proof. vm_compute. reflexivity. Qed.

(** X8: a diagnosis other than Healthy always rests on at least one
    strong keyword of the diagnosed category; its score is then at least 1
    and its confidence at least 0.69. *)
Theorem disease_needs_strong_match (raw : option jsstring) :
  let r := predictFromImageName raw in
  diagnosis r <> Healthy ->
  strongMatches (matchOf raw (diagnosis r)) <> [] /\
  (1 <=? topScore (debugAnalyze raw))%float = true /\
  (0.69 <=? confidence r)%float = true.
Proof.
  cbv zeta. destruct (prediction_fields raw) as (Hd & _ & _ & Hf).
  rewrite Hf, Hd, scoreIn_candidates, topScore_eq. intros Hne.
  destruct (chosen_eligible raw Hne) as (_ & Hs).
  split; [exact Hs |].
  destruct (match_counts raw (chosen (debugAnalyze raw))) as (Hg & ->).
  pose proof strongFloor_true as H. unfold strongFloor in H.
  rewrite forallb_forall in H. specialize (H _ Hg). cbn [fst] in H.
  destruct (strongMatches (matchOf raw (chosen (debugAnalyze raw)))) as [| k ks];
    [contradiction |].
  cbn [List.length Nat.leb implb] in H. now apply andb_true_iff in H.
Qed.

Lemma disease_needs_strong_match_witness :
  diagnosis (predictFromImageName (Some (lit "rusty_leaf.jpg"))) <> Healthy /\
  strongMatches (matchOf (Some (lit "rusty_leaf.jpg")) AloeRust) <> [] /\
  (0.69 <=? confidence (predictFromImageName (Some (lit "rusty_leaf.jpg"))))%float = true.
Proof.
  assert (diagnosis (predictFromImageName (Some (lit "rusty_leaf.jpg"))) <> Healthy)
    as Hne by (vm_compute; discriminate).
  destruct (@disease_needs_strong_match (Some (lit "rusty_leaf.jpg")) Hne)
    as (Hs & _ & Hc).
  split; [exact Hne |]. split; [exact Hs | exact Hc].
Defined.

(** X9: the score of a category is the sum accumulated over its matched
    keywords, 1.0 for each strong and then 0.4 for each weak one; it is 0
    exactly when no keyword of the category matched, at least 0.4 as soon
    as one did, and at least the number of strong matches. *)
Theorem score_counts_matches (raw : option jsstring) (d : Disease) :
  let m := matchOf raw d in
  score m = scoreOf (List.length (strongMatches m)) (List.length (weakMatches m)) /\
  (score m = 0%float <-> strongMatches m = [] /\ weakMatches m = []) /\
  (strongMatches m ++ weakMatches m <> [] -> (0.4 <=? score m)%float = true) /\
  (ofZ (Z.of_nat (List.length (strongMatches m))) <=? score m)%float = true.
Proof.
  cbv zeta. destruct (match_counts raw d) as (Hg & Hsc).
  pose proof scoreFloor_true as H. unfold scoreFloor in H.
  rewrite forallb_forall in H. specialize (H _ Hg). cbn [fst snd] in H.
  apply andb_true_iff in H as (H & H3). apply andb_true_iff in H as (H1 & H2).
  apply eqb_prop in H1. rewrite <- Hsc in *.
  split; [exact Hsc |]. split; [| split].
  - split.
    + intros E. rewrite E in H1.
      assert ((0 =? 0)%float = true) as E0 by reflexivity. rewrite E0 in H1.
      symmetry in H1. apply andb_true_iff in H1 as (Ha & Hb).
      apply Nat.eqb_eq in Ha, Hb.
      split; [now apply length_zero_iff_nil | now apply length_zero_iff_nil].
    + intros (Ha & Hb). now apply score_without_matches.
  - intros Hne.
    destruct (score (matchOf raw d) =? 0)%float eqn:E; [| exact H2].
    symmetry in H1. apply andb_true_iff in H1 as (Ha & Hb).
    apply Nat.eqb_eq in Ha, Hb.
    apply length_zero_iff_nil in Ha, Hb. rewrite Ha, Hb in Hne. now elim Hne.
  - exact H3.
Qed.

(** ** Overlapping keywords *)

Lemma includes_trans (s t u : jsstring) :
  includes s t = true -> includes t u = true -> includes s u = true.
Proof.
  rewrite !includes_app. intros (pre & post & ->) (pre' & post' & ->).
  exists (pre ++ pre'), (post' ++ post). now rewrite <- !app_assoc.
Qed.

(** X10: keywords overlap: when a keyword is matched, every configured
    keyword (of any category) whose compact form occurs inside the compact
    form of the matched one is matched too, and counts on its own;
    "blackspot", a weak keyword of Anthracnose, always brings "spot", a
    strong keyword of Leaf Spot. *)
Theorem contained_keyword_matches (raw : option jsstring) (d1 d2 : Disease)
    (k1 k2 : jsstring) :
  In k1 (configured d1) -> In k2 (allMatches raw d2) ->
  includes (kwNorm k2) (kwNorm k1) = true ->
  In k1 (allMatches raw d1).
Proof.
  unfold allMatches. intros H1 H2 Hinc.
  apply matches_configured in H2 as (_ & H2).
  apply matches_configured. split; [exact H1 |].
  rewrite check_checkCompact in *. unfold checkCompact in *.
  apply andb_true_iff in H2 as (_ & H2).
  apply andb_true_iff. split.
  - apply truthy_true. now apply (configured_nonempty d1).
  - now apply (includes_trans _ _ _ H2).
Qed.

Lemma contained_keyword_matches_witness :
  In (lit "blackspot") (allMatches (Some (lit "blackspot.jpg")) Anthracnose) /\
  In (lit "spot") (allMatches (Some (lit "blackspot.jpg")) LeafSpot) /\
  diagnosis (predictFromImageName (Some (lit "blackspot.jpg"))) = LeafSpot.
Proof.
  assert (In (lit "blackspot") (allMatches (Some (lit "blackspot.jpg")) Anthracnose))
    as H2 by (vm_compute; auto).
  split; [exact H2 |]. split; [| reflexivity].
  apply (@contained_keyword_matches (Some (lit "blackspot.jpg")) LeafSpot Anthracnose
           (lit "spot") (lit "blackspot")); [| exact H2 | reflexivity].
  vm_compute. auto 10.
Defined.

(** ** The sorted array *)

Lemma insertBy_perm (A : Type) (cmp : A -> A -> float) (x : A) (l : list A) :
  Permutation (x :: l) (insertBy cmp x l).
Proof.
  induction l as [| y l IH]; simpl; [apply Permutation_refl |].
  destruct (0 <? cmp x y)%float; [| apply Permutation_refl].
  eapply Permutation_trans; [apply perm_swap |]. now apply perm_skip.
Qed.

Lemma sortBy_perm (A : Type) (cmp : A -> A -> float) (l : list A) :
  Permutation l (sortBy cmp l).
Proof.
  induction l as [| x l IH]; simpl; [apply perm_nil |].
  eapply Permutation_trans; [apply perm_skip, IH | apply insertBy_perm].
Qed.

Lemma insertBy_sorted (x : Cand.t) (l : list Cand.t) :
  reachCand x -> Forall reachCand l -> StronglySorted scoreGe l ->
  StronglySorted scoreGe (insertBy byScoreDesc x l).
Proof.
  intros Rx Rl Hs. induction Hs as [| y l Hs IH Hy]; simpl.
  - repeat constructor.
  - inversion Rl as [| ? ? Ry Rl']; subst.
    destruct (0 <? byScoreDesc x y)%float eqn:E.
    + constructor; [now apply IH |].
      apply Forall_forall. intros z Hz.
      apply (insertBy_In byScoreDesc) in Hz as [-> | Hz].
      * now apply cand_after_le.
      * rewrite Forall_forall in Hy. now apply Hy.
    + constructor; [now constructor |].
      pose proof (cand_before_le Rx Ry E) as Hyx.
      constructor; [exact Hyx |].
      apply Forall_forall. intros z Hz.
      rewrite Forall_forall in Hy, Rl'.
      apply (@cand_le_trans z y x); auto. now apply Hy.
Qed.

Lemma sortBy_sorted (l : list Cand.t) :
  Forall reachCand l -> StronglySorted scoreGe (sortBy byScoreDesc l).
Proof.
  induction l as [| x l IH]; intros Hl; simpl; [constructor |].
  inversion Hl as [| ? ? Rx Rl]; subst.
  apply insertBy_sorted; [exact Rx | | now apply IH].
  apply Forall_forall. intros z Hz. apply (proj1 (sortBy_In byScoreDesc z l)) in Hz.
  rewrite Forall_forall in Rl. now apply Rl.
Qed.

(** X11: the array that [sort] leaves in [debugAnalyze] holds the same
    disease candidates as before the call, in non-increasing order of
    score. *)
Theorem candidates_sorted_by_score (raw : option jsstring) :
  let l := diseaseCandidatesOf (candidates (debugAnalyze raw)) in
  let sorted := sortBy (fun a b => (Cand.score b - Cand.score a)%float) l in
  Permutation l sorted /\ StronglySorted scoreGe sorted.
Proof.
  cbv zeta. split; [apply sortBy_perm |].
  apply sortBy_sorted, diseaseCandidates_reachable.
Qed.

(** ** The base of a name without escapes *)

Lemma takeWhile_split (p : unit16 -> bool) (s : jsstring) :
  exists rest, s = takeWhile p s ++ rest.
Proof.
  induction s as [| c s (rest & IH)]; simpl; [now exists [] |].
  destruct (p c); [| now exists (c :: s)].
  exists rest. simpl. now f_equal.
Qed.

Lemma takeWhile_forallb (p : unit16 -> bool) (s : jsstring) :
  forallb p (takeWhile p s) = true.
Proof.
  induction s as [| c s IH]; simpl; [reflexivity |].
  destruct (p c) eqn:E; [simpl; now rewrite E | reflexivity].
Qed.

Lemma forallb_takeWhile (q p : unit16 -> bool) (s : jsstring) :
  forallb q s = true -> forallb q (takeWhile p s) = true.
Proof.
  induction s as [| c s IH]; simpl; [reflexivity |].
  intros H. apply andb_true_iff in H as [Hc Hs].
  destruct (p c); [simpl; now rewrite Hc, IH | reflexivity].
Qed.

Lemma forallb_basename (q : unit16 -> bool) (s : jsstring) :
  forallb q s = true -> forallb q (basename s) = true.
Proof.
  intros H. unfold basename. rewrite forallb_rev.
  apply forallb_takeWhile, forallb_dropWhile. now rewrite forallb_rev.
Qed.

Lemma basename_part (s : jsstring) :
  exists pre post, s = pre ++ basename s ++ post.
Proof.
  unfold basename.
  destruct (dropWhile_suffix isSlash (rev s)) as (pre & Hs & _).
  destruct (takeWhile_split (fun c => negb (isSlash c)) (dropWhile isSlash (rev s)))
    as (rest & Hd).
  exists (rev rest), (rev pre).
  rewrite <- !rev_app_distr, <- app_assoc, <- Hd, <- Hs.
  now rewrite rev_involutive.
Qed.

(** X12: for a name without [%], the base is a contiguous part of the
    name and contains none of [/], [?], [#]. *)
Theorem base_without_escapes (raw : jsstring) :
  forallb noPercent raw = true ->
  let b := base (normalizeName (Some raw)) in
  forallb plainChar b = true /\ includes raw b = true.
Proof.
  intros H37 b. subst b.
  destruct (list_eq_dec N.eq_dec raw []) as [-> | Hne]; [split; reflexivity |].
  rewrite (base_eq Hne).
  set (q := beforeFirst 63%N raw). set (seg := beforeFirst 35%N q).
  assert (forallb noPercent seg = true) as Hseg
    by (apply forallb_takeWhile, forallb_takeWhile, H37).
  rewrite decode_plain by (apply forallb_basename, Hseg).
  split.
  - assert (forallb (fun c => negb (c =? 63)%N) q = true) as Hq
      by apply takeWhile_forallb.
    assert (forallb (fun c => negb (c =? 63)%N) seg = true) as Hq'
      by (apply forallb_takeWhile, Hq).
    assert (forallb (fun c => negb (c =? 35)%N) seg = true) as Hf
      by apply takeWhile_forallb.
    pose proof (forallb_basename _ _ Hq') as B1.
    pose proof (forallb_basename _ _ Hf) as B2.
    pose proof (forallb_basename _ _ Hseg) as B3.
    assert (forallb (fun c => negb (isSlash c)) (basename seg) = true) as B4
      by (unfold basename; rewrite forallb_rev; apply takeWhile_forallb).
    apply forallb_forall. intros c Hc.
    rewrite forallb_forall in B1, B2, B3, B4.
    specialize (B1 c Hc). specialize (B2 c Hc).
    specialize (B3 c Hc). specialize (B4 c Hc).
    unfold plainChar, noPercent, isSlash in *. now rewrite B1, B2, B3, B4.
  - destruct (takeWhile_split (fun c => negb (c =? 63)%N) raw) as (r1 & E1).
    destruct (takeWhile_split (fun c => negb (c =? 35)%N) q) as (r2 & E2).
    destruct (basename_part seg) as (pre & post & E3).
    assert (raw = q ++ r1) as E1' by exact E1.
    assert (q = seg ++ r2) as E2' by exact E2.
    apply includes_app. exists pre, (post ++ r2 ++ r1).
    transitivity (((pre ++ basename seg ++ post) ++ r2) ++ r1).
    + rewrite <- E3, <- E2'. exact E1'.
    + now rewrite <- !app_assoc.
Qed.

Lemma base_without_escapes_witness :
  forallb plainChar (base (normalizeName (Some (lit "a/b/rust 1.png?x=1")))) = true /\
  includes (lit "a/b/rust 1.png?x=1")
           (base (normalizeName (Some (lit "a/b/rust 1.png?x=1")))) = true.
Proof.
  apply (@base_without_escapes (lit "a/b/rust 1.png?x=1")). reflexivity.
Defined.

(** ** Longer names *)

Lemma lettersAndDigits_app (a b : jsstring) :
  lettersAndDigits (a ++ b) = lettersAndDigits a ++ lettersAndDigits b.
Proof.
  unfold lettersAndDigits, toLowerCase. now rewrite flat_map_app, filter_app.
Qed.

Lemma matched_iff (raw : option jsstring) (d : Disease) (k : jsstring) :
  In k (allMatches raw d)
  <-> In k (configured d) /\ includes (compact (normalizeName raw)) (kwNorm k) = true.
Proof.
  unfold allMatches. rewrite matches_configured, check_checkCompact.
  unfold checkCompact. split; intros (Hk & H); (split; [exact Hk |]).
  - now apply andb_true_iff in H.
  - apply andb_true_iff. split; [| exact H].
    apply truthy_true. now apply (configured_nonempty d).
Qed.

(** X13: nothing is lost in a longer name: for names without [/], [?],
    [#] and [%], every keyword matched for a name is matched, for the same
    category, for any name that contains it. *)
Theorem matches_survive_extension (pre a post : jsstring) (d : Disease)
    (k : jsstring) :
  forallb plainChar pre = true -> forallb plainChar a = true ->
  forallb plainChar post = true ->
  In k (allMatches (Some a) d) -> In k (allMatches (Some (pre ++ a ++ post)) d).
Proof.
  intros Hpre Ha Hpost. rewrite !matched_iff. intros (Hk & H).
  split; [exact Hk |].
  assert (forallb plainChar (pre ++ a ++ post) = true) as Hall
    by (rewrite !forallb_app; now rewrite Hpre, Ha, Hpost).
  rewrite compact_letters, (plain_base _ Ha) in H.
  assert (base (normalizeName (Some (pre ++ a ++ post))) = pre ++ a ++ post) as Q
    by exact (plain_base _ Hall).
  rewrite compact_letters, Q, !lettersAndDigits_app.
  apply (@includes_trans _ (lettersAndDigits a)); [| exact H].
  apply includes_app. now exists (lettersAndDigits pre), (lettersAndDigits post).
Qed.

Lemma matches_survive_extension_witness :
  In (lit "rust") (allMatches (Some (lit "rust")) AloeRust) /\
  In (lit "rust") (allMatches (Some (lit "IMG_0042 rust (copy).jpeg")) AloeRust).
Proof.
  assert (In (lit "rust") (allMatches (Some (lit "rust")) AloeRust)) as H
    by (vm_compute; auto).
  split; [exact H |].
  apply (@matches_survive_extension (lit "IMG_0042 ") (lit "rust") (lit " (copy).jpeg")
           AloeRust (lit "rust")); [reflexivity | reflexivity | reflexivity | exact H].
Defined.

(** ** The confidence in exact arithmetic *)

Lemma grid_exact (p : nat * nat) :
  In p grid ->
  scoreToConfidence (scoreAt p)
  = (ofZ (exactHundredths (fst p) (snd p)) / 100)%float.
Proof. intros H. grid_cases H; vm_compute; reflexivity. Qed.

(** X19: the rounding errors of the floating-point computation never show
    in the result: with [s] strong and [w] weak matches of the diagnosed
    category, the confidence is the quotient by 100 of the integer nearest
    to [100 * (0.55 + 0.43 * min(1, (s + 0.4 w) / 3))] in exact
    arithmetic; one strong match alone gives 0.69, two give 0.84, and
    three or more always give 0.98. *)
Theorem confidence_is_exact_rounding (raw : option jsstring) :
  let r := predictFromImageName raw in
  let m := matchOf raw (diagnosis r) in
  let s := List.length (strongMatches m) in
  let w := List.length (weakMatches m) in
  confidence r = (ofZ (exactHundredths s w) / 100)%float /\
  (s = 1%nat -> w = 0%nat -> confidence r = 0.69%float) /\
  (s = 2%nat -> w = 0%nat -> confidence r = 0.84%float) /\
  ((3 <= s)%nat -> confidence r = 0.98%float).
Proof.
  cbv zeta. destruct (prediction_fields raw) as (_ & _ & _ & Hf).
  rewrite Hf, scoreIn_candidates.
  destruct (match_counts raw (diagnosis (predictFromImageName raw))) as (Hg & ->).
  rewrite (grid_exact Hg). cbn [fst snd].
  split; [reflexivity |]. split; [| split].
  - intros -> ->. reflexivity.
  - intros -> ->. reflexivity.
  - intros H3. unfold exactHundredths.
    rewrite Nat.min_l by lia. reflexivity.
Qed.

(* ================================================================== *)
(** * Monotonicity of [scoreToConfidence] *)
(* ================================================================== *)

Unset Implicit Arguments.
Import Binary64.
Local Open Scope Z_scope.

(** The proof follows the definition of [binary_round_aux]: the first
    [shr_fexp] brings the key of the exact value to the exponent the value
    is rounded at, [round_nearest_even] is a monotone function of that key,
    and the second [shr_fexp] renormalizes.  Exponents and keys are both
    monotone in the exact value, so the rounding is; division by 3,
    multiplication by a constant and addition of a constant round an exact
    value that grows with their argument. *)

(** ** Keys and shifts *)

Lemma stickyHalf_split (M c : Z) :
  0 <= c < 4 -> stickyHalf (4 * M + c) = 2 * M + (if c =? 0 then 0 else 1).
Proof.
  intros Hc. unfold stickyHalf.
  assert ((4 * M + c) / 4 = M) as -> by (symmetry; apply (Z.div_unique _ 4 M c); lia).
  assert ((4 * M + c) mod 4 = c) as -> by (symmetry; apply (Z.mod_unique _ 4 M c); lia).
  reflexivity.
Qed.

Lemma recKey_eq (m : Z) (r s : bool) :
  recKey (Build_shr_record m r s) = 4 * m + (2 * Z.b2z r + Z.b2z s).
Proof. unfold recKey. simpl. lia. Qed.

Lemma shr_1_key (r : shr_record) :
  0 <= shr_m r ->
  recKey (shr_1 r) = stickyHalf (recKey r) /\ 0 <= shr_m (shr_1 r).
Proof.
  destruct r as [m r s]. cbn [shr_m]. intros Hm.
  rewrite (recKey_eq m r s).
  rewrite stickyHalf_split by (destruct r, s; simpl; lia).
  destruct m as [| p | p]; [| | lia].
  - unfold shr_1. rewrite recKey_eq. cbn [shr_m]. destruct r, s; simpl; lia.
  - destruct p as [p | p |]; unfold shr_1; rewrite recKey_eq; cbn [shr_m];
      [rewrite (Pos2Z.inj_xI p) | rewrite (Pos2Z.inj_xO p) |];
      destruct r, s; simpl; split; lia.
Qed.

Lemma key_half (p q : Z) :
  0 <= p -> 0 < q -> key p (2 * q) = stickyHalf (key p q).
Proof.
  intros Hp Hq. unfold key, stickyHalf.
  assert (2 * p / (2 * q) = p / q) as E1 by (apply Z.div_mul_cancel_l; lia).
  assert ((2 * p) mod (2 * q) = 2 * (p mod q)) as E2 by (apply Zmult_mod_distr_l).
  rewrite E1, E2.
  pose proof (Z.div_mod p q ltac:(lia)) as Dp.
  pose proof (Z.mod_pos_bound p q Hq) as Bp.
  pose proof (Z.div_mod (2 * p) q ltac:(lia)) as D2.
  pose proof (Z.mod_pos_bound (2 * p) q Hq) as B2.
  set (a := 2 * p / q) in *. set (t := (2 * p) mod q) in *.
  set (b := p / q) in *. set (u := p mod q) in *.
  (* a = 2 b + (1 if 2u >= q), t = 2u or 2u - q *)
  assert ((a = 2 * b /\ t = 2 * u) \/ (a = 2 * b + 1 /\ t = 2 * u - q)) as Hc.
  { destruct (Z_lt_le_dec (2 * u) q).
    - left. assert (a = 2 * b) by nia. split; nia.
    - right. assert (a = 2 * b + 1) by nia. split; nia. }
  destruct Hc as [(Ea & Et) | (Ea & Et)]; rewrite Ea, Et.
  - destruct (Z.eqb_spec (2 * u) 0), (Z.eqb_spec u 0); try lia.
    + match goal with |- context [?a mod 4 =? 0] => destruct (Z.eqb_spec (a mod 4) 0) end;
      Z.to_euclidean_division_equations; lia.
    + match goal with |- context [?a mod 4 =? 0] => destruct (Z.eqb_spec (a mod 4) 0) end;
      Z.to_euclidean_division_equations; lia.
  - destruct (Z.eqb_spec (2 * u) 0), (Z.eqb_spec u 0), (Z.eqb_spec (2 * u - q) 0); try lia;
    match goal with |- context [?a mod 4 =? 0] => destruct (Z.eqb_spec (a mod 4) 0) end;
      Z.to_euclidean_division_equations; lia.
Qed.

Lemma key_mono (p1 q1 p2 q2 : Z) :
  0 <= p1 -> 0 < q1 -> 0 <= p2 -> 0 < q2 ->
  p1 * q2 <= p2 * q1 -> key p1 q1 <= key p2 q2.
Proof.
  intros Hp1 Hq1 Hp2 Hq2 H. unfold key.
  pose proof (Z.div_mod (2 * p1) q1 ltac:(lia)) as D1.
  pose proof (Z.mod_pos_bound (2 * p1) q1 Hq1) as B1.
  pose proof (Z.div_mod (2 * p2) q2 ltac:(lia)) as D2.
  pose proof (Z.mod_pos_bound (2 * p2) q2 Hq2) as B2.
  set (a1 := 2 * p1 / q1) in *. set (t1 := (2 * p1) mod q1) in *.
  set (a2 := 2 * p2 / q2) in *. set (t2 := (2 * p2) mod q2) in *.
  assert (a1 <= a2) as Ha.
  { destruct (Z_le_gt_dec a1 a2) as [L | G]; [exact L | exfalso].
    assert (a2 + 1 <= a1) as G' by lia.
    assert (2 * p2 * q1 < (a2 + 1) * q2 * q1) by nia.
    assert ((a2 + 1) * q2 * q1 <= a1 * q1 * q2) by nia.
    assert (a1 * q1 * q2 <= 2 * p1 * q2) by nia.
    nia. }
  destruct (Z.eqb_spec t1 0), (Z.eqb_spec t2 0); try lia.
  destruct (Z.eq_dec a1 a2) as [E | N]; [| lia]. exfalso.
  (* t1 > 0, t2 = 0, a1 = a2 : 2 p1 = q1 a + t1 > q1 a, 2 p2 = q2 a *)
  assert (2 * p1 * q2 = q1 * a1 * q2 + t1 * q2) by nia.
  assert (2 * p2 * q1 = q2 * a1 * q1) by nia.
  nia.
Qed.

Lemma rne_mono (K1 K2 : Z) : 0 <= K1 -> K1 <= K2 -> rne K1 <= rne K2.
Proof.
  intros H0 H. unfold rne.
  pose proof (Z.div_mod K1 4 ltac:(lia)). pose proof (Z.mod_pos_bound K1 4 ltac:(lia)).
  pose proof (Z.div_mod K2 4 ltac:(lia)). pose proof (Z.mod_pos_bound K2 4 ltac:(lia)).
  set (m1 := K1 / 4) in *. set (c1 := K1 mod 4) in *.
  set (m2 := K2 / 4) in *. set (c2 := K2 mod 4) in *.
  destruct (Z.leb_spec c1 1), (Z.leb_spec c2 1), (Z.eqb_spec c1 2), (Z.eqb_spec c2 2);
    destruct (Z.even m1) eqn:E1, (Z.even m2) eqn:E2; try lia.
  all: destruct (Z.eq_dec m1 m2) as [E | N]; [congruence | lia].
Qed.

Lemma rne_bounds (K : Z) : 0 <= K -> K / 4 <= rne K <= K / 4 + 1.
Proof.
  intros H. unfold rne.
  destruct (K mod 4 <=? 1), (K mod 4 =? 2), (Z.even (K / 4)); lia.
Qed.

(** ** Digits *)

Lemma digits2_pos_bounds (p : positive) :
  2 ^ (Z.pos (digits2_pos p) - 1) <= Z.pos p < 2 ^ Z.pos (digits2_pos p).
Proof.
  induction p as [p IH | p IH |]; cbn [digits2_pos].
  - rewrite Pos2Z.inj_succ, (Pos2Z.inj_xI p).
    replace (Z.succ (Z.pos (digits2_pos p)) - 1) with (Z.succ (Z.pos (digits2_pos p) - 1)) by lia.
    rewrite !Z.pow_succ_r by lia. lia.
  - rewrite Pos2Z.inj_succ, (Pos2Z.inj_xO p).
    replace (Z.succ (Z.pos (digits2_pos p)) - 1) with (Z.succ (Z.pos (digits2_pos p) - 1)) by lia.
    rewrite !Z.pow_succ_r by lia. lia.
  - simpl. lia.
Qed.

Lemma dg_bounds (m : Z) :
  0 < m -> 0 < Zdigits2 m /\ 2 ^ (Zdigits2 m - 1) <= m < 2 ^ Zdigits2 m.
Proof.
  destruct m as [| p | p]; try lia. intros _. simpl.
  split; [lia | apply digits2_pos_bounds].
Qed.

Lemma dg_unique (m d : Z) :
  0 < d -> 2 ^ (d - 1) <= m < 2 ^ d -> Zdigits2 m = d.
Proof.
  intros Hd Hm.
  assert (0 < m) as Hpos by (pose proof (Z.pow_pos_nonneg 2 (d - 1)); lia).
  destruct (dg_bounds m Hpos) as (Hd' & Hm').
  destruct (Z.lt_trichotomy (Zdigits2 m) d) as [L | [E | G]]; [exfalso | exact E | exfalso].
  - assert (2 ^ Zdigits2 m <= 2 ^ (d - 1)) by (apply Z.pow_le_mono_r; lia). lia.
  - assert (2 ^ d <= 2 ^ (Zdigits2 m - 1)) by (apply Z.pow_le_mono_r; lia). lia.
Qed.

Lemma fexp64_eq (e : Z) : fexp64 e = Z.max (e - 53) (-1074).
Proof. reflexivity. Qed.

(** ** Iterated shifts *)

Lemma iter_pos_inv (A : Type) (f : A -> A) (inv : nat -> A -> Prop) :
  (forall k x, inv k x -> inv (S k) (f x)) ->
  forall (n : positive) (k : nat) (x : A),
    inv k x -> inv (k + Pos.to_nat n)%nat (iter_pos f n x).
Proof.
  intros Hstep. induction n as [n IH | n IH |]; intros k x Hx; cbn [iter_pos].
  - rewrite Pos2Nat.inj_xI.
    replace (k + S (2 * Pos.to_nat n))%nat
      with ((S k + Pos.to_nat n) + Pos.to_nat n)%nat by lia.
    apply IH, IH, Hstep, Hx.
  - rewrite Pos2Nat.inj_xO.
    replace (k + 2 * Pos.to_nat n)%nat
      with ((k + Pos.to_nat n) + Pos.to_nat n)%nat by lia.
    apply IH, IH, Hx.
  - replace (k + Pos.to_nat 1)%nat with (S k) by (simpl; lia).
    apply Hstep, Hx.
Qed.

Lemma shr_key (r : shr_record) (e n p q : Z) :
  0 <= shr_m r -> recKey r = key p q -> 0 <= p -> 0 < q -> 0 <= n ->
  recKey (fst (shr r e n)) = key p (q * 2 ^ n) /\
  snd (shr r e n) = e + n /\ 0 <= shr_m (fst (shr r e n)).
Proof.
  intros Hm Hk Hp Hq Hn. destruct n as [| k | k]; [| | lia].
  - simpl. rewrite Z.mul_1_r. repeat split; auto. lia.
  - cbn [shr fst snd].
    pose proof (@iter_pos_inv shr_record shr_1
      (fun j r' => 0 <= shr_m r' /\ recKey r' = key p (q * 2 ^ Z.of_nat j))) as H.
    assert (forall (j : nat) (x : shr_record),
      0 <= shr_m x /\ recKey x = key p (q * 2 ^ Z.of_nat j) ->
      0 <= shr_m (shr_1 x) /\ recKey (shr_1 x) = key p (q * 2 ^ Z.of_nat (S j))) as Hstep.
    { intros j x (Hx & Kx). destruct (shr_1_key x Hx) as (K1 & H1).
      split; [exact H1 |]. rewrite K1, Kx, Nat2Z.inj_succ, Z.pow_succ_r by lia.
      rewrite <- key_half.
      - f_equal. lia.
      - exact Hp.
      - pose proof (Z.pow_pos_nonneg 2 (Z.of_nat j)). nia. }
    specialize (H Hstep k 0%nat r).
    destruct H as (H1 & H2).
    { split; [exact Hm |]. simpl. now rewrite Z.mul_1_r. }
    simpl in H2. rewrite positive_nat_Z in H2. repeat split; auto.
Qed.

Lemma key_div4 (p q : Z) : 0 <= p -> 0 < q -> key p q / 4 = p / q.
Proof.
  intros Hp Hq. unfold key.
  pose proof (Z.div_mod (2 * p) q ltac:(lia)) as D2.
  pose proof (Z.mod_pos_bound (2 * p) q Hq) as B2.
  pose proof (Z.div_mod p q ltac:(lia)) as Dp.
  pose proof (Z.mod_pos_bound p q Hq) as Bp.
  set (a := 2 * p / q) in *. set (t := (2 * p) mod q) in *.
  set (b := p / q) in *. set (u := p mod q) in *.
  assert (a = 2 * b \/ a = 2 * b + 1) as Ha.
  { destruct (Z_lt_le_dec (2 * u) q); [left | right]; nia. }
  symmetry.
  destruct (t =? 0); destruct Ha as [-> | ->].
  - apply (Z.div_unique _ 4 b 0); lia.
  - apply (Z.div_unique _ 4 b 2); lia.
  - apply (Z.div_unique _ 4 b 1); lia.
  - apply (Z.div_unique _ 4 b 3); lia.
Qed.

Lemma key_nonneg (p q : Z) : 0 <= p -> 0 < q -> 0 <= key p q.
Proof.
  intros Hp Hq. unfold key.
  assert (0 <= 2 * p / q) by (apply Z.div_pos; lia).
  destruct (_ =? 0); lia.
Qed.

Lemma recKey_m (r : shr_record) : shr_m r = recKey r / 4.
Proof.
  destruct r as [m r s]. rewrite recKey_eq. cbn [shr_m].
  apply (Z.div_unique _ 4 m (2 * Z.b2z r + Z.b2z s)); destruct r, s; simpl; lia.
Qed.

Lemma rne_split (M c : Z) :
  0 <= c < 4 ->
  rne (4 * M + c)
  = if c <=? 1 then M else if c =? 2 then (if Z.even M then M else M + 1) else M + 1.
Proof.
  intros Hc. unfold rne.
  assert ((4 * M + c) / 4 = M) as -> by (symmetry; apply (Z.div_unique _ 4 M c); lia).
  assert ((4 * M + c) mod 4 = c) as -> by (symmetry; apply (Z.mod_unique _ 4 M c); lia).
  reflexivity.
Qed.

Lemma rne_record (r : shr_record) :
  round_nearest_even (shr_m r) (loc_of_shr_record r) = rne (recKey r).
Proof.
  destruct r as [m r s]. rewrite recKey_eq. cbn [shr_m].
  rewrite rne_split by (destruct r, s; simpl; lia).
  destruct r, s; reflexivity.
Qed.

Lemma shr_record_of_loc_m (m : Z) (l : location) :
  shr_m (shr_record_of_loc m l) = m.
Proof. destruct l as [| []]; reflexivity. Qed.

Lemma dg_le_53 (M : Z) : 0 < M < 2 ^ 53 -> Zdigits2 M <= 53.
Proof.
  intros HM. destruct (dg_bounds M ltac:(lia)) as (Hd & Hb).
  destruct (Z_le_gt_dec (Zdigits2 M) 53) as [L | G]; [exact L | exfalso].
  assert (2 ^ 53 <= 2 ^ (Zdigits2 M - 1)) by (apply Z.pow_le_mono_r; lia). lia.
Qed.

(** The quotient after the first shift. *)
Lemma first_shift_bounds (m e : Z) :
  0 <= m ->
  let E := fexp64 (Zdigits2 m + e) in
  let n := E - e in
  0 <= n ->
  -1074 <= E /\ 0 <= m / 2 ^ n < 2 ^ 53 /\ (-1074 < E -> 2 ^ 52 <= m / 2 ^ n).
Proof.
  intros Hm E n Hn. subst E n. rewrite fexp64_eq in *.
  assert (0 < 2 ^ (Z.max (Zdigits2 m + e - 53) (-1074) - e)) as Hpow
    by (apply Z.pow_pos_nonneg; lia).
  split; [lia |].
  destruct (Z.eq_dec m 0) as [-> | Hnz].
  - rewrite Z.div_0_l by lia. simpl Zdigits2 in *. split; [lia |]. intros H. lia.
  - destruct (dg_bounds m ltac:(lia)) as (Hd & Hb).
    set (d := Zdigits2 m) in *.
    destruct (Z.max_spec (d + e - 53) (-1074)) as [(Hc & ->) | (Hc & ->)].
    + (* subnormal exponent *)
      split; [| lia]. split; [apply Z.div_pos; lia |].
      apply Z.div_lt_upper_bound; [lia |].
      rewrite <- Z.pow_add_r by lia.
      assert (2 ^ d <= 2 ^ (-1074 - e + 53)) by (apply Z.pow_le_mono_r; lia). lia.
    + replace (d + e - 53 - e) with (d - 53) in * by lia.
      assert (2 ^ (d - 1) = 2 ^ (d - 53) * 2 ^ 52) as E1
        by (rewrite <- Z.pow_add_r by lia; f_equal; lia).
      assert (2 ^ d = 2 ^ (d - 53) * 2 ^ 53) as E2
        by (rewrite <- Z.pow_add_r by lia; f_equal; lia).
      assert (2 ^ 52 <= m / 2 ^ (d - 53)) by (apply Z.div_le_lower_bound; lia).
      assert (m / 2 ^ (d - 53) < 2 ^ 53) by (apply Z.div_lt_upper_bound; lia).
      split; [| lia]. lia.
Qed.

Lemma bra_shape (m e : Z) (l : location) (p q : Z) :
  0 <= p -> 0 < q -> m = p / q ->
  recKey (shr_record_of_loc m l) = key p q ->
  0 <= fexp64 (Zdigits2 m + e) - e ->
  let E := fexp64 (Zdigits2 m + e) in
  let n := E - e in
  let M := rne (key p (q * 2 ^ n)) in
  binary_round_aux prec emax false m e l = finish M E /\
  0 <= M <= 2 ^ 53 /\ -1074 <= E /\ (-1074 < E -> 2 ^ 52 <= M).
Proof.
  intros Hp Hq Hm Hk Hn E n M.
  assert (0 <= m) as Hm0 by (subst m; apply Z.div_pos; lia).
  destruct (first_shift_bounds m e Hm0 Hn) as (HE & Hm' & HEm). fold E n in HE, Hm', HEm.
  assert (0 < 2 ^ n) as Hpow by (apply Z.pow_pos_nonneg; lia).
  assert (key p (q * 2 ^ n) / 4 = m / 2 ^ n) as Hdiv.
  { rewrite key_div4 by nia. rewrite <- Z.div_div by lia. now subst m. }
  assert (0 <= key p (q * 2 ^ n)) as Hk0 by (apply key_nonneg; nia).
  pose proof (rne_bounds _ Hk0) as HM. fold M in HM. rewrite Hdiv in HM.
  assert (0 <= M <= 2 ^ 53) as HMr by lia.
  assert (-1074 < E -> 2 ^ 52 <= M) as HMn by (intros H; specialize (HEm H); lia).
  split; [| auto].
  unfold binary_round_aux, shr_fexp.
  change (SpecFloat.fexp prec emax) with fexp64. fold E. fold n.
  destruct (shr_key (shr_record_of_loc m l) e n p q) as (K1 & E1 & M1); auto.
  { now rewrite shr_record_of_loc_m. }
  destruct (shr (shr_record_of_loc m l) e n) as [r1 e1]. cbn [fst snd] in K1, E1, M1.
  rewrite rne_record, K1. fold M.
  replace e1 with E by (subst n; lia).
  unfold finish.
  destruct (Z.eqb_spec M 0) as [M0 | Mnz].
  - rewrite M0. assert (E = -1074) as EE by lia.
    rewrite EE. reflexivity.
  - destruct (Z.eqb_spec M (2 ^ 53)) as [Mtop | Mlt].
    + rewrite Mtop.
      assert (fexp64 (Zdigits2 (2 ^ 53) + E) - E = 1) as ->
        by (rewrite fexp64_eq; change (Zdigits2 (2 ^ 53)) with 54; lia).
      cbn [shr_record_of_loc shr iter_pos]. simpl shr_1. cbn [shr_m].
      change (emax - prec) with 971. reflexivity.
    + assert (fexp64 (Zdigits2 M + E) - E = 0) as ->.
      { rewrite fexp64_eq.
        destruct (Z.eq_dec E (-1074)) as [EE | EN].
        - pose proof (dg_le_53 M ltac:(lia)). lia.
        - rewrite (dg_unique M 53); [lia | lia |].
          specialize (HMn ltac:(lia)). change (2 ^ (53 - 1)) with (2 ^ 52). lia. }
      cbn [shr_record_of_loc shr shr_m].
      destruct M as [| pm | pm]; try lia.
      change (emax - prec) with 971. reflexivity.
Qed.

(** ** Order of the results *)

Lemma SFleb_pos_finite (m1 m2 : positive) (e1 e2 : Z) :
  e1 < e2 \/ (e1 = e2 /\ (m1 <= m2)%positive) ->
  SFleb (S754_finite false m1 e1) (S754_finite false m2 e2) = true.
Proof.
  intros H. unfold SFleb, SFcompare.
  destruct (Z.compare_spec e1 e2) as [E | L | G]; try reflexivity.
  - destruct H as [H | (_ & H)]; [lia |].
    change (Pos.compare_cont Eq m1 m2) with (Pos.compare m1 m2).
    destruct (Pos.compare_spec m1 m2); try reflexivity. lia.
  - lia.
Qed.

Lemma finish_mono (M1 E1 M2 E2 : Z) :
  0 <= M1 <= 2 ^ 53 -> -1074 <= E1 -> (-1074 < E1 -> 2 ^ 52 <= M1) ->
  0 <= M2 <= 2 ^ 53 -> -1074 <= E2 -> (-1074 < E2 -> 2 ^ 52 <= M2) ->
  E1 < E2 \/ (E1 = E2 /\ M1 <= M2) ->
  SFleb (finish M1 E1) (finish M2 E2) = true.
Proof.
  intros HM1 HE1 HN1 HM2 HE2 HN2 Hord. unfold finish.
  destruct (Z.eqb_spec M1 0) as [Z1 | NZ1], (Z.eqb_spec M2 0) as [Z2 | NZ2].
  - reflexivity.
  - destruct (M2 =? 2 ^ 53), (E2 + 1 <=? 971), (E2 <=? 971); reflexivity.
  - exfalso. destruct Hord as [L | (E & L)]; [| lia].
    specialize (HN2 ltac:(lia)). lia.
  - destruct (Z.eqb_spec M1 (2 ^ 53)) as [T1 | NT1], (Z.eqb_spec M2 (2 ^ 53)) as [T2 | NT2].
    + destruct (Z.leb_spec (E1 + 1) 971), (Z.leb_spec (E2 + 1) 971); try reflexivity.
      * apply SFleb_pos_finite. destruct Hord as [L | (E & L)]; [left; lia | right; split; lia].
      * exfalso. lia.
    + destruct (Z.leb_spec (E1 + 1) 971), (Z.leb_spec E2 971); try reflexivity.
      * apply SFleb_pos_finite. destruct Hord as [L | (E & L)]; [| lia].
        destruct (Z.eq_dec (E1 + 1) E2) as [EE | NE]; [right | left; lia].
        split; [exact EE |]. specialize (HN2 ltac:(lia)).
        lia.
      * exfalso. lia.
    + destruct (Z.leb_spec E1 971), (Z.leb_spec (E2 + 1) 971); try reflexivity.
      * apply SFleb_pos_finite. left. lia.
      * exfalso. lia.
    + destruct (Z.leb_spec E1 971), (Z.leb_spec E2 971); try reflexivity.
      * apply SFleb_pos_finite. destruct Hord as [L | (E & L)]; [left; lia | right].
        split; [exact E |]. lia.
      * exfalso. lia.
Qed.

Lemma quotient_bounds (p q : Z) :
  0 <= p -> 0 < q ->
  2 ^ (Zdigits2 (p / q) - 1) * q <= p + (if p / q =? 0 then q else 0)
  /\ p < 2 ^ Zdigits2 (p / q) * q.
Proof.
  intros Hp Hq.
  pose proof (Z.div_mod p q ltac:(lia)) as D.
  pose proof (Z.mod_pos_bound p q Hq) as B.
  assert (0 <= p / q) as H0 by (apply Z.div_pos; lia).
  destruct (Z.eqb_spec (p / q) 0) as [E | N].
  - rewrite E in *. change (Zdigits2 0) with 0.
    change (2 ^ (0 - 1)) with 0. change (2 ^ 0) with 1. lia.
  - destruct (dg_bounds (p / q) ltac:(lia)) as (Hd & Hb). nia.
Qed.

Section ValueOrder.

Variables p1 q1 e1 p2 q2 e2 : Z.
Hypothesis Hp1 : 0 <= p1.
Hypothesis Hq1 : 0 < q1.
Hypothesis Hp2 : 0 <= p2.
Hypothesis Hq2 : 0 < q2.
Hypothesis Hv : vle p1 q1 e1 p2 q2 e2.

Lemma mag_le :
  0 < p1 / q1 -> Zdigits2 (p1 / q1) + e1 <= Zdigits2 (p2 / q2) + e2.
Proof.
  intros Hm1. unfold vle in Hv.
  set (c := Z.min e1 e2) in *.
  destruct (quotient_bounds p1 q1 Hp1 Hq1) as (L1 & _).
  destruct (Z.eqb_spec (p1 / q1) 0) as [E | _]; [lia |].
  destruct (quotient_bounds p2 q2 Hp2 Hq2) as (_ & U2).
  destruct (dg_bounds (p1 / q1) Hm1) as (Hd1 & _).
  assert (0 <= Zdigits2 (p2 / q2)) as Hd2.
  { destruct (p2 / q2); simpl; lia. }
  set (d1 := Zdigits2 (p1 / q1)) in *. set (d2 := Zdigits2 (p2 / q2)) in *.
  assert (0 < 2 ^ (e1 - c)) as A1 by (apply Z.pow_pos_nonneg; lia).
  assert (0 < 2 ^ (e2 - c)) as A2 by (apply Z.pow_pos_nonneg; lia).
  assert (0 < 2 ^ (d1 - 1)) as X1 by (apply Z.pow_pos_nonneg; lia).
  assert (0 < 2 ^ d2) as X2 by (apply Z.pow_pos_nonneg; lia).
  assert (2 ^ (d1 - 1) * 2 ^ (e1 - c) < 2 ^ d2 * 2 ^ (e2 - c)) as H.
  { apply (Z.mul_lt_mono_pos_r (q1 * q2)); [nia |].
    apply Z.le_lt_trans with (p1 * q2 * 2 ^ (e1 - c)).
    - replace (2 ^ (d1 - 1) * 2 ^ (e1 - c) * (q1 * q2))
        with ((2 ^ (d1 - 1) * q1) * (q2 * 2 ^ (e1 - c))) by ring.
      replace (p1 * q2 * 2 ^ (e1 - c)) with (p1 * (q2 * 2 ^ (e1 - c))) by ring.
      apply Z.mul_le_mono_nonneg_r; [nia | lia].
    - apply Z.le_lt_trans with (p2 * q1 * 2 ^ (e2 - c)); [exact Hv |].
      replace (2 ^ d2 * 2 ^ (e2 - c) * (q1 * q2))
        with ((2 ^ d2 * q2) * (q1 * 2 ^ (e2 - c))) by ring.
      replace (p2 * q1 * 2 ^ (e2 - c)) with (p2 * (q1 * 2 ^ (e2 - c))) by ring.
      apply Z.mul_lt_mono_pos_r; [nia | exact U2]. }
  rewrite <- !Z.pow_add_r in H by lia.
  apply Z.pow_lt_mono_r_iff in H; lia.
Qed.

Lemma shifted_le (n1 n2 : Z) :
  0 <= n1 -> 0 <= n2 -> e1 + n1 = e2 + n2 ->
  p1 * (q2 * 2 ^ n2) <= p2 * (q1 * 2 ^ n1).
Proof.
  intros Hn1 Hn2 HE. unfold vle in Hv.
  set (c := Z.min e1 e2) in *.
  assert (0 < 2 ^ (e1 - c)) as A1 by (apply Z.pow_pos_nonneg; lia).
  assert (0 < 2 ^ (e2 - c)) as A2 by (apply Z.pow_pos_nonneg; lia).
  assert (0 < 2 ^ n1) as N1 by (apply Z.pow_pos_nonneg; lia).
  assert (0 < 2 ^ n2) as N2 by (apply Z.pow_pos_nonneg; lia).
  assert (2 ^ (e1 - c) * 2 ^ n1 = 2 ^ (e2 - c) * 2 ^ n2) as ET
    by (rewrite <- !Z.pow_add_r by lia; f_equal; lia).
  apply (Z.mul_le_mono_pos_r _ _ (2 ^ (e1 - c) * 2 ^ n1)); [nia |].
  replace (p1 * (q2 * 2 ^ n2) * (2 ^ (e1 - c) * 2 ^ n1))
    with ((p1 * q2 * 2 ^ (e1 - c)) * (2 ^ n1 * 2 ^ n2)) by ring.
  rewrite ET at 1.
  replace (p2 * (q1 * 2 ^ n1) * (2 ^ (e2 - c) * 2 ^ n2))
    with ((p2 * q1 * 2 ^ (e2 - c)) * (2 ^ n1 * 2 ^ n2)) by ring.
  apply Z.mul_le_mono_nonneg_r; [nia | exact Hv].
Qed.

End ValueOrder.

(** Rounding is monotone in the exact value. *)
Theorem round_mono (m1 e1 : Z) (l1 : location) (p1 q1 : Z)
    (m2 e2 : Z) (l2 : location) (p2 q2 : Z) :
  0 <= p1 -> 0 < q1 -> m1 = p1 / q1 ->
  recKey (shr_record_of_loc m1 l1) = key p1 q1 ->
  0 <= fexp64 (Zdigits2 m1 + e1) - e1 ->
  0 <= p2 -> 0 < q2 -> m2 = p2 / q2 ->
  recKey (shr_record_of_loc m2 l2) = key p2 q2 ->
  0 <= fexp64 (Zdigits2 m2 + e2) - e2 ->
  vle p1 q1 e1 p2 q2 e2 ->
  SFleb (binary_round_aux prec emax false m1 e1 l1)
        (binary_round_aux prec emax false m2 e2 l2) = true.
Proof.
  intros Hp1 Hq1 Hm1 Hk1 Hn1 Hp2 Hq2 Hm2 Hk2 Hn2 Hv.
  destruct (bra_shape m1 e1 l1 p1 q1 Hp1 Hq1 Hm1 Hk1 Hn1) as (-> & HM1 & HE1 & HN1).
  destruct (bra_shape m2 e2 l2 p2 q2 Hp2 Hq2 Hm2 Hk2 Hn2) as (-> & HM2 & HE2 & HN2).
  apply finish_mono; auto.
  set (E1 := fexp64 (Zdigits2 m1 + e1)) in *.
  set (E2 := fexp64 (Zdigits2 m2 + e2)) in *.
  assert (E1 <= E2) as HE.
  { assert (0 <= m1) as Hm10 by (subst m1; apply Z.div_pos; lia).
    destruct (Z.eq_dec m1 0) as [Z1 | NZ1].
    - subst E1. rewrite Z1 in *. simpl Zdigits2 in *. rewrite fexp64_eq in *. lia.
    - pose proof (mag_le p1 q1 e1 p2 q2 e2 Hp1 Hq1 Hp2 Hq2 Hv ltac:(lia)) as Hmag.
      subst E1 E2. rewrite !fexp64_eq. subst m1 m2. lia. }
  destruct (Z.eq_dec E1 E2) as [EE | NE]; [right | left; lia].
  split; [exact EE |].
  assert (0 < 2 ^ (E1 - e1)) as P1 by (apply Z.pow_pos_nonneg; lia).
  assert (0 < 2 ^ (E2 - e2)) as P2 by (apply Z.pow_pos_nonneg; lia).
  apply rne_mono.
  - apply key_nonneg; [lia | nia].
  - apply key_mono; try lia; try nia.
    apply (shifted_le p1 q1 e1 p2 q2 e2); auto; lia.
Qed.

(** ** Values of non-negative numbers *)

(** The order of two exact values can be read at any common exponent. *)
Lemma vle_at (c0 p1 q1 e1 p2 q2 e2 : Z) :
  c0 <= e1 -> c0 <= e2 ->
  (vle p1 q1 e1 p2 q2 e2 <-> p1 * q2 * 2 ^ (e1 - c0) <= p2 * q1 * 2 ^ (e2 - c0)).
Proof.
  intros H1 H2. unfold vle. set (c := Z.min e1 e2).
  assert (0 < 2 ^ (c - c0)) as P by (apply Z.pow_pos_nonneg; lia).
  assert (2 ^ (e1 - c0) = 2 ^ (e1 - c) * 2 ^ (c - c0)) as ->
    by (rewrite <- Z.pow_add_r by lia; f_equal; lia).
  assert (2 ^ (e2 - c0) = 2 ^ (e2 - c) * 2 ^ (c - c0)) as ->
    by (rewrite <- Z.pow_add_r by lia; f_equal; lia).
  rewrite !Z.mul_assoc.
  apply (Z.mul_le_mono_pos_r (p1 * q2 * 2 ^ (e1 - c)) (p2 * q1 * 2 ^ (e2 - c)) _ P).
Qed.

Lemma valid_finite (s : bool) (m : positive) (e : Z) :
  valid (S754_finite s m e) ->
  -1074 <= e <= 971 /\ Z.pos m < 2 ^ 53 /\ (-1074 < e -> 2 ^ 52 <= Z.pos m)
  /\ fexp64 (Zdigits2 (Z.pos m) + e) = e.
Proof.
  unfold valid, SpecFloat.valid_binary, bounded, canonical_mantissa.
  intros H. apply andb_true_iff in H as (Hc & He).
  apply Z.eqb_eq in Hc. apply Z.leb_le in He.
  change (emax - prec) with 971 in He.
  change (SpecFloat.fexp prec emax) with fexp64 in Hc.
  change (Z.pos (digits2_pos m)) with (Zdigits2 (Z.pos m)) in Hc.
  destruct (dg_bounds (Z.pos m) ltac:(lia)) as (Hd & Hb).
  set (d := Zdigits2 (Z.pos m)) in *.
  rewrite fexp64_eq in Hc.
  split; [lia |]. split; [| split; [| rewrite fexp64_eq; exact Hc]].
  - assert (2 ^ d <= 2 ^ 53) by (apply Z.pow_le_mono_r; lia). lia.
  - intros He'. assert (d = 53) as Ed by lia. rewrite Ed in Hb.
    change (2 ^ (53 - 1)) with (2 ^ 52) in Hb. lia.
Qed.

Lemma top_pos : 0 < top.
Proof. unfold top. apply Z.pow_pos_nonneg; lia. Qed.

Lemma top_gt_finite (m : positive) (e : Z) :
  Z.pos m < 2 ^ 53 -> e <= 971 -> -1074 <= e -> Z.pos m * 2 ^ (e + 1074) < top.
Proof.
  intros Hm He He'. unfold top.
  assert (0 < 2 ^ (e + 1074)) by (apply Z.pow_pos_nonneg; lia).
  assert (2 ^ (e + 1074) <= 2 ^ 2045) by (apply Z.pow_le_mono_r; lia).
  assert (2 ^ 2098 = 2 ^ 53 * 2 ^ 2045) as -> by (rewrite <- Z.pow_add_r by lia; reflexivity).
  nia.
Qed.

Lemma sval_pos_finite (s : bool) (m : positive) (e : Z) :
  -1074 <= e -> 0 < sval (S754_finite s m e).
Proof.
  intros He. cbn [sval].
  assert (0 < 2 ^ (e + 1074)) by (apply Z.pow_pos_nonneg; lia).
  apply Z.mul_pos_pos; lia.
Qed.

Lemma scale_lt (m1 m2 A B : Z) :
  0 <= m1 < 2 ^ 53 -> 2 ^ 52 <= m2 -> 0 < A -> 2 <= B -> m1 * A < m2 * (A * B).
Proof.
  intros H1 H2 HA HB.
  apply Z.lt_le_trans with (2 ^ 53 * A).
  - apply Z.mul_lt_mono_pos_r; lia.
  - change (2 ^ 53) with (2 ^ 52 * 2). rewrite <- Z.mul_assoc.
    apply Z.mul_le_mono_nonneg; try lia.
    rewrite (Z.mul_comm 2 A). apply Z.mul_le_mono_nonneg_l; lia.
Qed.

Lemma SFcompare_sval (x y : spec_float) :
  nonneg x -> nonneg y -> valid x -> valid y ->
  SFcompare x y = Some (sval x ?= sval y).
Proof.
  intros Nx Ny Vx Vy.
  destruct x as [sx | [|] | | [|] mx ex]; try contradiction;
  destruct y as [sy | [|] | | [|] my ey]; try contradiction.
  - reflexivity.
  - simpl. unfold top. reflexivity.
  - destruct (valid_finite _ _ _ Vy) as (He & _).
    pose proof (sval_pos_finite false my ey ltac:(lia)) as P.
    cbn [SFcompare]. f_equal. symmetry. apply Z.compare_lt_iff. exact P.
  - simpl. unfold top. reflexivity.
  - cbn [SFcompare sval]. now rewrite Z.compare_refl.
  - destruct (valid_finite _ _ _ Vy) as (He & Hm & _).
    pose proof (top_gt_finite my ey Hm ltac:(lia) ltac:(lia)) as P.
    cbn [SFcompare sval]. f_equal. symmetry. apply Z.compare_gt_iff. exact P.
  - destruct (valid_finite _ _ _ Vx) as (He & _).
    pose proof (sval_pos_finite false mx ex ltac:(lia)) as P.
    cbn [SFcompare]. f_equal. symmetry. apply Z.compare_gt_iff. exact P.
  - destruct (valid_finite _ _ _ Vx) as (He & Hm & _).
    pose proof (top_gt_finite mx ex Hm ltac:(lia) ltac:(lia)) as P.
    cbn [SFcompare sval]. f_equal. symmetry. apply Z.compare_lt_iff. exact P.
  - destruct (valid_finite _ _ _ Vx) as (Hex & Hmx & Hnx & _).
    destruct (valid_finite _ _ _ Vy) as (Hey & Hmy & Hny & _).
    cbn [SFcompare sval]. f_equal.
    assert (0 < 2 ^ (ex + 1074)) as Px by (apply Z.pow_pos_nonneg; lia).
    assert (0 < 2 ^ (ey + 1074)) as Py by (apply Z.pow_pos_nonneg; lia).
    destruct (Z.compare_spec ex ey) as [E | L | G].
    + subst ey. change (Pos.compare_cont Eq mx my) with (Pos.compare mx my).
      symmetry. destruct (Pos.compare_spec mx my) as [E | L | G].
      * subst. apply Z.compare_refl.
      * apply Z.compare_lt_iff. apply Z.mul_lt_mono_pos_r; [exact Px | lia].
      * apply Z.compare_gt_iff. apply Z.mul_lt_mono_pos_r; [exact Px | lia].
    + symmetry. apply Z.compare_lt_iff.
      assert (2 ^ (ey + 1074) = 2 ^ (ex + 1074) * 2 ^ (ey - ex)) as ->
        by (rewrite <- Z.pow_add_r by lia; f_equal; lia).
      assert (2 ^ 1 <= 2 ^ (ey - ex)) as P2 by (apply Z.pow_le_mono_r; lia).
      specialize (Hny ltac:(lia)).
      change (2 ^ 1) with 2 in P2. apply scale_lt; lia.
    + symmetry. apply Z.compare_gt_iff.
      assert (2 ^ (ex + 1074) = 2 ^ (ey + 1074) * 2 ^ (ex - ey)) as ->
        by (rewrite <- Z.pow_add_r by lia; f_equal; lia).
      assert (2 ^ 1 <= 2 ^ (ex - ey)) as P2 by (apply Z.pow_le_mono_r; lia).
      specialize (Hnx ltac:(lia)).
      change (2 ^ 1) with 2 in P2. apply scale_lt; lia.
Qed.

Lemma SFleb_sval (x y : spec_float) :
  nonneg x -> nonneg y -> valid x -> valid y ->
  SFleb x y = (sval x <=? sval y).
Proof.
  intros. unfold SFleb. rewrite SFcompare_sval by assumption.
  unfold Z.leb. destruct (sval x ?= sval y); reflexivity.
Qed.

Lemma SFltb_sval (x y : spec_float) :
  nonneg x -> nonneg y -> valid x -> valid y ->
  SFltb x y = (sval x <? sval y).
Proof.
  intros. unfold SFltb. rewrite SFcompare_sval by assumption.
  unfold Z.ltb. destruct (sval x ?= sval y); reflexivity.
Qed.

Lemma vle_sval (m1 : positive) (e1 : Z) (m2 : positive) (e2 : Z) :
  -1074 <= e1 -> -1074 <= e2 ->
  (vle (Z.pos m1) 1 e1 (Z.pos m2) 1 e2
   <-> sval (S754_finite false m1 e1) <= sval (S754_finite false m2 e2)).
Proof.
  intros H1 H2. rewrite (vle_at (-1074)) by lia. cbn [sval].
  replace (e1 - -1074) with (e1 + 1074) by lia.
  replace (e2 - -1074) with (e2 + 1074) by lia.
  rewrite !Z.mul_1_r. reflexivity.
Qed.

(** ** Division by three *)

Lemma new_location_key (nb k q : Z) :
  Z.even nb = true -> 0 < nb -> 0 <= k < nb ->
  recKey (shr_record_of_loc q (new_location nb k)) = key (nb * q + k) nb.
Proof.
  intros Hev Hnb Hk. unfold new_location, new_location_even. rewrite Hev.
  unfold key.
  replace (2 * (nb * q + k)) with (2 * k + (2 * q) * nb) by ring.
  rewrite Z.div_add, Z_mod_plus_full by lia.
  destruct (Z.eqb_spec k 0) as [K0 | KN].
  - subst k. change (2 * 0) with 0. rewrite Z.div_0_l, Z.mod_0_l by lia.
    cbn [shr_record_of_loc]. rewrite recKey_eq. cbn [Z.b2z Z.eqb]. lia.
  - destruct (Z.compare_spec (2 * k) nb) as [E | L | G]; cbn [shr_record_of_loc];
      rewrite recKey_eq; cbn [Z.b2z].
    + rewrite E, Z.div_same, Z.mod_same by lia. cbn [Z.eqb]. lia.
    + rewrite Z.div_small, Z.mod_small by lia.
      destruct (Z.eqb_spec (2 * k) 0); lia.
    + assert (2 * k / nb = 1) as -> by (symmetry; apply (Z.div_unique _ nb 1 (2 * k - nb)); lia).
      assert ((2 * k) mod nb = 2 * k - nb) as ->
        by (symmetry; apply (Z.mod_unique _ nb 1 (2 * k - nb)); lia).
      destruct (Z.eqb_spec (2 * k - nb) 0); lia.
Qed.

Lemma dg_ge (Q k : Z) : 0 <= k -> 2 ^ k <= Q -> k + 1 <= Zdigits2 Q.
Proof.
  intros Hk HQ.
  assert (0 < Q) as HQ0 by (pose proof (Z.pow_pos_nonneg 2 k); lia).
  destruct (dg_bounds Q HQ0) as (Hd & Hb).
  destruct (Z_le_gt_dec (k + 1) (Zdigits2 Q)) as [L | G]; [exact L | exfalso].
  assert (2 ^ Zdigits2 Q <= 2 ^ k) by (apply Z.pow_le_mono_r; lia). lia.
Qed.

Lemma div_core_triple (mx : positive) (ex : Z) :
  exists mz ez lz s,
    SFdiv_core_binary prec emax (Z.pos mx) ex m3 (-51) = (mz, ez, lz) /\
    0 <= s /\ s = ex + 51 - ez /\
    mz = (Z.pos mx * 2 ^ s) / m3 /\
    recKey (shr_record_of_loc mz lz) = key (Z.pos mx * 2 ^ s) m3 /\
    0 <= fexp64 (Zdigits2 mz + ez) - ez.
Proof.
  unfold SFdiv_core_binary.
  change (Zdigits2 m3) with 53.
  change (SpecFloat.fexp prec emax) with fexp64.
  set (d1 := Zdigits2 (Z.pos mx)).
  set (ez := Z.min (fexp64 (d1 + ex - (53 + -51))) (ex - -51)).
  set (s := ex - -51 - ez).
  assert (0 <= s) as Hs by (subst s ez; lia).
  assert ((match s with
           | 0 => Z.pos mx
           | Z.pos _ => Z.shiftl (Z.pos mx) s
           | Z.neg _ => 0
           end) = Z.pos mx * 2 ^ s) as ->.
  { destruct s as [| ps | ps] eqn:Es; [simpl; lia | | lia].
    now rewrite Z.shiftl_mul_pow2 by lia. }
  set (p := Z.pos mx * 2 ^ s).
  assert (0 < 2 ^ s) as Ps by (apply Z.pow_pos_nonneg; lia).
  assert (0 < p) as Hp by (subst p; apply Z.mul_pos_pos; lia).
  pose proof (Z.div_mod p m3 ltac:(unfold m3; lia)) as D.
  pose proof (Z.mod_pos_bound p m3 ltac:(unfold m3; lia)) as B.
  unfold Z.div, Z.modulo in D, B.
  destruct (Z.div_eucl p m3) as [Q R] eqn:DE.
  exists Q, ez, (new_location m3 R), s.
  split; [reflexivity |]. split; [exact Hs |]. split; [subst s; lia |].
  assert (Q = p / m3) as HQ by (unfold Z.div; now rewrite DE).
  split; [exact HQ |]. split.
  - rewrite new_location_key; [f_equal; lia | reflexivity | unfold m3; lia | exact B].
  - (* the quotient has enough digits for its exponent *)
    destruct (dg_bounds (Z.pos mx) ltac:(lia)) as (Hd1 & Hb1). fold d1 in Hd1, Hb1.
    assert (0 <= Q) as HQ0 by (rewrite HQ; apply Z.div_pos; unfold m3; lia).
    assert (ez = ex + 51 - s) as Eez by (subst s; lia).
    assert (ez <= fexp64 (d1 + ex - 2)) as Hez
      by (subst ez; replace (d1 + ex - (53 + -51)) with (d1 + ex - 2) by lia; lia).
    rewrite fexp64_eq in Hez |- *.
    assert (2 ^ (d1 - 1) * 2 ^ s <= p) as Hlow
      by (subst p; apply Z.mul_le_mono_nonneg_r; lia).
    rewrite <- Z.pow_add_r in Hlow by lia.
    destruct (Z.eq_dec Q 0) as [Q0 | QN].
    + rewrite Q0. change (Zdigits2 0) with 0.
      assert (p < m3) as Hpm by (rewrite Q0 in D; lia).
      assert (d1 - 1 + s < 53) as Hds.
      { apply (Z.pow_lt_mono_r_iff 2); [lia | lia |]. unfold m3 in Hpm.
        change (2 ^ 53) with 9007199254740992. lia. }
      lia.
    + destruct (dg_bounds Q ltac:(lia)) as (HdQ & _).
      destruct (Z_le_gt_dec (d1 + s - 53) 1) as [Small | Big]; [lia |].
      assert (2 ^ (d1 + s - 54) <= Q) as HQk.
      { rewrite HQ. apply Z.div_le_lower_bound; [unfold m3; lia |].
        apply Z.le_trans with (2 ^ 53 * 2 ^ (d1 + s - 54)).
        - apply Z.mul_le_mono_nonneg_r; [apply Z.pow_nonneg; lia | unfold m3].
          change (2 ^ 53) with 9007199254740992. lia.
        - rewrite <- Z.pow_add_r by lia.
          replace (53 + (d1 + s - 54)) with (d1 - 1 + s) by lia. exact Hlow. }
      pose proof (dg_ge Q (d1 + s - 54) ltac:(lia) HQk). lia.
Qed.

(** ** Shapes shared by the operations *)

Lemma finish_nonneg (M E : Z) : 0 <= M -> nonneg (finish M E).
Proof.
  intros HM. unfold finish.
  destruct (M =? 0), (M =? 2 ^ 53), (E + 1 <=? 971), (E <=? 971); exact I.
Qed.

Lemma SFleb_zero_l (s : bool) (z : spec_float) :
  nonneg z -> SFleb (S754_zero s) z = true.
Proof. destruct z as [? | [|] | | [|] ? ?]; simpl; intros H; try contradiction; reflexivity. Qed.

Lemma SFleb_inf_r (z : spec_float) :
  nonneg z -> SFleb z (S754_infinity false) = true.
Proof. destruct z as [? | [|] | | [|] ? ?]; simpl; intros H; try contradiction; reflexivity. Qed.

Lemma key_exact (p : Z) : key p 1 = 4 * p.
Proof. unfold key. rewrite Z.div_1_r, Z.mod_1_r. cbn [Z.eqb]. lia. Qed.

Lemma recKey_exact (p : Z) : recKey (shr_record_of_loc p loc_Exact) = key p 1.
Proof. rewrite key_exact. cbn [shr_record_of_loc]. rewrite recKey_eq. simpl Z.b2z. lia. Qed.

Lemma roundExact_nonneg (p : positive) (e : Z) :
  fits p e -> nonneg (roundExact p e).
Proof.
  intros Hf. unfold roundExact.
  destruct (bra_shape (Z.pos p) e loc_Exact (Z.pos p) 1) as (-> & HM & _);
    try lia; auto using recKey_exact.
  - now rewrite Z.div_1_r.
  - apply finish_nonneg. lia.
Qed.

Lemma roundExact_mono (p1 : positive) (e1 : Z) (p2 : positive) (e2 : Z) :
  fits p1 e1 -> fits p2 e2 -> -1074 <= e1 -> -1074 <= e2 ->
  Z.pos p1 * 2 ^ (e1 + 1074) <= Z.pos p2 * 2 ^ (e2 + 1074) ->
  SFleb (roundExact p1 e1) (roundExact p2 e2) = true.
Proof.
  intros F1 F2 H1 H2 Hv. unfold roundExact.
  apply (round_mono _ _ _ (Z.pos p1) 1 _ _ _ (Z.pos p2) 1);
    try lia; auto using recKey_exact; try (now rewrite Z.div_1_r).
  apply (vle_at (-1074)); try lia.
  replace (e1 - -1074) with (e1 + 1074) by lia.
  replace (e2 - -1074) with (e2 + 1074) by lia. lia.
Qed.

(** Rounding a representable value gives it back. *)
Lemma roundExact_id (m : positive) (e : Z) :
  valid (S754_finite false m e) ->
  roundExact m e = S754_finite false m e /\ fits m e.
Proof.
  intros scaled. destruct (valid_finite _ _ _ scaled) as (He & Hm & Hn & Hc).
  assert (fits m e) as Hf by (unfold fits; lia).
  split; [| exact Hf]. unfold roundExact.
  destruct (bra_shape (Z.pos m) e loc_Exact (Z.pos m) 1) as (-> & _);
    try lia; auto using recKey_exact.
  - now rewrite Z.div_1_r.
  - rewrite Hc. replace (e - e) with 0 by lia.
    change (2 ^ 0) with 1. rewrite Z.mul_1_r, key_exact.
    replace (4 * Z.pos m) with (4 * Z.pos m + 0) by lia.
    rewrite (rne_split (Z.pos m) 0) by lia. cbn [Z.leb Z.compare].
    unfold finish.
    destruct (Z.eqb_spec (Z.pos m) 0); [lia |].
    destruct (Z.eqb_spec (Z.pos m) (2 ^ 53)); [lia |].
    destruct (Z.leb_spec e 971); [| lia]. reflexivity.
Qed.

(** ** Multiplication by a normal constant *)

Section MulConst.

Variables (mc : positive) (ec : Z).
Hypothesis Hmc : 2 ^ 52 <= Z.pos mc.

Lemma mulc_finite (mx : positive) (ex : Z) :
  mulc mc ec (S754_finite false mx ex) = roundExact (mx * mc) (ex + ec)
  /\ fits (mx * mc) (ex + ec).
Proof.
  split; [reflexivity |]. unfold fits. rewrite fexp64_eq.
  assert (2 ^ 52 <= Z.pos (mx * mc)) as H by (rewrite Pos2Z.inj_mul; nia).
  pose proof (dg_ge _ 52 ltac:(lia) H). lia.
Qed.

End MulConst.

(** ** Addition of a constant *)

Lemma pos_iter_xO (m d : positive) :
  Z.pos (Pos.iter xO m d) = Z.pos m * 2 ^ Z.pos d.
Proof.
  induction d as [| d IH] using Pos.peano_ind.
  - simpl Pos.iter. rewrite Pos2Z.inj_xO. change (2 ^ 1) with 2. lia.
  - rewrite Pos.iter_succ, Pos2Z.inj_xO, IH, Pos2Z.inj_succ, Z.pow_succ_r by lia. ring.
Qed.

Lemma shl_align_spec (mx : positive) (ex ex' : Z) :
  (ex' <= ex ->
   snd (shl_align mx ex ex') = ex' /\
   Z.pos (fst (shl_align mx ex ex')) = Z.pos mx * 2 ^ (ex - ex')) /\
  (ex <= ex' -> shl_align mx ex ex' = (mx, ex)).
Proof.
  unfold shl_align. destruct (ex' - ex) as [| d | d] eqn:E; split; intros H;
    cbn [fst snd]; try lia; try reflexivity.
  - assert (ex = ex') as -> by lia. rewrite Z.sub_diag. simpl. split; lia.
  - split; [reflexivity |]. rewrite pos_iter_xO. f_equal. f_equal. lia.
Qed.

Lemma dg_shift (m k : Z) : 0 < m -> 0 <= k -> Zdigits2 (m * 2 ^ k) = Zdigits2 m + k.
Proof.
  intros Hm Hk. destruct (dg_bounds m Hm) as (Hd & Hb).
  assert (0 < 2 ^ k) by (apply Z.pow_pos_nonneg; lia).
  apply dg_unique; [lia |].
  replace (Zdigits2 m + k - 1) with (Zdigits2 m - 1 + k) by lia.
  rewrite !Z.pow_add_r by lia. split.
  - apply Z.mul_le_mono_nonneg_r; lia.
  - apply Z.mul_lt_mono_pos_r; lia.
Qed.

(** [binary_round] on a positive integer: an exact rounding of the same
    value at an exponent that fits. *)
Lemma binary_round_exact (S : positive) (e : Z) :
  -1074 <= e ->
  exists (mz : positive) (ez : Z),
    binary_round prec emax false S e = roundExact mz ez /\
    fits mz ez /\ -1074 <= ez /\
    Z.pos mz * 2 ^ (ez + 1074) = Z.pos S * 2 ^ (e + 1074).
Proof.
  intros He. unfold binary_round.
  change (SpecFloat.fexp prec emax) with fexp64.
  change (Z.pos (digits2_pos S)) with (Zdigits2 (Z.pos S)).
  set (t := fexp64 (Zdigits2 (Z.pos S) + e)).
  assert (-1074 <= t) as Ht by (subst t; rewrite fexp64_eq; lia).
  destruct (shl_align_spec S e t) as (Hle & Hge).
  destruct (Z_le_gt_dec t e) as [L | G].
  - destruct (Hle L) as (E2 & E1).
    destruct (shl_align S e t) as [mz ez]. cbn [fst snd] in E1, E2. subst ez.
    exists mz, t. split; [reflexivity |]. split; [| split; [exact Ht |]].
    + unfold fits. rewrite E1, dg_shift by lia.
      replace (Zdigits2 (Z.pos S) + (e - t) + t) with (Zdigits2 (Z.pos S) + e) by lia.
      fold t. lia.
    + rewrite E1, <- Z.mul_assoc, <- Z.pow_add_r by lia. f_equal. f_equal. lia.
  - rewrite (Hge ltac:(lia)). exists S, e.
    split; [reflexivity |]. split; [| split; [exact He | reflexivity]].
    unfold fits. fold t. lia.
Qed.

Section AddConst.

Variables (mk : positive) (ek : Z).
Hypothesis Vk : valid (S754_finite false mk ek).

(** The sum with a zero or positive finite [b] is an exact rounding of
    the sum of the two values. *)
Lemma addc_exact (b : spec_float) :
  nonneg b -> valid b -> sval b < top ->
  exists (mz : positive) (ez : Z),
    addc mk ek b = roundExact mz ez /\ fits mz ez /\ -1074 <= ez /\
    Z.pos mz * 2 ^ (ez + 1074) = sval (S754_finite false mk ek) + sval b.
Proof.
  intros Nb Vb Fb. destruct (valid_finite _ _ _ Vk) as (Hek & _).
  destruct b as [sb | [|] | | [|] mb eb]; try contradiction.
  - exists mk, ek. destruct (roundExact_id mk ek Vk) as (E & F).
    split; [now rewrite E |]. split; [exact F |]. split; [lia |]. cbn [sval]. lia.
  - cbn [sval] in Fb. lia.
  - destruct (valid_finite _ _ _ Vb) as (Heb & _).
    unfold addc, SFadd. cbn [cond_Zopp].
    set (ez := Z.min ek eb).
    destruct (shl_align_spec mk ek ez) as (Hk & _).
    destruct (shl_align_spec mb eb ez) as (Hb & _).
    destruct (Hk ltac:(subst ez; lia)) as (_ & Ek).
    destruct (Hb ltac:(subst ez; lia)) as (_ & Eb).
    set (ak := fst (shl_align mk ek ez)) in *.
    set (ab := fst (shl_align mb eb ez)) in *.
    change (Z.pos ak + Z.pos ab) with (Z.pos (ak + ab)).
    cbn [binary_normalize].
    destruct (binary_round_exact (ak + ab) ez ltac:(subst ez; lia))
      as (mz & ez' & E & F & Hez & Hv).
    exists mz, ez'. split; [exact E |]. split; [exact F |]. split; [exact Hez |].
    rewrite Hv, Pos2Z.inj_add, Ek, Eb. cbn [sval].
    rewrite Z.mul_add_distr_r, <- !Z.mul_assoc, <- !Z.pow_add_r by (subst ez; lia).
    f_equal; f_equal; f_equal; lia.
Qed.

End AddConst.

(** ** The operations are monotone on non-negative values *)

Lemma div3_finite (mx : positive) (ex : Z) :
  exists mz ez lz s,
    div3 (S754_finite false mx ex) = binary_round_aux prec emax false mz ez lz /\
    0 <= s /\ s = ex + 51 - ez /\
    mz = (Z.pos mx * 2 ^ s) / m3 /\
    recKey (shr_record_of_loc mz lz) = key (Z.pos mx * 2 ^ s) m3 /\
    0 <= fexp64 (Zdigits2 mz + ez) - ez.
Proof.
  destruct (div_core_triple mx ex) as (mz & ez & lz & s & E & H).
  exists mz, ez, lz, s. split; [| exact H].
  unfold div3, c3, SFdiv. fold m3. rewrite E. reflexivity.
Qed.

Lemma div3_nonneg (x : spec_float) : nonneg x -> nonneg (div3 x).
Proof.
  destruct x as [sx | [|] | | [|] mx ex]; try contradiction; intros _; try exact I.
  destruct (div3_finite mx ex) as (mz & ez & lz & s & -> & Hs & Es & Hm & Hk & Hn).
  assert (0 < 2 ^ s) by (apply Z.pow_pos_nonneg; lia).
  destruct (bra_shape mz ez lz (Z.pos mx * 2 ^ s) m3) as (-> & HM & _); auto;
    try (unfold m3; lia); try nia.
  apply finish_nonneg. lia.
Qed.

Lemma div3_mono (x y : spec_float) :
  nonneg x -> nonneg y -> valid x -> valid y -> sval x <= sval y ->
  SFleb (div3 x) (div3 y) = true.
Proof.
  intros Nx Ny Vx Vy Hv.
  destruct x as [sx | [|] | | [|] mx ex]; try contradiction.
  - apply SFleb_zero_l, div3_nonneg, Ny.
  - destruct y as [sy | [|] | | [|] my ey]; try contradiction; try reflexivity.
    destruct (valid_finite _ _ _ Vy) as (He & Hm & _).
    pose proof (top_gt_finite my ey Hm ltac:(lia) ltac:(lia)). cbn [sval] in Hv. lia.
  - destruct (valid_finite _ _ _ Vx) as (Hex & _).
    destruct y as [sy | [|] | | [|] my ey]; try contradiction.
    + pose proof (sval_pos_finite false mx ex ltac:(lia)). cbn [sval] in *. lia.
    + apply SFleb_inf_r. apply div3_nonneg. exact I.
    + destruct (valid_finite _ _ _ Vy) as (Hey & _).
      destruct (div3_finite mx ex) as (mz1 & ez1 & lz1 & s1 & -> & Hs1 & Es1 & Hm1 & Hk1 & Hn1).
      destruct (div3_finite my ey) as (mz2 & ez2 & lz2 & s2 & -> & Hs2 & Es2 & Hm2 & Hk2 & Hn2).
      assert (0 < 2 ^ s1) by (apply Z.pow_pos_nonneg; lia).
      assert (0 < 2 ^ s2) by (apply Z.pow_pos_nonneg; lia).
      apply (round_mono _ _ _ (Z.pos mx * 2 ^ s1) m3 _ _ _ (Z.pos my * 2 ^ s2) m3);
        auto; try (unfold m3; lia); try nia.
      cbn [sval] in Hv.
      apply (vle_at (-1074 - 51 - s1 - s2)); try lia.
      replace (Z.pos mx * 2 ^ s1 * m3 * 2 ^ (ez1 - (-1074 - 51 - s1 - s2)))
        with ((Z.pos mx * 2 ^ (ex + 1074) * 2 ^ (s1 + s2 + 102)) * m3).
      2:{ rewrite <- !Z.mul_assoc. f_equal.
          rewrite (Z.mul_comm m3), !Z.mul_assoc. f_equal.
          rewrite <- !Z.pow_add_r by lia. f_equal. lia. }
      replace (Z.pos my * 2 ^ s2 * m3 * 2 ^ (ez2 - (-1074 - 51 - s1 - s2)))
        with ((Z.pos my * 2 ^ (ey + 1074) * 2 ^ (s1 + s2 + 102)) * m3).
      2:{ rewrite <- !Z.mul_assoc. f_equal.
          rewrite (Z.mul_comm m3), !Z.mul_assoc. f_equal.
          rewrite <- !Z.pow_add_r by lia. f_equal. lia. }
      apply Z.mul_le_mono_nonneg_r; [unfold m3; lia |].
      apply Z.mul_le_mono_nonneg_r; [apply Z.pow_nonneg; lia | exact Hv].
Qed.

Section MulConstMono.

Variables (mc : positive) (ec : Z).
Hypothesis Hmc : 2 ^ 52 <= Z.pos mc.
Hypothesis Hec : -1074 <= ec.

Lemma mulc_nonneg (x : spec_float) :
  nonneg x -> sval x < top -> nonneg (mulc mc ec x).
Proof.
  destruct x as [sx | [|] | | [|] mx ex]; try contradiction; intros _ Hf.
  - destruct sx; exact I.
  - pose proof top_pos. cbn [sval] in Hf. lia.
  - destruct (mulc_finite mc ec Hmc mx ex) as (-> & F).
    now apply roundExact_nonneg.
Qed.

Lemma mulc_mono (x y : spec_float) :
  nonneg x -> nonneg y -> valid x -> valid y ->
  sval x <= sval y -> sval y < top ->
  SFleb (mulc mc ec x) (mulc mc ec y) = true.
Proof.
  intros Nx Ny Vx Vy Hv Hy.
  destruct x as [sx | [|] | | [|] mx ex]; try contradiction.
  - replace (mulc mc ec (S754_zero sx)) with (S754_zero sx)
      by (destruct sx; reflexivity).
    apply SFleb_zero_l, mulc_nonneg; auto.
  - cbn [sval] in Hv. lia.
  - destruct (valid_finite _ _ _ Vx) as (Hex & _).
    destruct y as [sy | [|] | | [|] my ey]; try contradiction.
    + pose proof (sval_pos_finite false mx ex ltac:(lia)). cbn [sval] in *. lia.
    + cbn [sval] in Hy. lia.
    + destruct (valid_finite _ _ _ Vy) as (Hey & _).
      destruct (mulc_finite mc ec Hmc mx ex) as (-> & F1).
      destruct (mulc_finite mc ec Hmc my ey) as (-> & F2).
      cbn [sval] in Hv.
      assert (0 < 2 ^ (ec + 1074)) by (apply Z.pow_pos_nonneg; lia).
      unfold roundExact.
      apply (round_mono _ _ _ (Z.pos (mx * mc)) 1 _ _ _ (Z.pos (my * mc)) 1);
        try lia; auto using recKey_exact; try (now rewrite Z.div_1_r).
      apply (vle_at (-1074 - 1074)); try lia.
      rewrite !Z.mul_1_r, !Pos2Z.inj_mul.
      assert (forall m e, -1074 <= e ->
                Z.pos m * Z.pos mc * 2 ^ (e + ec - (-1074 - 1074))
                = (Z.pos m * 2 ^ (e + 1074)) * (Z.pos mc * 2 ^ (ec + 1074))) as Hsplit.
      { intros m e He.
        replace (e + ec - (-1074 - 1074)) with ((e + 1074) + (ec + 1074)) by lia.
        rewrite Z.pow_add_r by lia. ring. }
      rewrite !Hsplit by lia.
      apply Z.mul_le_mono_nonneg_r; [| exact Hv].
      apply Z.mul_nonneg_nonneg; lia.
Qed.

End MulConstMono.

Section AddConstMono.

Variables (mk : positive) (ek : Z).
Hypothesis Vk : valid (S754_finite false mk ek).

Lemma addc_nonneg (b : spec_float) :
  nonneg b -> valid b -> sval b < top -> nonneg (addc mk ek b).
Proof.
  intros Nb Vb Fb.
  destruct (addc_exact mk ek Vk b Nb Vb Fb) as (mz & ez & -> & F & _).
  now apply roundExact_nonneg.
Qed.

Lemma addc_mono (x y : spec_float) :
  nonneg x -> nonneg y -> valid x -> valid y ->
  sval x <= sval y -> sval y < top ->
  SFleb (addc mk ek x) (addc mk ek y) = true.
Proof.
  intros Nx Ny Vx Vy Hv Hy.
  destruct (addc_exact mk ek Vk x Nx Vx ltac:(lia)) as (m1 & e1 & -> & F1 & H1 & E1).
  destruct (addc_exact mk ek Vk y Ny Vy Hy) as (m2 & e2 & -> & F2 & H2 & E2).
  apply roundExact_mono; auto. lia.
Qed.

End AddConstMono.

(** ** Primitive floats

    The axioms of [FloatAxioms] give every primitive operation as the
    corresponding function of [SpecFloat] on [Prim2SF]; on non-negative
    floats the comparisons are those of the scaled values. *)

Lemma prim_valid (x : float) : valid (Prim2SF x).
Proof. apply Prim2SF_valid. Qed.

Lemma leb_scaled (x y : float) : nonNeg x -> nonNeg y -> (x <=? y)%float = (scaled x <=? scaled y).
Proof. intros. rewrite leb_spec. apply SFleb_sval; auto using prim_valid. Qed.

Lemma ltb_scaled (x y : float) : nonNeg x -> nonNeg y -> (x <? y)%float = (scaled x <? scaled y).
Proof. intros. rewrite ltb_spec. apply SFltb_sval; auto using prim_valid. Qed.

Lemma eqb_scaled (x y : float) : nonNeg x -> nonNeg y -> (x =? y)%float = (scaled x =? scaled y).
Proof.
  intros. rewrite eqb_spec. unfold SFeqb.
  rewrite SFcompare_sval by auto using prim_valid.
  unfold scaled. now rewrite Z.eqb_compare.
Qed.

Lemma nonNeg_of_leb (x y : float) : nonNeg x -> (x <=? y)%float = true -> nonNeg y.
Proof.
  unfold nonNeg. rewrite leb_spec.
  destruct (Prim2SF x) as [sx | [|] | | [|] mx ex]; try contradiction; intros _;
    destruct (Prim2SF y) as [sy | [|] | | [|] my ey]; simpl; try discriminate; auto.
Qed.

Lemma nonNeg_zero : nonNeg 0%float.
Proof. exact I. Qed.

(** ** The steps of [scoreToConfidence] *)

Lemma sf_three : Prim2SF 3%float = c3.
Proof. reflexivity. Qed.

Lemma nonNeg_one : nonNeg 1%float.
Proof. exact I. Qed.

Lemma div3_scaled (x y : float) :
  nonNeg x -> nonNeg y -> scaled x <= scaled y ->
  nonNeg (x / 3)%float /\ nonNeg (y / 3)%float /\ scaled (x / 3)%float <= scaled (y / 3)%float.
Proof.
  intros Nx Ny Hv.
  assert (forall z, nonNeg z -> nonNeg (z / 3)%float) as HN.
  { intros z Nz. unfold nonNeg. rewrite div_spec, sf_three. now apply div3_nonneg. }
  split; [auto |]. split; [auto |].
  apply Z.leb_le. rewrite <- leb_scaled by auto.
  rewrite leb_spec, !div_spec, sf_three.
  apply div3_mono; auto using prim_valid.
Qed.

(** [Math.min(a, 1)] *)
Lemma mathMin_one (a : float) :
  nonNeg a ->
  let t := mathMin a 1 in
  nonNeg t /\ scaled t = Z.min (scaled a) (scaled 1%float) /\ (scaled 1%float <= scaled a -> t = 1%float).
Proof.
  intros Na. cbv zeta. unfold mathMin.
  assert (is_nan a = false) as ->.
  { unfold is_nan. rewrite (eqb_scaled a a Na Na), Z.eqb_refl. reflexivity. }
  change (is_nan 1) with false. cbn [orb].
  rewrite (ltb_scaled a 1 Na nonNeg_one), (ltb_scaled 1 a nonNeg_one Na).
  destruct (Z.ltb_spec (scaled a) (scaled 1%float)) as [L | G].
  - split; [exact Na |]. split; lia.
  - destruct (Z.ltb_spec (scaled 1%float) (scaled a)) as [L' | G'].
    + split; [exact nonNeg_one |]. split; [lia | reflexivity].
    + assert (is_zero a = false) as ->.
      { unfold is_zero. rewrite (eqb_scaled a zero Na nonNeg_zero).
        apply Z.eqb_neq. assert (scaled a = scaled 1%float) as -> by lia.
        vm_compute. discriminate. }
      cbn [andb]. split; [exact nonNeg_one |]. split; [lia | reflexivity].
Qed.

Lemma mul_scaled (c : float) (mc : positive) (ec : Z) :
  Prim2SF c = S754_finite false mc ec -> 2 ^ 52 <= Z.pos mc -> -1074 <= ec ->
  forall x y : float,
    nonNeg x -> nonNeg y -> scaled x <= scaled y -> scaled y < top ->
    nonNeg (x * c)%float /\ nonNeg (y * c)%float /\ scaled (x * c)%float <= scaled (y * c)%float.
Proof.
  intros Hc Hmc Hec x y Nx Ny Hv Hy.
  assert (forall z, nonNeg z -> scaled z < top -> nonNeg (z * c)%float) as HN.
  { intros z Nz Hz. unfold nonNeg. rewrite mul_spec, Hc.
    now apply (mulc_nonneg mc ec Hmc). }
  assert (nonNeg (x * c)%float) as N1 by (apply HN; auto; lia).
  assert (nonNeg (y * c)%float) as N2 by (apply HN; auto).
  split; [exact N1 |]. split; [exact N2 |].
  apply Z.leb_le. rewrite <- leb_scaled by auto.
  rewrite leb_spec, !mul_spec, Hc.
  apply (mulc_mono mc ec Hmc Hec); auto using prim_valid.
Qed.

Lemma add_scaled (k : float) (mk : positive) (ek : Z) :
  Prim2SF k = S754_finite false mk ek ->
  forall x y : float,
    nonNeg x -> nonNeg y -> scaled x <= scaled y -> scaled y < top ->
    nonNeg (k + x)%float /\ nonNeg (k + y)%float /\ scaled (k + x)%float <= scaled (k + y)%float.
Proof.
  intros Hk x y Nx Ny Hv Hy.
  assert (valid (S754_finite false mk ek)) as Vk by (rewrite <- Hk; apply prim_valid).
  assert (forall z, nonNeg z -> scaled z < top -> nonNeg (k + z)%float) as HN.
  { intros z Nz Hz. unfold nonNeg. rewrite add_spec, Hk.
    apply (addc_nonneg mk ek Vk); auto using prim_valid. }
  assert (nonNeg (k + x)%float) as N1 by (apply HN; auto; lia).
  assert (nonNeg (k + y)%float) as N2 by (apply HN; auto).
  split; [exact N1 |]. split; [exact N2 |].
  apply Z.leb_le. rewrite <- leb_scaled by auto.
  rewrite leb_spec, !add_spec, Hk.
  apply (addc_mono mk ek Vk); auto using prim_valid.
Qed.

Lemma below_top (x : float) (bound : float) :
  scaled x <= scaled bound -> (scaled bound <? top) = true -> scaled x < top.
Proof. intros H B. apply Z.ltb_lt in B. lia. Qed.

Lemma hOf_mono (t1 t2 : float) :
  nonNeg t1 -> nonNeg t2 -> scaled t1 <= scaled t2 -> scaled t2 <= scaled 1%float ->
  nonNeg (hOf t1) /\ nonNeg (hOf t2) /\ scaled (hOf t1) <= scaled (hOf t2).
Proof.
  intros N1 N2 H12 H21. unfold hOf.
  assert (scaled 1%float < top) as T1 by (apply Z.ltb_lt; vm_compute; reflexivity).
  pose proof (mul_scaled c43 m43 e43 eq_refl ltac:(vm_compute; discriminate)
                ltac:(vm_compute; discriminate)) as HB.
  destruct (HB t1 t2 N1 N2 H12 ltac:(lia)) as (B1 & B2 & B12).
  destruct (HB t2 1%float N2 nonNeg_one H21 T1) as (_ & B3 & B23).
  assert (scaled (1 * c43)%float < top) as T2 by (apply Z.ltb_lt; vm_compute; reflexivity).
  pose proof (add_scaled 0.55 m055 e055 eq_refl) as HS.
  destruct (HS _ _ B1 B2 B12 ltac:(lia)) as (S1 & S2 & S12).
  destruct (HS _ _ B2 B3 B23 T2) as (_ & S3 & S23).
  assert (scaled (0.55 + 1 * c43)%float < top) as T3 by (apply Z.ltb_lt; vm_compute; reflexivity).
  pose proof (mul_scaled 100 m100 e100 eq_refl ltac:(vm_compute; discriminate)
                ltac:(vm_compute; discriminate)) as HH.
  destruct (HH _ _ S1 S2 S12 ltac:(lia)) as (H1 & H2 & H12').
  auto.
Qed.

(** ** [Math.round] and the division by 100 *)

Lemma nearestInt_mono (v1 v2 : Z) : v1 <= v2 -> nearestInt v1 <= nearestInt v2.
Proof.
  intros H. unfold nearestInt. apply Z.div_le_mono; [| lia].
  apply Z.pow_pos_nonneg; lia.
Qed.

Lemma roundHalfUp_scaled (m : positive) (e : Z) :
  -1074 <= e < 0 ->
  roundHalfUp false m e = nearestInt (Z.pos m * 2 ^ (e + 1074)).
Proof.
  intros He. unfold roundHalfUp, nearestInt.
  assert (0 < 2 ^ (e + 1074)) as P by (apply Z.pow_pos_nonneg; lia).
  assert (2 ^ 1074 = 2 ^ (- e) * 2 ^ (e + 1074)) as ->
    by (rewrite <- Z.pow_add_r by lia; f_equal; lia).
  assert (2 ^ 1075 = 2 ^ (- e + 1) * 2 ^ (e + 1074)) as ->
    by (rewrite <- Z.pow_add_r by lia; f_equal; lia).
  replace (2 * (Z.pos m * 2 ^ (e + 1074)) + 2 ^ (- e) * 2 ^ (e + 1074))
    with ((2 * Z.pos m + 2 ^ (- e)) * 2 ^ (e + 1074)) by ring.
  rewrite Z.div_mul_cancel_r; [reflexivity | | lia].
  pose proof (Z.pow_pos_nonneg 2 (- e + 1)). lia.
Qed.

Lemma mathRound_scaled (h : float) :
  nonNeg h -> scaled hLow <= scaled h <= scaled hHigh ->
  mathRound h = ofZ (nearestInt (scaled h)) /\ 55 <= nearestInt (scaled h) <= 98.
Proof.
  intros Nh (Hlo & Hhi).
  assert (nearestInt (scaled hLow) = 55) as E0 by (vm_compute; reflexivity).
  assert (nearestInt (scaled hHigh) = 98) as E1 by (vm_compute; reflexivity).
  pose proof (nearestInt_mono _ _ Hlo) as M0.
  pose proof (nearestInt_mono _ _ Hhi) as M1.
  split; [| lia].
  assert (0 < scaled hLow) as P0 by (vm_compute; reflexivity).
  assert (scaled hHigh < 2 ^ 52 * 2 ^ 1074) as P1 by (vm_compute; reflexivity).
  unfold mathRound. unfold scaled, nonNeg in *. pose proof (prim_valid h) as Vh.
  assert (2 ^ 52 * 2 ^ 1074 <= top) as Htop
    by (unfold top; rewrite <- Z.pow_add_r by lia; apply Z.pow_le_mono_r; lia).
  destruct (Prim2SF h) as [sh | [|] | | [|] m e]; try contradiction;
    try (exfalso; cbn [sval] in *; lia).
  destruct (valid_finite _ _ _ Vh) as (He & Hm & Hn & _).
  cbn [sval] in *.
  assert (e < 0) as Hneg.
  { destruct (Z_lt_ge_dec e 0) as [L | G]; [exact L | exfalso].
    specialize (Hn ltac:(lia)).
    assert (2 ^ 1074 <= 2 ^ (e + 1074)) by (apply Z.pow_le_mono_r; lia).
    assert (2 ^ 52 * 2 ^ 1074 <= Z.pos m * 2 ^ (e + 1074))
      by (apply Z.mul_le_mono_nonneg; lia).
    lia. }
  destruct (Z.leb_spec 0 e); [lia |].
  rewrite roundHalfUp_scaled by lia.
  destruct (Z.eqb_spec (nearestInt (Z.pos m * 2 ^ (e + 1074))) 0); [lia | reflexivity].
Qed.

(** The last division, on the integers [Math.round] can return. *)
Lemma in_hundredthRange (n : Z) : 55 <= n <= 98 -> In n hundredthRange.
Proof.
  intros H. unfold hundredthRange. apply in_map_iff.
  exists (Z.to_nat n). split; [lia |]. apply in_seq. lia.
Qed.

Lemma quotient_mono (n1 n2 : Z) :
  55 <= n1 -> n1 <= n2 -> n2 <= 98 ->
  (ofZ n1 / 100 <=? ofZ n2 / 100)%float = true.
Proof.
  intros H1 H12 H2.
  assert (quotients_sorted = true) as H by (vm_compute; reflexivity).
  unfold quotients_sorted in H. rewrite forallb_forall in H.
  specialize (H n1 (in_hundredthRange n1 ltac:(lia))).
  rewrite forallb_forall in H.
  specialize (H n2 (in_hundredthRange n2 ltac:(lia))).
  apply Z.leb_le in H12. rewrite H12 in H. exact H.
Qed.

Lemma scoreToConfidence_eq (x : float) :
  scoreToConfidence x = (mathRound (hOf (mathMin (x / 3) 1)) / 100)%float.
Proof. reflexivity. Qed.

Lemma hOf_range (t : float) :
  nonNeg t -> scaled t <= scaled 1%float -> nonNeg (hOf t) /\ scaled hLow <= scaled (hOf t) <= scaled hHigh.
Proof.
  intros Nt Ht.
  assert (0 <= scaled t) as H0.
  { unfold scaled, nonNeg in *. destruct (Prim2SF t) as [? | [|] | | [|] m e]; try contradiction;
      cbn [sval]; try lia. }
  destruct (hOf_mono 0 t nonNeg_zero Nt H0 Ht) as (_ & N & L).
  destruct (hOf_mono t 1 Nt nonNeg_one Ht ltac:(lia)) as (_ & _ & U).
  split; [exact N |]. split; [exact L | exact U].
Qed.

(** C6: on non-negative scores (zero of either sign, positive numbers
    and +infinity) [scoreToConfidence] is non-decreasing; a score of 0 gives
    exactly 0.55 and every score of at least 3.0 gives exactly 0.98. *)
Theorem scoreToConfidence_monotone :
  (forall x y : float,
     (0 <=? x)%float = true -> (x <=? y)%float = true ->
     (scoreToConfidence x <=? scoreToConfidence y)%float = true) /\
  scoreToConfidence 0 = 0.55%float /\
  (forall x : float, (3 <=? x)%float = true -> scoreToConfidence x = 0.98%float).
Proof.
  split; [| split].
  - intros x y H0 Hxy.
    assert (nonNeg x) as Nx by (apply (nonNeg_of_leb 0 x); auto using nonNeg_zero).
    assert (nonNeg y) as Ny by (apply (nonNeg_of_leb x y); auto).
    assert (scaled x <= scaled y) as Hv by (apply Z.leb_le; now rewrite <- leb_scaled).
    destruct (div3_scaled x y Nx Ny Hv) as (Na1 & Na2 & Ha).
    destruct (mathMin_one (x / 3)%float Na1) as (Nt1 & Et1 & _).
    destruct (mathMin_one (y / 3)%float Na2) as (Nt2 & Et2 & _).
    destruct (hOf_mono _ _ Nt1 Nt2 ltac:(lia) ltac:(lia)) as (Nh1 & Nh2 & Hh).
    destruct (hOf_range _ Nt1 ltac:(lia)) as (_ & R1).
    destruct (hOf_range _ Nt2 ltac:(lia)) as (_ & R2).
    destruct (mathRound_scaled _ Nh1 R1) as (E1 & B1).
    destruct (mathRound_scaled _ Nh2 R2) as (E2 & B2).
    rewrite !scoreToConfidence_eq, E1, E2.
    apply quotient_mono; try lia. now apply nearestInt_mono.
  - vm_compute. reflexivity.
  - intros x H3.
    assert (nonNeg 3%float) as N3 by exact I.
    assert (nonNeg x) as Nx by (apply (nonNeg_of_leb 3 x); auto).
    assert (scaled 3%float <= scaled x) as Hv by (apply Z.leb_le; now rewrite <- leb_scaled).
    destruct (div3_scaled 3 x N3 Nx Hv) as (_ & Na & Ha).
    destruct (mathMin_one (x / 3)%float Na) as (_ & _ & Ht).
    rewrite scoreToConfidence_eq, Ht; [vm_compute; reflexivity |].
    assert (scaled (3 / 3)%float = scaled 1%float) as <- by (vm_compute; reflexivity).
    exact Ha.
Qed.

Lemma scoreToConfidence_monotone_witness :
  (0 <=? 0.8)%float = true /\ (0.8 <=? 2.4)%float = true /\
  (scoreToConfidence 0.8 <=? scoreToConfidence 2.4)%float = true /\
  (3 <=? 5)%float = true /\ scoreToConfidence 5 = 0.98%float.
Proof.
  destruct scoreToConfidence_monotone as (Hmono & _ & Htop).
  split; [reflexivity |]. split; [reflexivity |].
  split; [apply Hmono; reflexivity |].
  split; [reflexivity | apply Htop; reflexivity].
Defined.

(* ================================================================== *)
(** * Further properties of the confidence *)
(* ================================================================== *)

(** X14: on every non-negative score, whether the analysis can reach it
    or not, +infinity included, [scoreToConfidence] returns a whole number
    of hundredths between 0.55 and 0.98. *)
Theorem confidence_of_any_score (x : float) :
  (0 <=? x)%float = true ->
  exists n : Z,
    55 <= n <= 98 /\ scoreToConfidence x = (ofZ n / 100)%float /\
    (0.55 <=? scoreToConfidence x)%float = true /\
    (scoreToConfidence x <=? 0.98)%float = true.
Proof.
  intros H0.
  assert (nonNeg x) as Nx by (apply (nonNeg_of_leb 0 x); auto using nonNeg_zero).
  assert (scaled 0%float <= scaled x) as Hv by (apply Z.leb_le; now rewrite <- leb_scaled).
  destruct (div3_scaled 0 x nonNeg_zero Nx Hv) as (_ & Na & _).
  destruct (mathMin_one (x / 3)%float Na) as (Nt & Et & _).
  destruct (hOf_range _ Nt ltac:(lia)) as (Nh & R).
  destruct (mathRound_scaled _ Nh R) as (E & B).
  exists (nearestInt (scaled (hOf (mathMin (x / 3) 1)))).
  rewrite scoreToConfidence_eq, E.
  split; [exact B |]. split; [reflexivity |]. split.
  - change 0.55%float with (ofZ 55 / 100)%float. apply quotient_mono; lia.
  - change 0.98%float with (ofZ 98 / 100)%float. apply quotient_mono; lia.
Qed.

Lemma confidence_of_any_score_witness :
  (0 <=? infinity)%float = true /\
  (0.55 <=? scoreToConfidence infinity)%float = true /\
  (scoreToConfidence infinity <=? 0.98)%float = true.
Proof.
  destruct (confidence_of_any_score infinity eq_refl) as (n & _ & _ & Hlo & Hhi).
  split; [reflexivity |]. split; [exact Hlo | exact Hhi].
Defined.

(** ** Confidences drawn at random *)

Lemma nonNeg_scaled (x : float) : nonNeg x -> 0 <= scaled x.
Proof.
  unfold scaled, nonNeg. intros H.
  destruct (Prim2SF x) as [? | [|] | | [|] m e]; try contradiction; cbn [sval].
  - lia.
  - unfold top. apply Z.pow_nonneg. lia.
  - apply Z.mul_nonneg_nonneg; [lia |]. apply Z.pow_nonneg. lia.
Qed.

Lemma mathRound_between (lo hi h : float) :
  nonNeg h -> scaled lo <= scaled h <= scaled hi ->
  0 < nearestInt (scaled lo) -> scaled hi < 2 ^ 52 * 2 ^ 1074 ->
  mathRound h = ofZ (nearestInt (scaled h)) /\
  nearestInt (scaled lo) <= nearestInt (scaled h) <= nearestInt (scaled hi).
Proof.
  intros Nh (Hlo & Hhi) P0 P1.
  pose proof (nearestInt_mono _ _ Hlo) as M0.
  pose proof (nearestInt_mono _ _ Hhi) as M1.
  split; [| lia].
  assert (0 < nearestInt (scaled h)) as Pn by lia.
  unfold mathRound. unfold scaled, nonNeg in *. pose proof (prim_valid h) as Vh.
  assert (2 ^ 52 * 2 ^ 1074 <= top) as Htop
    by (unfold top; rewrite <- Z.pow_add_r by lia; apply Z.pow_le_mono_r; lia).
  destruct (Prim2SF h) as [sh | [|] | | [|] m e]; try contradiction.
  - exfalso. cbn [sval] in Pn. vm_compute in Pn. discriminate.
  - exfalso. cbn [sval] in *. lia.
  - destruct (valid_finite _ _ _ Vh) as (He & Hm & Hn & _).
    cbn [sval] in *.
    assert (e < 0) as Hneg.
    { destruct (Z_lt_ge_dec e 0) as [L | G]; [exact L | exfalso].
      specialize (Hn ltac:(lia)).
      assert (2 ^ 1074 <= 2 ^ (e + 1074)) by (apply Z.pow_le_mono_r; lia).
      assert (2 ^ 52 * 2 ^ 1074 <= Z.pos m * 2 ^ (e + 1074))
        by (apply Z.mul_le_mono_nonneg; lia).
      lia. }
    destruct (Z.leb_spec 0 e); [lia |].
    rewrite roundHalfUp_scaled by lia.
    destruct (Z.eqb_spec (nearestInt (Z.pos m * 2 ^ (e + 1074))) 0); [lia | reflexivity].
Qed.

Lemma in_between (lo hi n : Z) : lo <= n <= hi -> In n (between lo hi).
Proof.
  intros H. unfold between. apply in_map_iff.
  exists (Z.to_nat (n - lo)). split; [lia |]. apply in_seq. lia.
Qed.

(** The confidence of a branch, for a random value between 0 and 1. *)
Lemma branch_confidence (start span : float) (lo hi : Z) (r : float) :
  branchOk start span lo hi = true ->
  (0 <=? r)%float = true -> (r <=? 1)%float = true ->
  exists n : Z,
    lo <= n <= hi /\ toHundredths (drawn start span r) = (ofZ n / 100)%float /\
    (ofZ lo / 100 <=? toHundredths (drawn start span r))%float = true /\
    (toHundredths (drawn start span r) <=? ofZ hi / 100)%float = true.
Proof.
  unfold branchOk. intros Hok H0 H1.
  destruct (Prim2SF start) as [| | | [|] mk ek] eqn:Ek; try discriminate.
  destruct (Prim2SF span) as [| | | [|] mc ec] eqn:Ec; try discriminate.
  repeat (apply andb_true_iff in Hok as (Hok & ?)).
  repeat match goal with
         | H : (_ <=? _) = true |- _ => apply Z.leb_le in H
         | H : (_ <? _) = true |- _ => apply Z.ltb_lt in H
         | H : (_ =? _) = true |- _ => apply Z.eqb_eq in H
         end.
  assert (nonNeg r) as Nr by (apply (nonNeg_of_leb 0 r); auto using nonNeg_zero).
  assert (scaled r <= scaled 1%float) as Hr1
    by (apply Z.leb_le; rewrite <- leb_scaled; auto using nonNeg_one).
  pose proof (nonNeg_scaled r Nr) as Hr0.
  assert (scaled 1%float < top) as T1 by (apply Z.ltb_lt; vm_compute; reflexivity).
  pose proof (mul_scaled span mc ec Ec ltac:(assumption) ltac:(assumption)) as HB.
  destruct (HB 0%float r nonNeg_zero Nr Hr0 ltac:(lia)) as (B0 & B1 & B01).
  destruct (HB r 1%float Nr nonNeg_one Hr1 T1) as (_ & B2 & B12).
  pose proof (add_scaled start mk ek Ek) as HS.
  destruct (HS _ _ B0 B1 B01 ltac:(lia)) as (S0 & S1 & S01).
  destruct (HS _ _ B1 B2 B12 ltac:(assumption)) as (_ & S2 & S12).
  pose proof (mul_scaled 100 m100 e100 eq_refl ltac:(vm_compute; discriminate)
                ltac:(vm_compute; discriminate)) as HH.
  fold (drawn start span 0) in S0, S01. fold (drawn start span r) in S1, S01, S12.
  fold (drawn start span 1) in S2, S12.
  destruct (HH _ _ S0 S1 S01 ltac:(lia)) as (H0' & H1' & H01).
  destruct (HH _ _ S1 S2 S12 ltac:(assumption)) as (_ & H2' & H12).
  destruct (mathRound_between (drawn start span 0 * 100) (drawn start span 1 * 100)
              (drawn start span r * 100) H1' (conj H01 H12) ltac:(lia) ltac:(assumption))
    as (E & Bn).
  set (n := nearestInt (scaled (drawn start span r * 100)%float)) in *.
  assert (lo <= n <= hi) as Hn by lia.
  exists n. unfold toHundredths. rewrite E.
  split; [exact Hn |]. split; [reflexivity |].
  match goal with H : quotientsWithin lo hi = true |- _ =>
    unfold quotientsWithin in H; rewrite forallb_forall in H;
    specialize (H n (in_between lo hi n Hn)); apply andb_true_iff in H end.
  assumption.
Qed.

(** The branches of the two services. *)
Lemma branch_rust : branchOk 0.85 0.14 85 99 = true.
Proof. vm_compute. reflexivity. Qed.

Lemma branch_spot : branchOk 0.80 0.19 80 99 = true.
Proof. vm_compute. reflexivity. Qed.

Lemma branch_anthracnose : branchOk 0.82 0.17 82 99 = true.
Proof. vm_compute. reflexivity. Qed.

Lemma branch_burn : branchOk 0.78 0.21 78 99 = true.
Proof. vm_compute. reflexivity. Qed.

Lemma branch_default : branchOk 0.75 0.24 75 99 = true.
Proof. vm_compute. reflexivity. Qed.

Lemma branch_earlier_default : branchOk 0.75 0.20 75 95 = true.
Proof. vm_compute. reflexivity. Qed.

Lemma branch_healthy : branchOk 0.88 0.11 88 99 = true.
Proof. vm_compute. reflexivity. Qed.

Lemma quotients_75_99 : quotientsWithin 75 99 = true.
Proof. vm_compute. reflexivity. Qed.

(* ================================================================== *)
(** * The client's fall-back and the earlier service *)
(* ================================================================== *)

Import JsRandom.
Set Implicit Arguments.

(** The branches of [fallbackPrediction], one goal for each. *)
Ltac fallback_branches filename :=
  unfold run, AloeModelService.fallbackPrediction, bind, ret, mathRandom;
  cbv zeta;
  fold (mentions filename "rust"); fold (mentions filename "spot");
  fold (mentions filename "leaf"); fold (mentions filename "anthracnose");
  fold (mentions filename "sunburn"); fold (mentions filename "burn");
  destruct (mentions filename "rust") eqn:Hrust;
    [| destruct (mentions filename "spot" || mentions filename "leaf") eqn:Hspot;
       [| destruct (mentions filename "anthracnose") eqn:Hanth;
          [| destruct (mentions filename "sunburn" || mentions filename "burn") eqn:Hburn]]];
  cbn [fst snd AloeModelService.disease AloeModelService.confidence
       AloeModelService.severity AloeModelService.isHealthy
       AloeModelService.description AloeModelService.treatment].

Lemma mentions_longer (name : jsstring) (long short : string) :
  includes (lit long) (lit short) = true ->
  mentions name long = true -> mentions name short = true.
Proof. unfold mentions. intros H1 H2. exact (includes_trans _ _ _ H2 H1). Qed.

Lemma sunburn_is_burn (name : jsstring) :
  mentions name "sunburn" || mentions name "burn" = mentions name "burn".
Proof.
  destruct (mentions name "sunburn") eqn:E; [| reflexivity].
  symmetry. now apply (mentions_longer name "sunburn" "burn").
Qed.

(** X15: the class that the client's fall-back returns depends on the
    file name alone, never on the random values: a name that mentions
    "rust" is Aloe Rust whatever else it mentions; the class is Healthy
    exactly when the name mentions none of "rust", "spot", "leaf",
    "anthracnose" and "burn" (the test for "sunburn" adds nothing); the
    result is flagged healthy exactly then, and exactly when its severity
    is null. *)
Theorem fallback_class_by_name (filename : jsstring) (rnd : source) (k : nat) :
  let r := run (AloeModelService.fallbackPrediction filename) rnd k in
  let has := mentions filename in
  (has "rust" = true -> AloeModelService.disease r = AloeModelService.AloeRust) /\
  (AloeModelService.disease r = AloeModelService.Healthy
   <-> has "rust" = false /\ has "spot" = false /\ has "leaf" = false /\
       has "anthracnose" = false /\ has "burn" = false) /\
  (AloeModelService.isHealthy r = true
   <-> AloeModelService.disease r = AloeModelService.Healthy) /\
  (AloeModelService.isHealthy r = true <-> AloeModelService.severity r = None) /\
  (forall (rnd' : source) (k' : nat),
     let r' := run (AloeModelService.fallbackPrediction filename) rnd' k' in
     AloeModelService.disease r' = AloeModelService.disease r /\
     AloeModelService.severity r' = AloeModelService.severity r /\
     AloeModelService.isHealthy r' = AloeModelService.isHealthy r /\
     AloeModelService.description r' = AloeModelService.description r /\
     AloeModelService.treatment r' = AloeModelService.treatment r).
Proof.
  intros r has. subst r has.
  pose proof (sunburn_is_burn filename) as Hsb.
  fallback_branches filename;
    rewrite ?Hburn in Hsb;
    try (apply orb_true_iff in Hspot);
    try (apply orb_false_iff in Hspot as (Hs1 & Hs2));
    (split; [intros; first [reflexivity | discriminate] |]);
    (split; [split; [intros; first [discriminate | auto 6] |
                     intros (? & ? & ? & ? & ?);
                     first [reflexivity | exfalso; destruct Hspot; congruence
                            | congruence] ] |]);
    (split; [split; intros; first [reflexivity | discriminate] |]);
    (split; [split; intros; first [reflexivity | discriminate] |]);
    intros rnd' k'; cbv zeta;
    unfold run, AloeModelService.fallbackPrediction, bind, ret, mathRandom;
    cbv zeta;
    fold (mentions filename "rust"); fold (mentions filename "spot");
    fold (mentions filename "leaf"); fold (mentions filename "anthracnose");
    fold (mentions filename "sunburn"); fold (mentions filename "burn");
    rewrite ?Hrust, ?Hanth, ?Hburn;
    try (destruct Hspot as [-> | ->]; rewrite ?orb_true_r);
    rewrite ?Hs1, ?Hs2;
    cbn; repeat split; reflexivity.
Qed.

(** ** The confidence of the fall-back *)

Lemma unit_value (rnd : source) (i : nat) :
  unitValues rnd -> (0 <=? rnd i)%float = true /\ (rnd i <=? 1)%float = true.
Proof.
  intros H. destruct (H i) as (H0 & H1). split; [exact H0 |].
  assert (nonNeg (rnd i)) as N by (apply (nonNeg_of_leb 0); auto using nonNeg_zero).
  rewrite (ltb_scaled _ _ N nonNeg_one) in H1.
  rewrite (leb_scaled _ _ N nonNeg_one).
  apply Z.ltb_lt in H1. apply Z.leb_le. lia.
Qed.

(** X16: with random values in [[0, 1)], the confidence of the client's
    fall-back is a whole number of hundredths between 0.75 and 0.99, and
    is at least the constant its class starts from (0.75 for Healthy, 0.80
    for Leaf Spot Disease, 0.85 for Aloe Rust, 0.82 for Anthracnose, 0.78
    for Sunburn); it is never 1. *)
Theorem fallback_confidence_range (filename : jsstring) (rnd : source) (k : nat) :
  unitValues rnd ->
  let r := run (AloeModelService.fallbackPrediction filename) rnd k in
  exists n : Z,
    (75 <= n <= 99)%Z /\
    AloeModelService.confidence r = (ofZ n / 100)%float /\
    (fallbackFloor (AloeModelService.disease r)
       <=? AloeModelService.confidence r)%float = true /\
    (AloeModelService.confidence r <=? 0.99)%float = true.
Proof.
  intros Hu r. subst r.
  destruct (unit_value k Hu) as (A0 & A1).
  destruct (unit_value (S k) Hu) as (B0 & B1).
  fallback_branches filename; cbn [fallbackFloor].
  - destruct (@branch_confidence 0.85 0.14 85 99 (rnd (S k)) branch_rust B0 B1)
      as (n & Hn & E & Hlo & Hhi).
    exists n. split; [lia |]. split; [exact E |]. split; [exact Hlo | exact Hhi].
  - destruct (@branch_confidence 0.80 0.19 80 99 (rnd (S k)) branch_spot B0 B1)
      as (n & Hn & E & Hlo & Hhi).
    exists n. split; [lia |]. split; [exact E |]. split; [exact Hlo | exact Hhi].
  - destruct (@branch_confidence 0.82 0.17 82 99 (rnd (S k)) branch_anthracnose B0 B1)
      as (n & Hn & E & Hlo & Hhi).
    exists n. split; [lia |]. split; [exact E |]. split; [exact Hlo | exact Hhi].
  - destruct (@branch_confidence 0.78 0.21 78 99 (rnd (S k)) branch_burn B0 B1)
      as (n & Hn & E & Hlo & Hhi).
    exists n. split; [lia |]. split; [exact E |]. split; [exact Hlo | exact Hhi].
  - destruct (@branch_confidence 0.75 0.24 75 99 (rnd k) branch_default A0 A1)
      as (n & Hn & E & Hlo & Hhi).
    exists n. split; [lia |]. split; [exact E |]. split; [exact Hlo | exact Hhi].
Qed.

Lemma fallback_confidence_range_witness :
  unitValues (fun _ => 0.5%float) /\
  (0.85 <=? AloeModelService.confidence
              (run (AloeModelService.fallbackPrediction (lit "Rust.png"))
                   (fun _ => 0.5%float) 0))%float = true.
Proof.
  assert (unitValues (fun _ => 0.5%float)) as Hu by (intros i; split; reflexivity).
  split; [exact Hu |].
  destruct (@fallback_confidence_range (lit "Rust.png") (fun _ => 0.5%float) 0%nat Hu)
    as (n & _ & _ & Hlo & _).
  exact Hlo.
Defined.

(** ** The earlier service *)

(** The branches of the earlier [predictFromImageName]. *)
Ltac earlier_fold imageName :=
  unfold run, EarlierService.predictFromImageName, bind, ret, mathRandom;
  cbv zeta;
  fold (mentions imageName "rust"); fold (mentions imageName "orange");
  fold (mentions imageName "pustule"); fold (mentions imageName "spot");
  fold (mentions imageName "leaf"); fold (mentions imageName "brown");
  fold (mentions imageName "anthracnose"); fold (mentions imageName "lesion");
  fold (mentions imageName "sunken"); fold (mentions imageName "sunburn");
  fold (mentions imageName "burn"); fold (mentions imageName "scorch");
  fold (mentions imageName "healthy"); fold (mentions imageName "normal");
  fold (mentions imageName "good").

Ltac earlier_branches imageName :=
  earlier_fold imageName;
  destruct (mentions imageName "rust" || mentions imageName "orange"
            || mentions imageName "pustule") eqn:Hrust;
    [| destruct (mentions imageName "spot" || mentions imageName "leaf"
                 || mentions imageName "brown") eqn:Hspot;
       [| destruct (mentions imageName "anthracnose" || mentions imageName "lesion"
                    || mentions imageName "sunken") eqn:Hanth;
          [| destruct (mentions imageName "sunburn" || mentions imageName "burn"
                       || mentions imageName "scorch") eqn:Hburn;
             [| destruct (mentions imageName "healthy" || mentions imageName "normal"
                          || mentions imageName "good") eqn:Hgood]]]];
  cbn [fst snd EarlierService.diagnosis EarlierService.confidence
       EarlierService.severity EarlierService.isHealthy
       EarlierService.description EarlierService.treatment].

(** X17: in the earlier service too the diagnosis depends on the name
    alone: a name that mentions "rust", "orange" or "pustule" is Aloe
    Rust whatever else it mentions; the diagnosis is Healthy exactly when
    the name mentions no word of the four disease branches ("sunburn"
    adds nothing to "burn"); the result is flagged healthy exactly then,
    and exactly when its severity is null. *)
Theorem earlier_class_by_name (imageName : jsstring) (rnd : source) (k : nat) :
  let r := run (EarlierService.predictFromImageName imageName) rnd k in
  let has := mentions imageName in
  (has "rust" || has "orange" || has "pustule" = true ->
   EarlierService.diagnosis r = EarlierService.AloeRust) /\
  (EarlierService.diagnosis r = EarlierService.Healthy
   <-> has "rust" || has "orange" || has "pustule" = false /\
       has "spot" || has "leaf" || has "brown" = false /\
       has "anthracnose" || has "lesion" || has "sunken" = false /\
       has "burn" || has "scorch" = false) /\
  (EarlierService.isHealthy r = true
   <-> EarlierService.diagnosis r = EarlierService.Healthy) /\
  (EarlierService.isHealthy r = true <-> EarlierService.severity r = None) /\
  (forall (rnd' : source) (k' : nat),
     let r' := run (EarlierService.predictFromImageName imageName) rnd' k' in
     EarlierService.diagnosis r' = EarlierService.diagnosis r /\
     EarlierService.severity r' = EarlierService.severity r /\
     EarlierService.isHealthy r' = EarlierService.isHealthy r /\
     EarlierService.description r' = EarlierService.description r /\
     EarlierService.treatment r' = EarlierService.treatment r).
Proof.
  intros r has. subst r has.
  assert (mentions imageName "sunburn" || mentions imageName "burn"
          || mentions imageName "scorch"
          = mentions imageName "burn" || mentions imageName "scorch") as Hsb
    by (now rewrite sunburn_is_burn).
  earlier_branches imageName;
    rewrite ?Hburn in Hsb;
    (split; [intros; first [reflexivity | discriminate] |]);
    (split; [split; [intros; first [discriminate | auto 6] |
                     intros (? & ? & ? & ?);
                     first [reflexivity | congruence] ] |]);
    (split; [split; intros; first [reflexivity | discriminate] |]);
    (split; [split; intros; first [reflexivity | discriminate] |]);
    intros rnd' k'; cbv zeta;
    earlier_fold imageName;
    rewrite ?Hrust, ?Hspot, ?Hanth, ?Hburn, ?Hgood;
    cbn; repeat split; reflexivity.
Qed.

Lemma hundredth_within (lo hi n : Z) :
  quotientsWithin lo hi = true -> (lo <= n <= hi)%Z ->
  (ofZ lo / 100 <=? ofZ n / 100)%float = true /\
  (ofZ n / 100 <=? ofZ hi / 100)%float = true.
Proof.
  intros H Hn. unfold quotientsWithin in H. rewrite forallb_forall in H.
  specialize (H n (in_between lo hi n Hn)). now apply andb_true_iff in H.
Qed.

(** X18: with random values in [[0, 1)], the confidence of the earlier
    service is a whole number of hundredths between 0.75 and 0.99, at
    least the constant its class starts from; a Healthy diagnosis has a
    confidence of at least 0.88 when the name mentions "healthy",
    "normal" or "good", and of at most 0.95 otherwise. *)
Theorem earlier_confidence_range (imageName : jsstring) (rnd : source) (k : nat) :
  unitValues rnd ->
  let r := run (EarlierService.predictFromImageName imageName) rnd k in
  let has := mentions imageName in
  (exists n : Z,
     (75 <= n <= 99)%Z /\
     EarlierService.confidence r = (ofZ n / 100)%float /\
     (earlierFloor (EarlierService.diagnosis r)
        <=? EarlierService.confidence r)%float = true /\
     (EarlierService.confidence r <=? 0.99)%float = true) /\
  (EarlierService.diagnosis r = EarlierService.Healthy ->
   if has "healthy" || has "normal" || has "good"
   then (0.88 <=? EarlierService.confidence r)%float = true
   else (EarlierService.confidence r <=? 0.95)%float = true).
Proof.
  intros Hu r has. subst r has.
  destruct (unit_value k Hu) as (A0 & A1).
  destruct (unit_value (S k) Hu) as (B0 & B1).
  earlier_branches imageName; cbn [earlierFloor];
    (split; [| try discriminate]).
  - destruct (@branch_confidence 0.85 0.14 85 99 (rnd (S k)) branch_rust B0 B1)
      as (n & Hn & E & Hlo & Hhi).
    exists n. split; [lia |]. split; [exact E |]. split; [exact Hlo | exact Hhi].
  - destruct (@branch_confidence 0.80 0.19 80 99 (rnd (S k)) branch_spot B0 B1)
      as (n & Hn & E & Hlo & Hhi).
    exists n. split; [lia |]. split; [exact E |]. split; [exact Hlo | exact Hhi].
  - destruct (@branch_confidence 0.82 0.17 82 99 (rnd (S k)) branch_anthracnose B0 B1)
      as (n & Hn & E & Hlo & Hhi).
    exists n. split; [lia |]. split; [exact E |]. split; [exact Hlo | exact Hhi].
  - destruct (@branch_confidence 0.78 0.21 78 99 (rnd (S k)) branch_burn B0 B1)
      as (n & Hn & E & Hlo & Hhi).
    exists n. split; [lia |]. split; [exact E |]. split; [exact Hlo | exact Hhi].
  - destruct (@branch_confidence 0.88 0.11 88 99 (rnd (S k)) branch_healthy B0 B1)
      as (n & Hn & E & Hlo & Hhi).
    exists n. split; [lia |]. split; [exact E |]. split; [| exact Hhi].
    unfold toHundredths, drawn in E. rewrite E.
    apply (@hundredth_within 75 99 n quotients_75_99). lia.
  - intros _.
    destruct (@branch_confidence 0.88 0.11 88 99 (rnd (S k)) branch_healthy B0 B1)
      as (n & Hn & E & Hlo & Hhi).
    exact Hlo.
  - destruct (@branch_confidence 0.75 0.20 75 95 (rnd k) branch_earlier_default A0 A1)
      as (n & Hn & E & Hlo & Hhi).
    exists n. split; [lia |]. split; [exact E |]. split; [exact Hlo |].
    unfold toHundredths, drawn in E. rewrite E.
    apply (@hundredth_within 75 99 n quotients_75_99). lia.
  - intros _.
    destruct (@branch_confidence 0.75 0.20 75 95 (rnd k) branch_earlier_default A0 A1)
      as (n & Hn & E & Hlo & Hhi).
    exact Hhi.
Qed.

Lemma earlier_confidence_range_witness :
  unitValues (fun _ => 0.25%float) /\
  (EarlierService.confidence
     (run (EarlierService.predictFromImageName (lit "IMG_7.jpg"))
          (fun _ => 0.25%float) 0) <=? 0.95)%float = true.
Proof.
  assert (unitValues (fun _ => 0.25%float)) as Hu by (intros i; split; reflexivity).
  split; [exact Hu |].
  destruct (@earlier_confidence_range (lit "IMG_7.jpg") (fun _ => 0.25%float) 0%nat Hu)
    as (_ & H).
  exact (H eq_refl).
Defined.

